(** * MiniGridOptimiser: the network director and the profitability optimiser

    A shallow embedding of [src/mgo/mgo.py]: the nested function
    [direct_network] of [create_network], and [run_model] with its nested
    functions [calculate_profit] and [connect_houses].

    Python lists of lists are records held in lists; every in-place update
    is an explicit list update threaded through the calls, and a [for] loop
    over a list whose elements are mutated on the way reads element [i] of
    the current state at step [i].  Python floats are idealised as exact
    rationals ([Q]), to which the infinities and the nan that a division by
    zero gives in numpy are added where they can arise, in [np.npv]; Python
    exceptions and unbounded recursion or looping are the three results of
    [outcome].  The division of the coverage mode is the true division of
    Python 3, and the interpreter's limit on the depth of recursion is not
    modelled. *)

From Stdlib Require Import ZArith QArith Qpower Qround Lia.
From stdpp Require Import base option list relations.

Open Scope Z_scope.

(** ** Results of Python computations *)

Inductive exn :=
  | IndexError | ValueError | ZeroDivisionError | OverflowError | UnboundLocalError.

(** [Timeout] stands for a computation that the given fuel does not finish:
    a recursion deeper, or a [while True] loop longer, than the fuel. *)
Inductive outcome (A : Type) : Type :=
  | Done (a : A)
  | Raise (e : exn)
  | Timeout.
Arguments Done {A} a.
Arguments Raise {A} e.
Arguments Timeout {A}.

#[global] Instance outcome_ret : MRet outcome := fun A a => Done a.
#[global] Instance outcome_bind : MBind outcome := fun A B f m =>
  match m with
  | Done a => f a
  | Raise e => Raise e
  | Timeout => Timeout
  end.

(** [for x in xs: st = body(st, x)] with exceptions propagated. *)
Fixpoint for_each {S X : Type} (body : S -> X -> outcome S) (st : S) (xs : list X)
  : outcome S :=
  match xs with
  | [] => Done st
  | x :: rest => st' ← body st x; for_each body st' rest
  end.

(** ** Python list indexing: [l[i]] accepts [-len(l) <= i < len(l)] *)

Definition py_pos (len : nat) (i : Z) : option nat :=
  if decide (0 <= i) then
    if decide (i < Z.of_nat len) then Some (Z.to_nat i) else None
  else
    if decide (- Z.of_nat len <= i) then Some (Z.to_nat (Z.of_nat len + i)) else None.

Definition py_get {A : Type} (l : list A) (i : Z) : outcome A :=
  match py_pos (length l) i with
  | Some k =>
      match l !! k with
      | Some x => Done x
      | None => Raise IndexError
      end
  | None => Raise IndexError
  end.

(** [l[i] = f(l[i])], the in-place change of one element. *)
Definition py_alter {A : Type} (f : A -> A) (l : list A) (i : Z) : outcome (list A) :=
  match py_pos (length l) i with
  | Some k => Done (alter f k l)
  | None => Raise IndexError
  end.

(** ** The graph model *)

(** A node list [index, x, y, area_m2, marginal distance, total distance,
    connected, arc indices...]. *)
Record node : Type := mk_node {
  n_index : Z;
  n_x : Z;
  n_y : Z;
  n_area : Z;
  n_marg : Q;
  n_tot : Q;
  n_connected : Z;
  n_arcs : list Z
}.

(** An arc list [index, xs, ys, xe, ye, first node, last node, directed,
    length, enabled]. *)
Record arc : Type := mk_arc {
  a_index : Z;
  a_xs : Z;
  a_ys : Z;
  a_xe : Z;
  a_ye : Z;
  a_start : Z;
  a_end : Z;
  a_directed : Z;
  a_length : Q;
  a_enabled : Z
}.

Definition set_marg (v : Q) (n : node) : node :=
  mk_node (n_index n) (n_x n) (n_y n) (n_area n) v (n_tot n) (n_connected n) (n_arcs n).
Definition set_tot (v : Q) (n : node) : node :=
  mk_node (n_index n) (n_x n) (n_y n) (n_area n) (n_marg n) v (n_connected n) (n_arcs n).
Definition set_connected (v : Z) (n : node) : node :=
  mk_node (n_index n) (n_x n) (n_y n) (n_area n) (n_marg n) (n_tot n) v (n_arcs n).
Definition append_arc (v : Z) (n : node) : node :=
  mk_node (n_index n) (n_x n) (n_y n) (n_area n) (n_marg n) (n_tot n) (n_connected n)
          (n_arcs n ++ [v]).

Definition set_start (v : Z) (a : arc) : arc :=
  mk_arc (a_index a) (a_xs a) (a_ys a) (a_xe a) (a_ye a) v (a_end a) (a_directed a)
         (a_length a) (a_enabled a).
Definition set_end (v : Z) (a : arc) : arc :=
  mk_arc (a_index a) (a_xs a) (a_ys a) (a_xe a) (a_ye a) (a_start a) v (a_directed a)
         (a_length a) (a_enabled a).
Definition set_directed (v : Z) (a : arc) : arc :=
  mk_arc (a_index a) (a_xs a) (a_ys a) (a_xe a) (a_ye a) (a_start a) (a_end a) v
         (a_length a) (a_enabled a).
Definition set_length (v : Q) (a : arc) : arc :=
  mk_arc (a_index a) (a_xs a) (a_ys a) (a_xe a) (a_ye a) (a_start a) (a_end a)
         (a_directed a) v (a_enabled a).
Definition set_enabled (v : Z) (a : arc) : arc :=
  mk_arc (a_index a) (a_xs a) (a_ys a) (a_xe a) (a_ye a) (a_start a) (a_end a)
         (a_directed a) (a_length a) v.

(** The swap of the two end points of an arc "pointing the wrong way". *)
Definition flip_arc (a : arc) : arc :=
  mk_arc (a_index a) (a_xe a) (a_ye a) (a_xs a) (a_ys a) (a_start a) (a_end a)
         (a_directed a) (a_length a) (a_enabled a).

(** The shared mutable pair [(nodes, network)]. *)
Definition state : Type := list node * list arc.

(** ** [create_network]: the network director *)

Module Director.
Section Director.

(** [max_tot_length = float(max_length)]. *)
Variable max_tot_length : Q.

Definition at_start (a : arc) (n : node) : Prop := a_xs a = n_x n /\ a_ys a = n_y n.
Definition at_end (a : arc) (n : node) : Prop := a_xe a = n_x n /\ a_ye a = n_y n.

#[global] Instance at_start_dec a n : Decision (at_start a n).
Proof. unfold at_start. apply _. Defined.
#[global] Instance at_end_dec a n : Decision (at_end a n).
Proof. unfold at_end. apply _. Defined.

(** The body of [if found:] for the arc at position [i], already flipped
    when it pointed the wrong way.  [nd] is [nodes[index]].  The inner
    [for node in nodes] stops at the first node at the arc's end point
    ([break]); [rec] is the recursive call. *)
Definition claim (rec : state -> Z -> outcome state)
    (st : state) (nd : node) (i : nat) (a : arc) : outcome state :=
  let a1 := set_directed 1 (set_start (n_index nd) a) in
  match list_find (at_end a1) st.1 with
  | None => Done (st.1, <[i := a1]> st.2)
  | Some (j, nj) =>
      let a2 := set_end (n_index nj) a1 in
      let nj' := set_tot (n_tot nd + a_length a2)%Q (set_marg (a_length a2) nj) in
      let a3 := if Qlt_le_dec max_tot_length (n_tot nj') then set_enabled 0 a2 else a2 in
      rec (<[j := nj']> st.1, <[i := a3]> st.2) (n_index nj')
  end.

(** One iteration of [for arc in network], at position [i]. *)
Definition arc_step (rec : state -> Z -> outcome state) (index : Z)
    (st : state) (i : nat) : outcome state :=
  match st.2 !! i with
  | None => Done st
  | Some a =>
      nd ← py_get st.1 index;
      if decide (at_start a nd) then
        if decide (a_directed a = 1) then Done st
        else claim rec st nd i a
      else if decide (at_end a nd) then
        if decide (a_directed a = 1) then Done st
        else claim rec st nd i (flip_arc a)
      else Done st
  end.

Fixpoint direct_network (fuel : nat) (st : state) (index : Z) : outcome state :=
  match fuel with
  | O => Timeout
  | S f => for_each (arc_step (direct_network f) index) st (seq 0 (length st.2))
  end.

(** [nodes] as built from the point table (the generator first): the index
    column is the row number, and [extend([0, 0, 0])] gives the two
    distances and the connected flag. *)
Definition init_node (i : nat) (p : Z * Z * Z) : node :=
  mk_node (Z.of_nat i) p.1.1 p.1.2 p.2 0 0 0 [].
Definition init_nodes (points : list (Z * Z * Z)) : list node := imap init_node points.

(** [math.sqrt], a parameter of the model. *)
Variable sqrt : Z -> Q.

(** [network] as built from the tree segments [(xs, ys, xe, ye)], followed
    by the pass that sets every arc's length. *)
Definition init_arc (i : nat) (s : Z * Z * Z * Z) : arc :=
  let a := mk_arc (Z.of_nat i) s.1.1.1 s.1.1.2 s.1.2 s.2 (-99) (-99) 0 0 1 in
  set_length (sqrt ((a_xe a - a_xs a) ^ 2 + (a_ye a - a_ys a) ^ 2)) a.
Definition init_network (segs : list (Z * Z * Z * Z)) : list arc := imap init_arc segs.

(** [for arc in network: nodes[arc[5]].append(arc[0]); nodes[arc[6]].append(arc[0])] *)
Definition add_references (nodes : list node) (network : list arc) : outcome (list node) :=
  for_each (fun nodes a =>
              nodes1 ← py_alter (append_arc (a_index a)) nodes (a_start a);
              py_alter (append_arc (a_index a)) nodes1 (a_end a))
           nodes network.

(** [create_network] from the construction of [nodes] on; it returns
    [(network, nodes)].  [points] is the table of the generator and the
    buildings, and [segs] what [get_graph_segments] gives for it.  The
    segments are computed only [if min_cluster >= 2], with
    [min_cluster = len(df.index) - 1] the number of buildings: with fewer,
    [T_x] is never bound and the loop that builds [network] raises
    UnboundLocalError, after [nodes] was built. *)
Definition create_network (fuel : nat) (points : list (Z * Z * Z))
    (segs : list (Z * Z * Z * Z)) : outcome (list arc * list node) :=
  let min_cluster := Z.of_nat (length points) - 1 in
  if decide (min_cluster >= 2) then
    st ← direct_network fuel (init_nodes points, init_network segs) 0;
    nodes ← add_references st.1 st.2;
    mret (st.2, nodes)
  else Raise UnboundLocalError.

End Director.

(** ** The runs of [direct_network] *)

(** The coordinates of a node and of the two end points of an arc. *)
Definition xy (n : node) : Z * Z := (n_x n, n_y n).
Definition a_s (a : arc) : Z * Z := (a_xs a, a_ys a).
Definition a_e (a : arc) : Z * Z := (a_xe a, a_ye a).
Definition touches (a : arc) (p : Z * Z) : Prop := a_s a = p \/ a_e a = p.

(** The number of arcs not directed yet. *)
Definition undirected (w : list arc) : nat :=
  length (filter (fun a => a_directed a <> 1) w).

(** [a'] has the end points of [a], possibly swapped. *)
Definition same_ends (a a' : arc) : Prop :=
  (a_s a' = a_s a /\ a_e a' = a_e a) \/ (a_s a' = a_e a /\ a_e a' = a_s a).

(** What every step of the traversal keeps: the length of both lists, the
    index and the place of every node, the end points of every arc up to a
    swap, and every arc that is already directed. *)
Definition steady (st st' : state) : Prop :=
  length st'.1 = length st.1 /\ length st'.2 = length st.2 /\
  (forall j n, st.1 !! j = Some n ->
     exists n', st'.1 !! j = Some n' /\ n_index n' = n_index n /\ xy n' = xy n) /\
  (forall i a, st.2 !! i = Some a ->
     exists a', st'.2 !! i = Some a' /\ (a_directed a = 1 -> a' = a) /\ same_ends a a').

(** The index of every node is its position in the list. *)
Definition indexed (nodes : list node) : Prop :=
  forall j n, nodes !! j = Some n -> n_index n = Z.of_nat j.

(** The end points of a segment and the coordinates of a point. *)
Definition seg_s (s : Z * Z * Z * Z) : Z * Z := (s.1.1.1, s.1.1.2).
Definition seg_e (s : Z * Z * Z * Z) : Z * Z := (s.1.2, s.2).
Definition point_xy (p : Z * Z * Z) : Z * Z := (p.1.1, p.1.2).

(** Two points are linked when a segment joins them, and joined when a
    chain of segments does. *)
Definition linked (segs : list (Z * Z * Z * Z)) (p q : Z * Z) : Prop :=
  exists s, s ∈ segs /\ ((seg_s s = p /\ seg_e s = q) \/ (seg_s s = q /\ seg_e s = p)).
Definition joined (segs : list (Z * Z * Z * Z)) : Z * Z -> Z * Z -> Prop :=
  rtc (linked segs).

(** A set of points closed under the arcs. *)
Definition closed_under (R : Z * Z -> Prop) (w : list arc) : Prop :=
  forall i a, w !! i = Some a -> R (a_s a) <-> R (a_e a).

(** ** What the traversal has done so far *)

(** The arc at position [i] is directed and ends at the node of index [c]. *)
Definition directed_to (w : list arc) (i : nat) (c : Z) : Prop :=
  exists a, w !! i = Some a /\ a_directed a = 1 /\ a_end a = c.

(** A node is visited when it is node 0 or the end of a directed arc. *)
Definition visited (w : list arc) (c : Z) : Prop :=
  c = 0 \/ exists i, directed_to w i c.

(** A node reached twice: node 0 at the end of an arc, or two arcs with
    the same end. *)
Definition twice (w : list arc) : Prop :=
  (exists i, directed_to w i 0) \/
  (exists i i' c, i <> i' /\ directed_to w i c /\ directed_to w i' c).

(** The two nodes of a directed arc are the nodes at its end points. *)
Definition located (st : state) (a : arc) : Prop :=
  exists p c np nc,
    a_start a = Z.of_nat p /\ a_end a = Z.of_nat c /\
    st.1 !! p = Some np /\ xy np = a_s a /\ st.1 !! c = Some nc /\ xy nc = a_e a.

(** The distances of the node at the end of a directed arc. *)
Definition measured (st : state) (a : arc) : Prop :=
  exists p c np nc,
    a_start a = Z.of_nat p /\ a_end a = Z.of_nat c /\
    st.1 !! p = Some np /\ st.1 !! c = Some nc /\
    n_marg nc = a_length a /\ n_tot nc = (n_tot np + a_length a)%Q.

(** Every directed arc starts at a visited node, lies between its two
    nodes, and gives its end node its distances unless a node was reached
    twice. *)
Definition tracked (st : state) : Prop :=
  forall i a, st.2 !! i = Some a -> a_directed a = 1 ->
    visited st.2 (a_start a) /\ located st a /\ (measured st a \/ twice st.2).

(** Every end point of an arc is the place of a node. *)
Definition anchored (st : state) : Prop :=
  forall i a p, st.2 !! i = Some a -> touches a p ->
    exists j n, st.1 !! j = Some n /\ xy n = p.

(** Every arc at the node of position [c] is directed. *)
Definition closed_at (st : state) (c : nat) : Prop :=
  forall n i a, st.1 !! c = Some n -> st.2 !! i = Some a -> touches a (xy n) ->
    a_directed a = 1.

(** Every directed arc ends at a node that is closed, or still on the
    stack [P] of the nodes being visited. *)
Definition settled (P : list nat) (st : state) : Prop :=
  forall i a, st.2 !! i = Some a -> a_directed a = 1 ->
    exists c, a_end a = Z.of_nat c /\ (c ∈ P \/ closed_at st c).

(** The segments form a spanning tree of the points, rooted at the first
    one: the points are at distinct places, every segment joins two of
    them, there is one segment less than there are points, and a chain of
    segments joins the first point to every point. *)
Definition spanning_tree (points : list (Z * Z * Z)) (segs : list (Z * Z * Z * Z)) : Prop :=
  NoDup (point_xy <$> points) /\
  length points = S (length segs) /\
  (forall s, s ∈ segs -> seg_s s ∈ (point_xy <$> points) /\ seg_e s ∈ (point_xy <$> points)) /\
  exists p0, points !! 0%nat = Some p0 /\
    forall p, p ∈ points -> joined segs (point_xy p0) (point_xy p).

(** What one iteration of [for arc in network] does before any recursive
    call: nothing, the claim of an arc whose end point is no node, or the
    claim of an arc followed by the visit of the node [c] at its end. *)
Inductive action : Type :=
  | Skip
  | Leaf (st1 : state)
  | Child (st1 : state) (c : Z).

Section Runs.

Variable max_tot_length : Q.

Definition claimed_arc (nd nj : node) (a : arc) : arc :=
  let a2 := set_end (n_index nj) (set_directed 1 (set_start (n_index nd) a)) in
  if Qlt_le_dec max_tot_length (n_tot nd + a_length a2)%Q then set_enabled 0 a2 else a2.

Definition claimed_node (nd nj : node) (a : arc) : node :=
  set_tot (n_tot nd + a_length a)%Q (set_marg (a_length a) nj).

Definition claim_action (st : state) (nd : node) (i : nat) (a : arc) : action :=
  match list_find (at_end a) st.1 with
  | None => Leaf (st.1, <[i := set_directed 1 (set_start (n_index nd) a)]> st.2)
  | Some (j, nj) =>
      Child (<[j := claimed_node nd nj a]> st.1, <[i := claimed_arc nd nj a]> st.2)
            (n_index nj)
  end.

Definition arc_action (index : Z) (st : state) (i : nat) : outcome action :=
  match st.2 !! i with
  | None => Done Skip
  | Some a =>
      nd ← py_get st.1 index;
      if decide (at_start a nd) then
        if decide (a_directed a = 1) then Done Skip
        else Done (claim_action st nd i a)
      else if decide (at_end a nd) then
        if decide (a_directed a = 1) then Done Skip
        else Done (claim_action st nd i (flip_arc a))
      else Done Skip
  end.

Definition finish (rec : state -> Z -> outcome state) (st : state) (act : action)
  : outcome state :=
  match act with
  | Skip => Done st
  | Leaf st1 => Done st1
  | Child st1 c => rec st1 c
  end.

(** The runs of [direct_network] that return: [Loop index st is st'] is the
    run of the loop over the arcs at the positions [is], at the node
    [index], from [st] to [st']. *)
Inductive Loop : Z -> state -> list nat -> state -> Prop :=
  | Loop_nil index st : Loop index st [] st
  | Loop_skip index st i rest st' :
      arc_action index st i = Done Skip ->
      Loop index st rest st' -> Loop index st (i :: rest) st'
  | Loop_leaf index st i rest st1 st' :
      arc_action index st i = Done (Leaf st1) ->
      Loop index st1 rest st' -> Loop index st (i :: rest) st'
  | Loop_child index st i rest st1 c st2 st' :
      arc_action index st i = Done (Child st1 c) ->
      Loop c st1 (seq 0 (length st1.2)) st2 ->
      Loop index st2 rest st' -> Loop index st (i :: rest) st'.

End Runs.

End Director.

(** ** [run_model]: the optimiser, the connectivity resolver and the report *)

Module Model.

(** The economic parameters after their [float()] and [int()] conversions. *)
Record econ : Type := mk_econ {
  demand : Q;
  tariff : Q;
  gen_cost : Q;
  cost_wire : Q;
  cost_connection : Q;
  opex_ratio : Q;
  years : Z;
  discount_rate : Q
}.

Record results : Type := mk_results {
  r_connected : Z;
  r_gen_size : Z;
  r_length : Z;
  r_capex : Z;
  r_opex : Z;
  r_income : Z;
  r_npv : Z
}.

(** [int(x)] of a float: truncation towards zero. *)
Definition py_int (q : Q) : Z := Z.quot (Qnum q) (Z.pos (Qden q)).

Definition Qgt_bool (x y : Q) : bool := negb (Qle_bool x y).

(** [np.ones(n)]: a negative dimension is refused. *)
Definition np_ones (n : Z) : outcome (list Q) :=
  if decide (n < 0) then Raise ValueError else Done (replicate (Z.to_nat n) 1%Q).

(** The value of a float: a rational, or what a division by zero gives in
    numpy, an infinity or nan. *)
Inductive npfloat : Type :=
  | Finite (q : Q)
  | PInf
  | NInf
  | NaN.

(** [v / d] on float64 arrays: a division by zero warns and gives [inf],
    [-inf] or [nan] by the sign of [v]. *)
Definition fdiv (v d : Q) : npfloat :=
  if Qeq_bool d 0 then
    if Qgt_bool v 0 then PInf else if Qgt_bool 0 v then NInf else NaN
  else Finite (v / d).

Definition fadd (x y : npfloat) : npfloat :=
  match x, y with
  | NaN, _ | _, NaN => NaN
  | PInf, NInf | NInf, PInf => NaN
  | PInf, _ | _, PInf => PInf
  | NInf, _ | _, NInf => NInf
  | Finite a, Finite b => Finite (a + b)
  end.

Definition fsum (l : list npfloat) : npfloat := foldr fadd (Finite 0) l.

(** [x > y]: false as soon as one side is nan. *)
Definition fgt (x y : npfloat) : bool :=
  match x, y with
  | NaN, _ | _, NaN => false
  | PInf, PInf => false
  | PInf, _ => true
  | NInf, _ => false
  | Finite _, PInf => false
  | Finite _, NInf => true
  | Finite a, Finite b => Qgt_bool a b
  end.

(** [int(x)] of a float: an infinity raises OverflowError, nan ValueError. *)
Definition float_int (x : npfloat) : outcome Z :=
  match x with
  | Finite q => Done (py_int q)
  | PInf | NInf => Raise OverflowError
  | NaN => Raise ValueError
  end.

(** [np.npv(rate, values)], as numpy defines it:
    [(values / (1 + rate) ** np.arange(0, len(values))).sum()]. *)
Definition np_npv (rate : Q) (values : list Q) : npfloat :=
  fsum (zip_with (fun v t => fdiv v ((1 + rate) ^ Z.of_nat t)) values
                 (seq 0 (length values))).

(** The arcs [[network[arc_index] for arc_index in idxs]], as positions in
    [network]. *)
Fixpoint arcs_at (network : list arc) (idxs : list Z) : outcome (list nat) :=
  match idxs with
  | [] => Done []
  | i :: rest =>
      match py_pos (length network) i with
      | Some k => ks ← arcs_at network rest; mret (k :: ks)
      | None => Raise IndexError
      end
  end.

Section RunModel.

Variable e : econ.

Definition num_people_per_m2 : Q := 15 # 100.
Definition demand_per_person_kw_peak : Q := demand e / (4 * 30).

(** [gen_size_kw] and [cost_gen] as computed once, before the optimisation. *)
Definition initial_gen_size_kw (nodes : list node) : Q :=
  inject_Z (foldr Z.add 0 (map n_area nodes)) * num_people_per_m2 * demand_per_person_kw_peak.
Definition initial_cost_gen (nodes : list node) : Q := initial_gen_size_kw nodes * gen_cost e.

Definition node_income (n : node) : Q :=
  inject_Z (n_area n) * num_people_per_m2 * demand e * tariff e.

(** The value [(cost, income_per_month, nodes, network)] that
    [calculate_profit] returns and takes back from its recursive calls. *)
Definition profit : Type := Q * Q * list node * list arc.

Fixpoint calculate_profit (depth : nat) (nodes : list node) (network : list arc)
    (index disabled_arc_index : Z) (cost income_per_month : Q) : outcome profit :=
  match depth with
  | O => Timeout
  | S d =>
      nd ← py_get nodes index;
      let cost := (cost + (cost_wire e * n_marg nd + cost_connection e))%Q in
      let income_per_month := (income_per_month + node_income nd)%Q in
      connected_arcs ← arcs_at network (n_arcs nd);
      for_each (fun (acc : profit) k =>
                  let '(cost, income_per_month, nodes, network) := acc in
                  match network !! k with
                  | None => Raise IndexError
                  | Some a =>
                      if decide (a_enabled a = 1 /\ a_index a <> disabled_arc_index
                                 /\ a_start a = index)
                      then calculate_profit d nodes network (a_end a) disabled_arc_index
                                            cost income_per_month
                      else Done acc
                  end)
               (cost, income_per_month, nodes, network) connected_arcs
  end.

(** The cash flows [np.ones(years) * (income - opex)] with [flows[0] = -capex],
    and their net present value. *)
Definition cash_flows (capex opex income : Q) : outcome (list Q) :=
  ones ← np_ones (years e);
  py_alter (fun _ => (- capex)%Q) (map (fun o => o * (income - opex))%Q ones) 0.

Definition npv_of (capex income_per_month : Q) : outcome npfloat :=
  let opex := (opex_ratio e * capex)%Q in
  let income := (income_per_month * 12)%Q in
  flows ← cash_flows capex opex income;
  mret (np_npv (discount_rate e) flows).

(** The net present value of the network with the arc of index
    [disabled_arc_index] treated as if disabled: the body of the
    optimiser's [for arc in network] up to [npv]. *)
Definition candidate_npv (depth : nat) (cost_gen : Q) (nodes : list node)
    (network : list arc) (disabled_arc_index : Z)
  : outcome (npfloat * list node * list arc) :=
  '(cost, income_per_month, nodes, network) ←
     calculate_profit depth nodes network 0 disabled_arc_index 0 0;
  npv ← npv_of (cost_gen + cost) income_per_month;
  mret (npv, nodes, network).

(** The state of one scan [for arc in network] of the optimiser:
    [(best_npv, selection, nodes, network)].  The selection is [None] while
    [found] is false and [Some best_npv_index] once it is true:
    [best_npv_index] is read only under [if found], and both are assigned
    together. *)
Definition scan : Type := npfloat * option Z * list node * list arc.

(** One iteration of the scan of the mode that maximises the NPV. *)
Definition npv_scan_step (depth : nat) (cost_gen : Q) (acc : scan) (i : nat)
  : outcome scan :=
  let '(best_npv, sel, nodes, network) := acc in
  match network !! i with
  | None => Done acc
  | Some a =>
      '(npv, nodes, network) ← candidate_npv depth cost_gen nodes network (a_index a);
      if fgt npv best_npv
      then Done (npv, Some (a_index a), nodes, network)
      else Done (best_npv, sel, nodes, network)
  end.

(** One iteration of the scan of the coverage mode. *)
Definition coverage_scan_step (depth : nat) (cost_gen : Q) (acc : scan) (i : nat)
  : outcome scan :=
  let '(best_npv, sel, nodes, network) := acc in
  match network !! i with
  | None => Done acc
  | Some a =>
      '(npv, nodes, network) ← candidate_npv depth cost_gen nodes network (a_index a);
      if fgt npv best_npv && bool_decide (a_enabled a = 1)
      then Done (npv, Some (a_index a), nodes, network)
      else Done (best_npv, sel, nodes, network)
  end.

Definition npv_round (depth : nat) (cost_gen : Q) (best_npv : npfloat)
    (nodes : list node) (network : list arc) : outcome scan :=
  for_each (npv_scan_step depth cost_gen) (best_npv, None, nodes, network)
           (seq 0 (length network)).

Definition coverage_round (depth : nat) (cost_gen : Q)
    (nodes : list node) (network : list arc) : outcome scan :=
  for_each (coverage_scan_step depth cost_gen) (Finite (-9999999), None, nodes, network)
           (seq 0 (length network)).

(** [network[best_npv_index][9] = 0] *)
Definition disable (network : list arc) (index : Z) : outcome (list arc) :=
  py_alter (set_enabled 0) network index.

(** The [while True] of the mode that maximises the NPV; [best_npv] lives
    across the rounds. *)
Fixpoint npv_loop (fuel depth : nat) (cost_gen : Q) (best_npv : npfloat)
    (nodes : list node) (network : list arc) : outcome state :=
  match fuel with
  | O => Timeout
  | S f =>
      '(best_npv, sel, nodes, network) ← npv_round depth cost_gen best_npv nodes network;
      match sel with
      | Some best_npv_index =>
          network ← disable network best_npv_index;
          npv_loop f depth cost_gen best_npv nodes network
      | None => Done (nodes, network)
      end
  end.

Definition count_enabled (network : list arc) : nat :=
  length (filter (fun a => a_enabled a = 1) network).

(** [len([arc for arc in network if arc[9] == 1]) / total_arcs] *)
Definition coverage (network : list arc) (total_arcs : nat) : outcome Q :=
  if decide (total_arcs = 0%nat) then Raise ZeroDivisionError
  else Done (inject_Z (Z.of_nat (count_enabled network)) / inject_Z (Z.of_nat total_arcs))%Q.

(** The [while True] of the coverage mode. *)
Fixpoint coverage_loop (fuel depth : nat) (cost_gen : Q) (total_arcs : nat)
    (target_coverage : Q) (nodes : list node) (network : list arc) : outcome state :=
  match fuel with
  | O => Timeout
  | S f =>
      '(_, sel, nodes, network) ← coverage_round depth cost_gen nodes network;
      network ← match sel with
                | Some best_npv_index => disable network best_npv_index
                | None => Done network
                end;
      actual_coverage ← coverage network total_arcs;
      if Qle_bool actual_coverage target_coverage then Done (nodes, network)
      else coverage_loop f depth cost_gen total_arcs target_coverage nodes network
  end.

(** [connect_houses]: only [nodes] is written. *)
Fixpoint connect_houses (depth : nat) (nodes : list node) (network : list arc)
    (index : Z) : outcome (list node) :=
  match depth with
  | O => Timeout
  | S d =>
      nodes ← py_alter (set_connected 1) nodes index;
      nd ← py_get nodes index;
      connected_arcs ← arcs_at network (n_arcs nd);
      for_each (fun nodes k =>
                  match network !! k with
                  | None => Raise IndexError
                  | Some a =>
                      if decide (a_enabled a = 1 /\ a_start a = index)
                      then connect_houses d nodes network (a_end a)
                      else Done nodes
                  end)
               nodes connected_arcs
  end.

(** The pass over the stranded arcs: every arc referenced by a node that is
    not connected is disabled. *)
Definition disable_stranded_step (nodes : list node) (network : list arc) (j : nat)
  : outcome (list arc) :=
  match nodes !! j with
  | None => Done network
  | Some nd =>
      if decide (n_connected nd = 0) then
        connected_arcs ← arcs_at network (n_arcs nd);
        Done (foldl (fun network k => alter (set_enabled 0) k network) network connected_arcs)
      else Done network
  end.

Definition disable_stranded (nodes : list node) (network : list arc) : outcome (list arc) :=
  for_each (disable_stranded_step nodes) network (seq 0 (length nodes)).

(** The connectivity resolver: [connect_houses] from node 0, then the pass
    over the stranded arcs. *)
Definition resolve (depth : nat) (st : state) : outcome state :=
  nodes ← connect_houses depth st.1 st.2 0;
  network ← disable_stranded nodes st.2;
  mret (nodes, network).

(** The three sums of the report over the nodes with [node[6] == 1]. *)
Definition report_step (acc : Z * Q * Q) (nd : node) : Z * Q * Q :=
  let '(count_nodes, income_per_month, gen_size_kw) := acc in
  if decide (n_connected nd = 1) then
    (count_nodes + 1, (income_per_month + node_income nd)%Q,
     (gen_size_kw + inject_Z (n_area nd) * num_people_per_m2 * demand_per_person_kw_peak)%Q)
  else acc.

Definition total_length_step (total_length : Q) (a : arc) : Q :=
  if decide (a_enabled a = 1) then (total_length + a_length a)%Q else total_length.

(** The figures of the report before their truncation by [int()]:
    [(count_nodes, gen_size_kw, total_length, capex, opex, income, npv)]. *)
Record figures : Type := mk_figures {
  f_count_nodes : Z;
  f_income_per_month : Q;
  f_gen_size_kw : Q;
  f_total_length : Q;
  f_capex : Q;
  f_opex : Q;
  f_income : Q;
  f_npv : npfloat
}.

Definition report_figures (st : state) : outcome figures :=
  let '(count_nodes, income_per_month, gen_size_kw) := foldl report_step (0, 0%Q, 0%Q) st.1 in
  let count_nodes := count_nodes - 1 in
  let total_length := foldl total_length_step 0%Q st.2 in
  let capex := (gen_size_kw * gen_cost e + cost_connection e * inject_Z count_nodes
                + cost_wire e * total_length)%Q in
  let opex := (opex_ratio e * capex)%Q in
  let income := (income_per_month * 12)%Q in
  npv ← npv_of capex income_per_month;
  mret (mk_figures count_nodes income_per_month gen_size_kw total_length capex opex income npv).

(** The dictionary [results]: its values are computed in the order they are
    written, and only [int(npv)] can raise. *)
Definition report (f : figures) : outcome results :=
  npv ← float_int (f_npv f);
  mret (mk_results (f_count_nodes f) (py_int (f_gen_size_kw f)) (py_int (f_total_length f))
                   (py_int (f_capex f)) (py_int (f_opex f)) (py_int (f_income f)) npv).

(** The pruning loop of [run_model], in either mode. *)
Definition optimise (fuel depth : nat) (target_coverage : Q) (st : state) : outcome state :=
  let cost_gen := initial_cost_gen st.1 in
  if Qeq_bool target_coverage (-1) then
    npv_loop fuel depth cost_gen (Finite (-9999999)) st.1 st.2
  else
    coverage_loop fuel depth cost_gen (length st.2) target_coverage st.1 st.2.

(** [run_model]; it returns [(results, network, nodes)]. *)
Definition run_model (fuel depth : nat) (network : list arc) (nodes : list node)
    (target_coverage : Q) : outcome (results * list arc * list node) :=
  st ← optimise fuel depth target_coverage (nodes, network);
  st ← resolve depth st;
  f ← report_figures st;
  res ← report f;
  mret (res, st.2, st.1).

End RunModel.
End Model.

(** ** The discounted cash flow of the specification *)

Module Spec.

(** [dcf_sum flow rate t n] is the sum of [flow s / (1 + rate) ^ s] for
    [s = t, ..., t + n - 1]. *)
Fixpoint dcf_sum (flow : nat -> Q) (rate : Q) (t n : nat) : Q :=
  match n with
  | O => 0
  | S k => flow t / (1 + rate) ^ Z.of_nat t + dcf_sum flow rate (S t) k
  end%Q.

(** The flow of year 0 is [- capex]; that of every later year is
    [income - opex]. *)
Definition flow (capex income opex : Q) (t : nat) : Q :=
  match t with
  | O => - capex
  | S _ => income - opex
  end%Q.

Definition npv (capex income opex rate : Q) (years : Z) : Q :=
  dcf_sum (flow capex income opex) rate 0 (Z.to_nat years).

(** ** Reachability and the connected nodes *)

(** [reaches nodes network index j]: the node at position [j] is met when
    following, from [nodes[index]], the enabled arcs that the nodes list
    and that start at the node they are listed by. *)
Inductive reaches (nodes : list node) (network : list arc) : Z -> nat -> Prop :=
  | reaches_here index j :
      py_pos (length nodes) index = Some j -> reaches nodes network index j
  | reaches_step index p nd i k a j :
      py_pos (length nodes) index = Some p -> nodes !! p = Some nd ->
      i ∈ n_arcs nd -> py_pos (length network) i = Some k -> network !! k = Some a ->
      a_enabled a = 1 -> a_start a = index ->
      reaches nodes network (a_end a) j ->
      reaches nodes network index j.

(** [reachable network j]: the node of index [j] is reachable from the
    root, node 0, through enabled arcs of the network, each followed from
    its start to its end. *)
Inductive reachable (network : list arc) : Z -> Prop :=
  | reachable_root : reachable network 0
  | reachable_arc a :
      a ∈ network -> a_enabled a = 1 ->
      reachable network (a_start a) -> reachable network (a_end a).

Definition connected_at (nodes : list node) (j : nat) : Prop :=
  exists nd, nodes !! j = Some nd /\ n_connected nd = 1.

(** The nodes of the report: those with [node[6] == 1]. *)
Definition flagged (nodes : list node) : list node :=
  filter (fun n => n_connected n = 1) nodes.

End Spec.

(** ** A village of two buildings *)

Module Village.
Import Director Model.

(** An instance of [math.sqrt], exact on the squares used below. *)
Definition isqrt (z : Z) : Q := inject_Z (Z.sqrt z).

(** The generator at the origin, a building of 100 m2 at 3 m of it and one
    of 50 m2 at 4 m of the first; the first segment points to the
    generator. *)
Definition points : list (Z * Z * Z) := [(0, 0, 0); (3, 0, 100); (3, 4, 50)].
Definition segments : list (Z * Z * Z * Z) := [(3, 0, 0, 0); (3, 0, 3, 4)].

(** What [create_network] returns for them with a reach of 1000 m. *)
Definition nodes : list node :=
  [ mk_node 0 0 0 0 0 0 0 [0];
    mk_node 1 3 0 100 3 3 0 [0; 1];
    mk_node 2 3 4 50 4 7 0 [1] ].
Definition network : list arc :=
  [ mk_arc 0 0 0 3 0 0 1 1 3 1;
    mk_arc 1 3 0 3 4 1 2 1 4 1 ].

(** With a reach of 4 m the second arc is disabled beforehand. *)
Definition short_network : list arc :=
  [ mk_arc 0 0 0 3 0 0 1 1 3 1;
    mk_arc 1 3 0 3 4 1 2 1 4 0 ].

(** Demand 10 kWh per person and month at 0.5 USD/kWh, a generator at
    1000 USD/kW, wire at 5 USD/m, 100 USD a connection, an OPEX of 3%, ten
    years at 8%. *)
Definition fair : econ := mk_econ 10 (1 # 2) 1000 5 100 (3 # 100) 10 (8 # 100).

(** The same with a connection at 100 000 000 USD. *)
Definition dear : econ := mk_econ 10 (1 # 2) 1000 5 100000000 (3 # 100) 10 (8 # 100).

End Village.

(** ** A hundred points, two of them apart *)

Module Scattered.

(** The generator, 97 buildings in a row from it, each joined to the one
    before, and two buildings joined to each other only. *)
Definition points : list (Z * Z * Z) :=
  (0, 0, 0) :: map (fun k => (Z.of_nat k, 0, 40)) (seq 1 97)
  ++ [(500, 500, 40); (500, 510, 40)].
Definition segments : list (Z * Z * Z * Z) :=
  map (fun k => (Z.of_nat k, 0, Z.of_nat (S k), 0)) (seq 0 97) ++ [(500, 500, 500, 510)].


End Scattered.

(** ** Relations between the states of a run *)

Module Rel.
Import Spec.

(** [marks nodes nodes']: [nodes'] is [nodes] with some connected flags set. *)
Definition marks (nodes nodes' : list node) : Prop :=
  length nodes' = length nodes /\
  forall j n, nodes !! j = Some n ->
    exists n', nodes' !! j = Some n' /\ (n' = n \/ n' = set_connected 1 n).

Definition same_arcs (nodes nodesA : list node) : Prop :=
  length nodesA = length nodes /\
  forall j n nA, nodes !! j = Some n -> nodesA !! j = Some nA -> n_arcs nA = n_arcs n.


(** [sub_enabled wA w]: [wA] is [w] with some arcs disabled. *)
Definition sub_enabled (wA w : list arc) : Prop :=
  length wA = length w /\
  forall k a, w !! k = Some a ->
    exists a', wA !! k = Some a' /\ a_start a' = a_start a /\ a_end a' = a_end a /\
               (a_enabled a' = 1 -> a_enabled a = 1).

(** [off w k]: the arc at position [k], if any, is disabled. *)
Definition off (w : list arc) (k : nat) : Prop :=
  forall a, w !! k = Some a -> a_enabled a = 0.

(** [shrinks w w']: [w'] is [w] with some arcs disabled. *)
Definition shrinks (w w' : list arc) : Prop :=
  length w' = length w /\
  forall k a, w !! k = Some a ->
    exists a', w' !! k = Some a' /\ (a' = a \/ a' = set_enabled 0 a).

Definition flag_at (nodes : list node) (j : nat) : Prop :=
  n_connected <$> nodes !! j = Some 1.

#[global] Instance flag_at_dec nodes j : Decision (flag_at nodes j).
Proof. unfold flag_at. apply _. Defined.


End Rel.

(** ** What the director keeps, checks and lists *)

Module Shape.
Import Director.

(** What [direct_network] keeps of a node: all but its two distances. *)
Definition kept_node (n n' : node) : Prop :=
  n_index n' = n_index n /\ n_x n' = n_x n /\ n_y n' = n_y n /\ n_area n' = n_area n /\
  n_connected n' = n_connected n /\ n_arcs n' = n_arcs n.

(** What it keeps of an arc: its index and length, its end points up to a
    swap, a directed flag once set and an enabled flag once cleared. *)
Definition kept_arc (a a' : arc) : Prop :=
  a_index a' = a_index a /\ a_length a' = a_length a /\ same_ends a a' /\
  (a_enabled a' = a_enabled a \/ a_enabled a' = 0) /\
  (a_directed a' = a_directed a \/ a_directed a' = 1).

Definition kept (st st' : state) : Prop :=
  length st'.1 = length st.1 /\ length st'.2 = length st.2 /\
  (forall j n, st.1 !! j = Some n -> exists n', st'.1 !! j = Some n' /\ kept_node n n') /\
  (forall i a, st.2 !! i = Some a -> exists a', st'.2 !! i = Some a' /\ kept_arc a a').

(** The enabled flag of a directed arc tells whether the total distance of
    the node at its end is within the reach [max]. *)
Definition pruned (max : Q) (st : state) (a : arc) : Prop :=
  exists c nc, a_end a = Z.of_nat c /\ st.1 !! c = Some nc /\
    a_enabled a = (if Qlt_le_dec max (n_tot nc) then 0 else 1).

(** Every arc not directed yet is enabled, every directed arc is pruned
    unless a node was reached twice, and a node that is the end of no
    directed arc still has the distances 0 it was built with. *)
Definition checked (max : Q) (st : state) : Prop :=
  (forall i a, st.2 !! i = Some a -> a_directed a <> 1 -> a_enabled a = 1) /\
  (forall i a, st.2 !! i = Some a -> a_directed a = 1 -> pruned max st a \/ twice st.2) /\
  (forall j n, st.1 !! j = Some n ->
     (n_marg n = 0%Q /\ n_tot n = 0%Q) \/ exists i, directed_to st.2 i (Z.of_nat j)).

(** A node with the arc indices [l] appended to its list. *)
Definition with_arcs (l : list Z) (n : node) : node :=
  mk_node (n_index n) (n_x n) (n_y n) (n_area n) (n_marg n) (n_tot n) (n_connected n)
          (n_arcs n ++ l).

(** The indices that the reference pass appends to the node at position
    [j] of a list of [len] nodes: for every arc in turn, its index if its
    start is that node, then its index if its end is. *)
Definition refs (len : nat) (j : nat) (network : list arc) : list Z :=
  network ≫= (fun a =>
    (if decide (py_pos len (a_start a) = Some j) then [a_index a] else []) ++
    (if decide (py_pos len (a_end a) = Some j) then [a_index a] else [])).

(** Both node indices of an arc are positions of a list of [len] nodes. *)
Definition in_range (len : nat) (a : arc) : Prop :=
  is_Some (py_pos len (a_start a)) /\ is_Some (py_pos len (a_end a)).

(** A rank of the nodes that grows along every directed arc: node 0 has
    rank 0, and the rank of the end of a directed arc is above the rank of
    its start and at most the number of directed arcs. *)
Definition ranked (st : state) (rank : nat -> nat) : Prop :=
  rank 0%nat = 0%nat /\
  forall i a p c, st.2 !! i = Some a -> a_directed a = 1 ->
    a_start a = Z.of_nat p -> a_end a = Z.of_nat c ->
    (rank p < rank c)%nat /\ (rank c + undirected st.2 <= length st.2)%nat.

(** The arc lists of the nodes hold positions of the network. *)
Definition listed (nodes : list node) (network : list arc) : Prop :=
  forall j nd v, nodes !! j = Some nd -> v ∈ n_arcs nd ->
    exists i, v = Z.of_nat i /\ (i < length network)%nat.

(** Nodes and a network as [create_network] hands them to [run_model]: no
    node is marked connected (they are built with the flag 0), both node
    indices of every arc are positions of nodes, and the arc list of a node
    holds exactly the positions of the arcs that start or end at it. *)
Definition built (nodes : list node) (network : list arc) : Prop :=
  (forall nd, nd ∈ nodes -> n_connected nd = 0) /\
  (forall a, a ∈ network ->
     exists p c, a_start a = Z.of_nat p /\ a_end a = Z.of_nat c /\
       (p < length nodes)%nat /\ (c < length nodes)%nat) /\
  (forall j nd, nodes !! j = Some nd ->
     forall v, v ∈ n_arcs nd <->
       exists i a, v = Z.of_nat i /\ network !! i = Some a /\
         (a_start a = Z.of_nat j \/ a_end a = Z.of_nat j)).

(** A network as [create_network] returns it on a tree: every arc carries
    its position as index and a flag 0 or 1, and goes from a node to a node
    of higher rank. *)
Definition rooted (rank : nat -> nat) (nodes : list node) (network : list arc) : Prop :=
  forall i a, network !! i = Some a ->
    a_index a = Z.of_nat i /\ (a_enabled a = 0 \/ a_enabled a = 1) /\
    exists p c, a_start a = Z.of_nat p /\ a_end a = Z.of_nat c /\
      (p < length nodes)%nat /\ (c < length nodes)%nat /\
      (rank p < rank c <= length network)%nat.

End Shape.

(** * Properties *)

(** ** Loops and results *)

Lemma bind_Done {A B : Type} (m : outcome A) (f : A -> outcome B) (b : B) :
  m ≫= f = Done b -> exists a, m = Done a /\ f a = Done b.
Proof. destruct m as [a| |]; simpl; intros H; try discriminate. by exists a. Qed.

(** A property kept by every iteration that returns is kept by the loop. *)
Lemma for_each_invariant {S X : Type} (P : S -> Prop) (body : S -> X -> outcome S)
    (xs : list X) (st st' : S) :
  (forall s x s', x ∈ xs -> P s -> body s x = Done s' -> P s') ->
  P st -> for_each body st xs = Done st' -> P st'.
Proof.
  revert st. induction xs as [|x xs IH]; simpl; intros st Hbody Hst Hrun.
  - by inversion Hrun; subst.
  - apply bind_Done in Hrun as (s1 & H1 & H2).
    apply (IH s1); [| |done].
    + intros s y s' Hy. apply Hbody. by right.
    + eapply Hbody; [|done..]. by left.
Qed.

Lemma for_each_mono {S X : Type} (body1 body2 : S -> X -> outcome S) (xs : list X)
    (st st' : S) :
  (forall s x s', body1 s x = Done s' -> body2 s x = Done s') ->
  for_each body1 st xs = Done st' -> for_each body2 st xs = Done st'.
Proof.
  intros Hbody. revert st. induction xs as [|x xs IH]; simpl; intros st Hrun; [done|].
  apply bind_Done in Hrun as (s1 & H1 & H2).
  rewrite (Hbody _ _ _ H1). simpl. by apply IH.
Qed.

Lemma for_each_visits {S X : Type} (R : S -> S -> Prop) (body : S -> X -> outcome S)
    (xs : list X) (st st' : S) :
  (forall s, R s s) -> (forall s1 s2 s3, R s1 s2 -> R s2 s3 -> R s1 s3) ->
  (forall s x s', body s x = Done s' -> R s s') ->
  for_each body st xs = Done st' ->
  R st st' /\
  forall x, x ∈ xs -> exists s1 s2, R st s1 /\ body s1 x = Done s2 /\ R s2 st'.
Proof.
  intros Hrefl Htrans Hbody. revert st.
  induction xs as [|x xs IH]; simpl; intros st Hrun.
  - inversion Hrun; subst. split; [done|]. by intros x ?%elem_of_nil.
  - apply bind_Done in Hrun as (s1 & H1 & H2).
    destruct (IH s1 H2) as [HR Hall]. pose proof (Hbody _ _ _ H1) as HR1.
    split; [by eapply Htrans|].
    intros y Hy. apply elem_of_cons in Hy as [->|Hy].
    + exists st, s1. by repeat split.
    + destruct (Hall y Hy) as (s2 & s3 & Hs2 & Hb & Hs3).
      exists s2, s3. repeat split; try done. by eapply Htrans.
Qed.


Lemma for_each_fixed {S X : Type} (body : S -> X -> outcome S) (xs : list X) (st : S) :
  (forall x, x ∈ xs -> body st x = Done st) -> for_each body st xs = Done st.
Proof.
  induction xs as [|x xs IH]; intros H; simpl; [done|].
  rewrite (H x) by (by left). simpl. apply IH. intros y Hy. apply H. by right.
Qed.

Lemma filter_ext_elem {A : Type} (P1 P2 : A -> Prop)
    `{!forall x, Decision (P1 x), !forall x, Decision (P2 x)} (l : list A) :
  (forall x, x ∈ l -> P1 x <-> P2 x) -> filter P1 l = filter P2 l.
Proof.
  induction l as [|x l IH]; intros Hext; [done|].
  rewrite !filter_cons. rewrite IH by (intros y Hy; apply Hext; by right).
  destruct (decide (P1 x)) as [H1|H1], (decide (P2 x)) as [H2|H2]; try done.
  - destruct H2. apply (Hext x); [by left|done].
  - destruct H1. apply (Hext x); [by left|done].
Qed.

Module ModelFacts.
Import Model Spec Rel.

Section Evaluator.

Variable e : econ.

(** ** [calculate_profit] writes nothing *)

(** The lists that [calculate_profit] returns are those it was given. *)
Lemma calculate_profit_reads_only (depth : nat) (nodes : list node) (network : list arc)
    (index disabled_arc_index : Z) (cost income_per_month : Q)
    (cost' income' : Q) (nodes' : list node) (network' : list arc) :
  calculate_profit e depth nodes network index disabled_arc_index cost income_per_month
    = Done (cost', income', nodes', network') ->
  nodes' = nodes /\ network' = network.
Proof.
  revert nodes network index cost income_per_month cost' income' nodes' network'.
  induction depth as [|d IH]; intros nodes network index cost inc c' i' nodes' network' Hrun.
  - discriminate.
  - simpl in Hrun.
    apply bind_Done in Hrun as (nd & _ & Hrun).
    apply bind_Done in Hrun as (ks & _ & Hrun).
    pose (P := fun acc : profit => acc.1.2 = nodes /\ acc.2 = network).
    enough (P (c', i', nodes', network')) as HP by exact HP.
    eapply for_each_invariant; [|shelve|exact Hrun].
    + intros [[[c1 i1] n1] w1] k [[[c2 i2] n2] w2] _ [Hn Hw] Hbody.
      simpl in Hn, Hw. subst n1 w1.
      destruct (network !! k) as [a|]; [|discriminate].
      destruct (decide _).
      * apply IH in Hbody. exact Hbody.
      * by inversion Hbody; subst.
    Unshelve. by split.
Qed.

(** C7.  Whatever the starting node, the arc treated as disabled and the two
    accumulators, the [nodes] and [network] that [calculate_profit] returns
    are the lists it was given: no field of a node or of an arc (its enabled
    flag included) differs after the call. *)
Theorem calculate_profit_frame (depth : nat) (nodes : list node) (network : list arc)
    (index disabled_arc_index : Z) (cost income_per_month : Q)
    (cost' income' : Q) (nodes' : list node) (network' : list arc) :
  calculate_profit e depth nodes network index disabled_arc_index cost income_per_month
    = Done (cost', income', nodes', network') ->
  nodes' = nodes /\ network' = network.
Proof. apply calculate_profit_reads_only. Qed.

(** ** The net present value is the discounted cash flow *)

Lemma fadd_Finite (x y : npfloat) (v : Q) :
  fadd x y = Finite v -> exists a b, x = Finite a /\ y = Finite b /\ v = (a + b)%Q.
Proof. destruct x, y; simpl; intros H; try discriminate. inversion H. by eexists _, _. Qed.

Lemma fdiv_Finite (v d a : Q) : fdiv v d = Finite a -> ~ (d == 0)%Q /\ a = (v / d)%Q.
Proof.
  unfold fdiv. destruct (Qeq_bool d 0) eqn:Hd.
  - destruct (Qgt_bool v 0); [done|]. by destruct (Qgt_bool 0 v).
  - intros [= <-]. split; [|done]. by apply Qeq_bool_neq.
Qed.

Lemma fdiv_regular (v d : Q) : ~ (d == 0)%Q -> fdiv v d = Finite (v / d).
Proof.
  intros Hd. unfold fdiv. destruct (Qeq_bool d 0) eqn:H; [|done].
  by apply Qeq_bool_iff in H.
Qed.

(** A finite [np.npv] is the discounted sum. *)
Lemma np_npv_from (rate : Q) (values : list Q) (t : nat) (flow : nat -> Q) (x : Q) :
  (forall i v, values !! i = Some v -> v == flow (t + i)%nat)%Q ->
  fsum (zip_with (fun v t => fdiv v ((1 + rate) ^ Z.of_nat t)) values (seq t (length values)))
    = Finite x ->
  (x == Spec.dcf_sum flow rate t (length values))%Q.
Proof.
  revert t x. induction values as [|v vs IH]; intros t x Hv Hx; simpl in Hx |- *.
  - by inversion Hx.
  - apply fadd_Finite in Hx as (a & b & Ha & Hb & ->).
    apply fdiv_Finite in Ha as [_ ->].
    rewrite (IH (S t) b); [| |exact Hb].
    + rewrite (Hv 0%nat v eq_refl). rewrite Nat.add_0_r. reflexivity.
    + intros i w Hi. rewrite (Hv (S i) w Hi). by rewrite Nat.add_succ_r.
Qed.

(** It is finite unless the rate is -1. *)
Lemma np_npv_regular (rate : Q) (values : list Q) (t : nat) :
  ~ (1 + rate == 0)%Q ->
  exists x,
    fsum (zip_with (fun v t => fdiv v ((1 + rate) ^ Z.of_nat t)) values (seq t (length values)))
      = Finite x.
Proof.
  intros Hr. revert t. induction values as [|v vs IH]; intros t; simpl; [by eexists|].
  destruct (IH (S t)) as [x ->].
  rewrite fdiv_regular by (by apply Qpower_not_0). by eexists.
Qed.

Lemma cash_flows_Done (capex opex income : Q) :
  0 < years e ->
  exists flows, cash_flows e capex opex income = Done flows /\
    length flows = Z.to_nat (years e) /\
    forall i v, flows !! i = Some v -> (v == Spec.flow capex income opex i)%Q.
Proof.
  intros Hy. unfold cash_flows, np_ones.
  destruct (decide (years e < 0)) as [?|_]; [lia|]. simpl.
  destruct (Z.to_nat (years e)) as [|k] eqn:Hk; [lia|].
  simpl. eexists; split; [reflexivity|]. split.
  - simpl. by rewrite length_map, length_replicate.
  - intros [|i] v; simpl; intros Hv.
    + by inversion Hv.
    + rewrite list_lookup_fmap in Hv.
      destruct (replicate k 1%Q !! i) as [o|] eqn:Ho; [|discriminate].
      apply lookup_replicate in Ho as [-> _]. inversion Hv; subst. ring.
Qed.

Lemma npv_of_Done (capex income_per_month : Q) :
  0 < years e ->
  exists x, npv_of e capex income_per_month = Done x /\
    match x with
    | Finite v =>
        (v == Spec.npv capex (income_per_month * 12) (opex_ratio e * capex)
                       (discount_rate e) (years e))%Q
    | _ => (1 + discount_rate e == 0)%Q
    end.
Proof.
  intros Hy. unfold npv_of.
  destruct (cash_flows_Done capex (opex_ratio e * capex) (income_per_month * 12) Hy)
    as (flows & -> & Hlen & Hflows).
  simpl. eexists; split; [reflexivity|].
  destruct (np_npv (discount_rate e) flows) as [v| | |] eqn:Hv.
  - unfold np_npv in Hv. unfold Spec.npv. rewrite <- Hlen.
    eapply np_npv_from; [|exact Hv]. intros i w. apply Hflows.
  - destruct (Qeq_dec (1 + discount_rate e) 0) as [H0|H0]; [done|].
    destruct (np_npv_regular (discount_rate e) flows 0 H0) as [x Hx].
    unfold np_npv in Hv. congruence.
  - destruct (Qeq_dec (1 + discount_rate e) 0) as [H0|H0]; [done|].
    destruct (np_npv_regular (discount_rate e) flows 0 H0) as [x Hx].
    unfold np_npv in Hv. congruence.
  - destruct (Qeq_dec (1 + discount_rate e) 0) as [H0|H0]; [done|].
    destruct (np_npv_regular (discount_rate e) flows 0 H0) as [x Hx].
    unfold np_npv in Hv. congruence.
Qed.

Lemma npv_of_regular (capex income_per_month : Q) :
  0 < years e -> ~ (1 + discount_rate e == 0)%Q ->
  exists v, npv_of e capex income_per_month = Done (Finite v).
Proof.
  intros Hy Hr. destruct (npv_of_Done capex income_per_month Hy) as ([v| | |] & -> & H);
    [by exists v|done..].
Qed.

(** C5.  With a horizon of at least one year, the NPV of every candidate of
    the optimiser and the NPV of the final report are the discounted sum of
    the cash flows over [t = 0 .. years - 1], the flow of year 0 being
    [- capex] and that of every later year [income - opex], where [capex] is
    the generator cost plus the wiring and connection cost, [opex] is
    [opex_ratio * capex] and [income] is twelve times the monthly income.
    Only at a discount rate of -1, where the sum divides by zero, can the
    NPV be an infinity or nan instead. *)
Theorem npv_is_discounted_cash_flow (depth : nat) (cost_gen : Q) (nodes : list node)
    (network : list arc) (disabled_arc_index : Z) (cost income_per_month : Q)
    (nodes' : list node) (network' : list arc) (st : state) :
  0 < years e ->
  calculate_profit e depth nodes network 0 disabled_arc_index 0 0
    = Done (cost, income_per_month, nodes', network') ->
  (exists npv,
     candidate_npv e depth cost_gen nodes network disabled_arc_index
       = Done (npv, nodes', network') /\
     match npv with
     | Finite v =>
         (v == Spec.npv (cost_gen + cost) (income_per_month * 12)
                        (opex_ratio e * (cost_gen + cost)) (discount_rate e) (years e))%Q
     | _ => (1 + discount_rate e == 0)%Q
     end) /\
  (exists f,
     report_figures e st = Done f /\
     f_capex f = (f_gen_size_kw f * gen_cost e + cost_connection e * inject_Z (f_count_nodes f)
                  + cost_wire e * f_total_length f)%Q /\
     f_opex f = (opex_ratio e * f_capex f)%Q /\
     f_income f = (f_income_per_month f * 12)%Q /\
     match f_npv f with
     | Finite v =>
         (v == Spec.npv (f_capex f) (f_income f) (f_opex f) (discount_rate e) (years e))%Q
     | _ => (1 + discount_rate e == 0)%Q
     end).
Proof.
  intros Hy Hprofit. split.
  - unfold candidate_npv. rewrite Hprofit. simpl.
    destruct (npv_of_Done (cost_gen + cost) income_per_month Hy) as (v & -> & Hv).
    simpl. by exists v.
  - unfold report_figures.
    destruct (foldl (report_step e) _ _) as [[count inc] gen].
    match goal with |- context [npv_of e ?c ?i] =>
      destruct (npv_of_Done c i Hy) as (v & -> & Hv) end.
    simpl. eexists; split; [reflexivity|]. simpl. by repeat split.
Qed.

End Evaluator.

Lemma calculate_profit_frame_witness :
  exists cost income_per_month,
    calculate_profit Village.fair 3 Village.nodes Village.network 0 1 0 0
      = Done (cost, income_per_month, Village.nodes, Village.network).
Proof.
  destruct (calculate_profit Village.fair 3 Village.nodes Village.network 0 1 0 0)
    as [[[[cost income] nodes'] network']| |] eqn:Hrun; [|vm_compute in Hrun; discriminate..].
  destruct (calculate_profit_frame Village.fair 3 Village.nodes Village.network 0 1 0 0
              cost income nodes' network' Hrun) as [-> ->].
  by exists cost, income.
Defined.

Lemma npv_is_discounted_cash_flow_witness :
  exists npv f,
    candidate_npv Village.fair 3 0 Village.nodes Village.network 1
      = Done (npv, Village.nodes, Village.network) /\
    report_figures Village.fair (Village.nodes, Village.network) = Done f.
Proof.
  edestruct (npv_is_discounted_cash_flow Village.fair 3 0 Village.nodes Village.network 1)
    as [(npv & Hnpv & _) (f & Hf & _)].
  - reflexivity.
  - vm_compute. reflexivity.
  - exists npv, f. split; [exact Hnpv|exact Hf].
Defined.

(** ** More depth never changes a result *)

Section Depth.

Variable e : econ.

Lemma calculate_profit_S (d : nat) nodes network index dis cost inc r :
  calculate_profit e d nodes network index dis cost inc = Done r ->
  calculate_profit e (S d) nodes network index dis cost inc = Done r.
Proof.
  revert nodes network index cost inc r.
  induction d as [|d IH]; intros nodes network index cost inc r Hrun; [discriminate|].
  remember (S d) as d1. rewrite Heqd1 in Hrun. simpl in Hrun |- *. 
  destruct (py_get nodes index) as [nd| |]; simpl in *; try discriminate.
  destruct (arcs_at network (n_arcs nd)) as [ks| |]; simpl in *; try discriminate.
  eapply for_each_mono; [|exact Hrun].
  intros [[[c1 i1] n1] w1] k s'. simpl.
  destruct (w1 !! k) as [a|]; [|done].
  destruct (decide _); [|done]. subst d1. apply IH.
Qed.

Lemma calculate_profit_deeper (d k : nat) nodes network index dis cost inc r :
  calculate_profit e d nodes network index dis cost inc = Done r ->
  calculate_profit e (k + d) nodes network index dis cost inc = Done r.
Proof.
  intros H. induction k as [|k IH]; [done|]. by apply calculate_profit_S.
Qed.

Lemma candidate_npv_deeper (d k : nat) cg nodes network dis r :
  candidate_npv e d cg nodes network dis = Done r ->
  candidate_npv e (k + d) cg nodes network dis = Done r.
Proof.
  unfold candidate_npv. intros H.
  apply bind_Done in H as (p & Hp & H).
  by rewrite (calculate_profit_deeper d k _ _ _ _ _ _ _ Hp).
Qed.

Lemma coverage_round_deeper (d k : nat) cg nodes network r :
  coverage_round e d cg nodes network = Done r ->
  coverage_round e (k + d) cg nodes network = Done r.
Proof.
  unfold coverage_round. apply for_each_mono.
  intros [[[b s] n] w] i s'. unfold coverage_scan_step.
  destruct (w !! i) as [a|]; [|done].
  intros H. apply bind_Done in H as (p & Hp & H).
  by rewrite (candidate_npv_deeper d k _ _ _ _ _ Hp).
Qed.

Lemma npv_round_deeper (d k : nat) cg best nodes network r :
  npv_round e d cg best nodes network = Done r ->
  npv_round e (k + d) cg best nodes network = Done r.
Proof.
  unfold npv_round. apply for_each_mono.
  intros [[[b s] n] w] i s'. unfold npv_scan_step.
  destruct (w !! i) as [a|]; [|done].
  intros H. apply bind_Done in H as (p & Hp & H).
  by rewrite (candidate_npv_deeper d k _ _ _ _ _ Hp).
Qed.
End Depth.

(** ** The optimiser on the village *)

Lemma dear_coverage_round (depth : nat) :
  let cg := initial_cost_gen Village.dear Village.nodes in
  coverage_round Village.dear depth cg Village.nodes Village.network = Timeout \/
  coverage_round Village.dear depth cg Village.nodes Village.network
    = Done (Finite (-9999999), None, Village.nodes, Village.network).
Proof.
  intros cg. destruct (le_lt_dec 2 depth) as [Hd|Hd].
  - right. replace depth with ((depth - 2) + 2)%nat by lia.
    apply coverage_round_deeper. vm_compute. reflexivity.
  - left. destruct depth as [|[|d]]; [vm_compute; reflexivity..|lia].
Qed.

(** C2 (the code at a failing input).  In the coverage mode, with a target
    of one half and a connection at 100 000 000 USD, no candidate of the
    village has an NPV above -9999999: no round disables an arc, the
    coverage stays 1 and the pruning loop never ends, whatever the fuel. *)
Theorem coverage_mode_never_ends (fuel depth : nat) :
  run_model Village.dear fuel depth Village.network Village.nodes (1 # 2) = Timeout.
Proof.
  unfold run_model.
  enough (optimise Village.dear fuel depth (1 # 2) (Village.nodes, Village.network) = Timeout)
    as -> by reflexivity.
  unfold optimise. 
  change (Qeq_bool (1 # 2) (-1)) with false. cbv iota.
  change (length (Village.nodes, Village.network).2) with 2%nat.
  change ((Village.nodes, Village.network).1) with Village.nodes.
  change ((Village.nodes, Village.network).2) with Village.network.
  induction fuel as [|f IH]; [reflexivity|].
  cbn [coverage_loop].
  destruct (dear_coverage_round depth) as [-> | ->]; [reflexivity|].
  cbn [mbind outcome_bind]. 
  change (coverage Village.network 2 ≫= _) with
    (coverage_loop Village.dear f depth (initial_cost_gen Village.dear Village.nodes) 2
       (1 # 2) Village.nodes Village.network).
  exact IH.
Qed.

(** C3 (the code at a failing input).  In the mode that maximises the NPV,
    with a connection at 100 000 000 USD, the first round finds no candidate
    above the initial -9999999 and the loop ends with both arcs of the
    village still enabled. *)
Theorem npv_mode_first_round_commits_nothing (fuel depth : nat) :
  optimise Village.dear (S fuel) (depth + 2) (-1) (Village.nodes, Village.network)
    = Done (Village.nodes, Village.network).
Proof.
  unfold optimise.
  change (Qeq_bool (-1) (-1)) with true. cbv iota.
  change ((Village.nodes, Village.network).1) with Village.nodes.
  change ((Village.nodes, Village.network).2) with Village.network.
  cbn [npv_loop].
  rewrite (npv_round_deeper Village.dear 2 depth _ _ _ _
             (Finite (-9999999), None, Village.nodes, Village.network)).
  - reflexivity.
  - vm_compute. reflexivity.
Qed.

(** C4 (the code at a failing input).  The candidate that removes the arc
    of index 0 leaves the generator alone (no income, one connection), yet
    its NPV is computed with the cost of a generator sized for the 150 m2 of
    all the buildings (1875 USD), not for the population still connected
    (none). *)
Theorem candidate_priced_with_full_generator :
  exists cost income_per_month npv,
    calculate_profit Village.fair 3 Village.nodes Village.network 0 0 0 0
      = Done (cost, income_per_month, Village.nodes, Village.network) /\
    (cost == 100)%Q /\ (income_per_month == 0)%Q /\
    candidate_npv Village.fair 3 (initial_cost_gen Village.fair Village.nodes)
      Village.nodes Village.network 0
      = Done (Finite npv, Village.nodes, Village.network) /\
    (initial_cost_gen Village.fair Village.nodes == 1875)%Q /\
    (npv == Spec.npv (1875 + 100) 0 ((3 # 100) * (1875 + 100)) (8 # 100) 10)%Q /\
    ~ (npv == Spec.npv (0 + 100) 0 ((3 # 100) * (0 + 100)) (8 # 100) 10)%Q.
Proof.
  do 3 eexists.
  split; [vm_compute; reflexivity|].
  split; [vm_compute; reflexivity|].
  split; [vm_compute; reflexivity|].
  split; [vm_compute; reflexivity|].
  split; [vm_compute; reflexivity|].
  split; [vm_compute; reflexivity|].
  vm_compute. discriminate.
Qed.

(** ** The scan of the mode that maximises the NPV *)

Lemma Qgt_bool_true (x y : Q) : Qgt_bool x y = true <-> (y < x)%Q.
Proof.
  unfold Qgt_bool. rewrite negb_true_iff. split.
  - intros H. apply Qnot_le_lt. intros Hle. apply Qle_bool_iff in Hle. congruence.
  - intros H. destruct (Qle_bool x y) eqn:Hb; [|done].
    apply Qle_bool_iff in Hb. exfalso. by apply (Qlt_not_le y x).
Qed.

Lemma Qgt_bool_false (x y : Q) : Qgt_bool x y = false <-> (x <= y)%Q.
Proof.
  unfold Qgt_bool. rewrite negb_false_iff. apply Qle_bool_iff.
Qed.

Lemma fgt_irrefl (x : npfloat) : fgt x x = false.
Proof.
  destruct x as [q| | |]; try done. simpl. apply Qgt_bool_false. apply Qle_refl.
Qed.

Lemma fgt_trans (x y z : npfloat) : fgt x y = true -> fgt y z = true -> fgt x z = true.
Proof.
  destruct x as [a| | |], y as [b| | |], z as [c| | |]; simpl; try done.
  rewrite !Qgt_bool_true. intros H1 H2. by apply Qlt_trans with b.
Qed.

Lemma fgt_asym (x y : npfloat) : fgt x y = true -> fgt y x = false.
Proof.
  destruct x as [a| | |], y as [b| | |]; simpl; try done.
  rewrite Qgt_bool_true, Qgt_bool_false. apply Qlt_le_weak.
Qed.

(** A value that does not exceed the best so far does not exceed a better
    one either. *)
Lemma fgt_false_trans (v b b' : npfloat) :
  fgt v b = false -> fgt b' b = true -> fgt v b' = false.
Proof.
  destruct v as [a| | |], b as [c| | |], b' as [d| | |]; simpl; try done.
  rewrite !Qgt_bool_false, Qgt_bool_true. intros H1 H2.
  apply Qle_trans with c; [done|by apply Qlt_le_weak].
Qed.

Lemma set_enabled_id (a : arc) : a_enabled a = 0 -> set_enabled 0 a = a.
Proof. destruct a; simpl; intros ->; reflexivity. Qed.

Section Scan.

Variable e : econ.

Lemma candidate_npv_frame depth cg nodes network d v nodes' network' :
  candidate_npv e depth cg nodes network d = Done (v, nodes', network') ->
  nodes' = nodes /\ network' = network.
Proof.
  unfold candidate_npv. intros H.
  apply bind_Done in H as ([[[c i] n] w] & Hp & H).
  apply calculate_profit_reads_only in Hp as [-> ->].
  apply bind_Done in H as (x & _ & H). by inversion H.
Qed.

Lemma npv_scan_spec depth cg nodes network (xs : list nat) :
  forall best sel best' sel' nodes' network',
  for_each (npv_scan_step e depth cg) (best, sel, nodes, network) xs
    = Done (best', sel', nodes', network') ->
  nodes' = nodes /\ network' = network /\ (best' = best \/ fgt best' best = true) /\
  (forall i a, i ∈ xs -> network !! i = Some a ->
     exists v, candidate_npv e depth cg nodes network (a_index a) = Done (v, nodes, network)
               /\ fgt v best' = false) /\
  ((sel' = sel /\ best' = best) \/
   exists i a, i ∈ xs /\ network !! i = Some a /\ sel' = Some (a_index a) /\
     candidate_npv e depth cg nodes network (a_index a) = Done (best', nodes, network) /\
     fgt best' best = true).
Proof.
  induction xs as [|x xs IH]; intros best sel best' sel' nodes' network' Hrun.
  - inversion Hrun; subst. repeat split; try done.
    + by left.
    + intros i a Hi. by apply elem_of_nil in Hi.
    + by left.
  - simpl in Hrun. apply bind_Done in Hrun as ([[[b1 s1] n1] w1] & Hstep & Hrun).
    unfold npv_scan_step in Hstep.
    destruct (network !! x) as [a|] eqn:Hx.
    + apply bind_Done in Hstep as ([[v n2] w2] & Hc & Hstep).
      destruct (candidate_npv_frame _ _ _ _ _ _ _ _ Hc) as [-> ->].
      destruct (fgt v best) eqn:Hgt; inversion Hstep; subst; clear Hstep;
        destruct (IH _ _ _ _ _ _ Hrun) as (-> & -> & Hle & Hall & Hsel).
      * assert (fgt best' best = true) as Hup.
        { destruct Hle as [->|Hle]; [done|]. by apply fgt_trans with b1. }
        repeat split; try done.
        -- by right.
        -- intros i a' Hi Ha'. apply elem_of_cons in Hi as [->|Hi]; [|by eapply Hall].
           rewrite Hx in Ha'. inversion Ha'; subst a'. exists b1. split; [done|].
           destruct Hle as [->|Hle]; [apply fgt_irrefl|by apply fgt_asym].
        -- right. destruct Hsel as [[-> ->]|(i & a' & Hi & Ha' & -> & Hc' & Hlt)].
           ++ exists x, a. repeat split; try done. by left.
           ++ exists i, a'. repeat split; try done. by right.
      * repeat split; try done.
        -- intros i a' Hi Ha'. apply elem_of_cons in Hi as [->|Hi]; [|by eapply Hall].
           rewrite Hx in Ha'. inversion Ha'; subst a'. exists v. split; [done|].
           destruct Hle as [->|Hle]; [done|]. by apply fgt_false_trans with b1.
        -- destruct Hsel as [[-> ->]|(i & a' & Hi & Ha' & -> & Hc' & Hlt)]; [by left|].
           right. exists i, a'. repeat split; try done. by right.
    + inversion Hstep; subst.
      destruct (IH _ _ _ _ _ _ Hrun) as (-> & -> & Hle & Hall & Hsel).
      repeat split; try done.
      * intros i a' Hi Ha'. apply elem_of_cons in Hi as [->|Hi]; [congruence|by eapply Hall].
      * destruct Hsel as [[-> ->]|(i & a' & Hi & Ha' & -> & Hc' & Hlt)]; [by left|].
        right. exists i, a'. repeat split; try done. by right.
Qed.

End Scan.



(** ** [connect_houses] marks what node 0 reaches *)

Lemma marks_refl nodes : marks nodes nodes.
Proof. split; [done|]. intros j n Hj. exists n. by split; [|left]. Qed.

Lemma marks_trans n1 n2 n3 : marks n1 n2 -> marks n2 n3 -> marks n1 n3.
Proof.
  intros [L1 H1] [L2 H2]. split; [congruence|].
  intros j n Hj. destruct (H1 j n Hj) as (n' & Hj' & Hn').
  destruct (H2 j n' Hj') as (n'' & Hj'' & Hn''). exists n''. split; [done|].
  destruct Hn' as [->| ->], Hn'' as [->| ->]; auto.
Qed.

Lemma marks_arcs nodes nodes' j n n' :
  marks nodes nodes' -> nodes !! j = Some n -> nodes' !! j = Some n' -> n_arcs n' = n_arcs n.
Proof.
  intros [_ H] Hj Hj'. destruct (H j n Hj) as (m & Hm & [->| ->]); rewrite Hj' in Hm;
    by inversion Hm.
Qed.

Lemma marks_connected nodes nodes' j :
  marks nodes nodes' -> connected_at nodes j -> connected_at nodes' j.
Proof.
  intros [_ H] (n & Hj & Hc). destruct (H j n Hj) as (m & Hm & Hmn).
  exists m. split; [done|]. by destruct Hmn as [->| ->].
Qed.

Lemma marks_lookup_inv nodes nodes' j n' :
  marks nodes nodes' -> nodes' !! j = Some n' ->
  exists n, nodes !! j = Some n /\ (n' = n \/ n' = set_connected 1 n).
Proof.
  intros [L H] Hj'. destruct (nodes !! j) as [n|] eqn:Hj.
  - destruct (H j n Hj) as (m & Hm & Hn). rewrite Hj' in Hm. inversion Hm; subst. by exists n.
  - apply lookup_ge_None in Hj. apply lookup_lt_Some in Hj'. lia.
Qed.

Lemma marks_alter nodes k : marks nodes (alter (set_connected 1) k nodes).
Proof.
  split; [by rewrite length_alter|].
  intros j n Hj. destruct (decide (j = k)) as [->|Hne].
  - exists (set_connected 1 n). rewrite list_lookup_alter_eq, Hj. by split; [|right].
  - exists n. rewrite list_lookup_alter_ne by done. by split; [|left].
Qed.

Lemma py_pos_lt len i k : py_pos len i = Some k -> (k < len)%nat.
Proof. unfold py_pos. repeat case_decide; intros [= <-]; lia. Qed.

Lemma arcs_at_length (w w' : list arc) l : length w = length w' -> arcs_at w l = arcs_at w' l.
Proof. intros H. induction l as [|i l IH]; simpl; [done|]. by rewrite H, IH. Qed.

Lemma arcs_at_elem (w : list arc) l ks k :
  arcs_at w l = Done ks -> (k ∈ ks <-> exists i, i ∈ l /\ py_pos (length w) i = Some k).
Proof.
  revert ks. induction l as [|i l IH]; simpl; intros ks H.
  - inversion H; subst. split; [by intros ?%elem_of_nil|]. by intros (i & ?%elem_of_nil & _).
  - destruct (py_pos (length w) i) as [k0|] eqn:Hi; [|done].
    apply bind_Done in H as (ks0 & Hks0 & H). inversion H; subst.
    rewrite elem_of_cons, (IH ks0 Hks0). split.
    + intros [->|(j & Hj & Hk)]; [exists i; split; [by left|done]|].
      exists j. split; [by right|done].
    + intros (j & Hj & Hk). apply elem_of_cons in Hj as [->|Hj].
      * left. congruence.
      * right. by exists j.
Qed.

Lemma reaches_marks nodes nodes' w index j :
  marks nodes nodes' -> reaches nodes w index j <-> reaches nodes' w index j.
Proof.
  intros Hm. split; intros H.
  - induction H as [index j Hj|index p nd i k a j Hp Hnd Hi Hk Ha He Hs _ IH].
    + apply reaches_here. by rewrite (proj1 Hm).
    + destruct (proj2 Hm p nd Hnd) as (nd' & Hnd' & Hnn).
      eapply reaches_step; [by rewrite (proj1 Hm)|exact Hnd'| |done..].
      by rewrite (marks_arcs _ _ _ _ _ Hm Hnd Hnd').
  - induction H as [index j Hj|index p nd i k a j Hp Hnd Hi Hk Ha He Hs _ IH].
    + apply reaches_here. by rewrite <- (proj1 Hm).
    + destruct (marks_lookup_inv _ _ _ _ Hm Hnd) as (nd0 & Hnd0 & Hnn).
      eapply reaches_step; [by rewrite <- (proj1 Hm)|exact Hnd0| |done..].
      by rewrite <- (marks_arcs _ _ _ _ _ Hm Hnd0 Hnd).
Qed.

Lemma connect_houses_marks depth nodes w index nodes' :
  connect_houses depth nodes w index = Done nodes' -> marks nodes nodes'.
Proof.
  revert nodes index nodes'. induction depth as [|d IH]; intros nodes index nodes' Hrun;
    [discriminate|].
  simpl in Hrun.
  apply bind_Done in Hrun as (nodes1 & H1 & Hrun).
  apply bind_Done in Hrun as (nd & _ & Hrun).
  apply bind_Done in Hrun as (ks & _ & Hrun).
  unfold py_alter in H1. destruct (py_pos (length nodes) index) as [p|]; [|done].
  inversion H1; subst nodes1; clear H1.
  eapply (for_each_invariant (marks nodes)); [| |exact Hrun].
  - intros s k s' _ Hs Hbody. cbv beta in Hbody. destruct (w !! k) as [a|]; [|done].
    destruct (decide _); [|by inversion Hbody; subst].
    eapply marks_trans; [exact Hs|]. by eapply IH.
  - apply marks_alter.
Qed.

Lemma connect_houses_unfold d nodes w index nodes' :
  connect_houses (S d) nodes w index = Done nodes' ->
  exists p nd0 ks,
    py_pos (length nodes) index = Some p /\ nodes !! p = Some nd0 /\
    arcs_at w (n_arcs nd0) = Done ks /\
    for_each (fun nodes k =>
                match w !! k with
                | None => Raise IndexError
                | Some a =>
                    if decide (a_enabled a = 1 /\ a_start a = index)
                    then connect_houses d nodes w (a_end a)
                    else Done nodes
                end) (alter (set_connected 1) p nodes) ks = Done nodes'.
Proof.
  simpl. intros Hrun.
  apply bind_Done in Hrun as (nodes1 & H1 & Hrun).
  apply bind_Done in Hrun as (nd & Hnd & Hrun).
  apply bind_Done in Hrun as (ks & Hks & Hrun).
  unfold py_alter in H1. destruct (py_pos (length nodes) index) as [p|] eqn:Hp; [|done].
  inversion H1; subst nodes1; clear H1.
  unfold py_get in Hnd. rewrite length_alter, Hp, list_lookup_alter_eq in Hnd.
  destruct (nodes !! p) as [nd0|] eqn:Hnd0; [|done]. simpl in Hnd. inversion Hnd; subst nd.
  exists p, nd0, ks. by repeat split.
Qed.

Lemma connect_houses_sound depth nodes w index nodes' :
  connect_houses depth nodes w index = Done nodes' ->
  forall j, connected_at nodes' j -> connected_at nodes j \/ reaches nodes w index j.
Proof.
  revert nodes index nodes'. induction depth as [|d IH]; intros nodes index nodes' Hrun;
    [discriminate|].
  apply connect_houses_unfold in Hrun as (p & nd0 & ks & Hp & Hnd0 & Hks & Hrun).
  pose (P := fun s : list node => marks nodes s /\
     forall j, connected_at s j -> connected_at nodes j \/ reaches nodes w index j).
  enough (P nodes') as [_ H] by exact H.
  eapply (for_each_invariant P); [| |exact Hrun].
  - intros s k s' Hk [Hm Hs] Hbody. cbv beta in Hbody.
    destruct (w !! k) as [a|] eqn:Ha; [|done].
    destruct (decide _) as [[He Hst]|_]; [|by inversion Hbody; subst].
    split; [eapply marks_trans; [exact Hm|by eapply connect_houses_marks]|].
    intros j Hj. destruct (IH _ _ _ Hbody j Hj) as [Hc|Hr]; [by apply Hs|].
    right. apply (reaches_marks _ _ _ _ _ Hm) in Hr.
    apply (arcs_at_elem _ _ _ k Hks) in Hk as (i & Hi & Hik).
    by eapply reaches_step.
  - split; [apply marks_alter|].
    intros j (n & Hj & Hc). destruct (decide (j = p)) as [->|Hne].
    + right. by apply reaches_here.
    + left. rewrite list_lookup_alter_ne in Hj by done. by exists n.
Qed.

Lemma connect_houses_complete depth nodes w index nodes' :
  connect_houses depth nodes w index = Done nodes' ->
  forall j, reaches nodes w index j -> connected_at nodes' j.
Proof.
  revert nodes index nodes'. induction depth as [|d IH]; intros nodes index nodes' Hrun;
    [discriminate|].
  apply connect_houses_unfold in Hrun as (p & nd0 & ks & Hp & Hnd0 & Hks & Hrun).
  apply (for_each_visits marks) in Hrun as [Hm Hall];
    [|apply marks_refl|apply marks_trans|].
  2:{ intros s k s' Hbody. cbv beta in Hbody. destruct (w !! k) as [a|]; [|done].
      destruct (decide _); [by eapply connect_houses_marks|inversion Hbody; apply marks_refl]. }
  intros j Hr. inversion Hr as [? ? Hj|? p' nd i k a ? Hp' Hnd Hi Hk Ha He Hs Hr']; subst.
  - rewrite Hp in Hj. inversion Hj; subst j.
    apply (marks_connected _ _ _ Hm). exists (set_connected 1 nd0).
    by rewrite list_lookup_alter_eq, Hnd0.
  - rewrite Hp in Hp'. inversion Hp'; subst p'. rewrite Hnd0 in Hnd. inversion Hnd; subst nd.
    destruct (Hall k) as (s1 & s2 & Hs1 & Hbody & Hs2).
    { apply (arcs_at_elem _ _ _ k Hks). by exists i. }
    cbv beta in Hbody. rewrite Ha in Hbody.
    destruct (decide _) as [_|Hn]; [|by destruct Hn].
    apply (marks_connected _ _ _ Hs2). apply (IH _ _ _ Hbody).
    apply (reaches_marks nodes); [|done].
    eapply marks_trans; [apply marks_alter|exact Hs1].
Qed.

(** ** Running the resolver again *)

Lemma marks_same_arcs nodes s nodesA :
  marks nodes s -> same_arcs nodes nodesA -> same_arcs s nodesA.
Proof.
  intros Hm [L H]. split; [by rewrite (proj1 Hm)|].
  intros j n nA Hj HjA. destruct (marks_lookup_inv _ _ _ _ Hm Hj) as (n0 & Hn0 & Hnn).
  rewrite (H j n0 nA Hn0 HjA). by destruct Hnn as [->| ->].
Qed.

Lemma set_connected_id (n : node) : n_connected n = 1 -> set_connected 1 n = n.
Proof. destruct n; simpl; intros ->; reflexivity. Qed.

Lemma alter_connected_id (nodes : list node) (k : nat) :
  connected_at nodes k -> alter (set_connected 1) k nodes = nodes.
Proof.
  intros (n & Hk & Hc). apply list_eq. intros j. destruct (decide (j = k)) as [->|Hne].
  - rewrite list_lookup_alter_eq, Hk. simpl. by rewrite set_connected_id.
  - by rewrite list_lookup_alter_ne.
Qed.

Lemma connect_houses_again depth nodes w index nodes1 nodesA wA :
  connect_houses depth nodes w index = Done nodes1 ->
  same_arcs nodes nodesA -> sub_enabled wA w ->
  (forall j, connected_at nodes1 j -> connected_at nodesA j) ->
  connect_houses depth nodesA wA index = Done nodesA.
Proof.
  revert nodes index nodes1. induction depth as [|d IH];
    intros nodes index nodes1 Hrun Hsame Hsub Hflags; [discriminate|].
  apply connect_houses_unfold in Hrun as (p & nd0 & ks & Hp & Hnd0 & Hks & Hrun).
  assert (marks (alter (set_connected 1) p nodes) nodes1) as Hm1.
  { eapply (for_each_invariant (marks (alter (set_connected 1) p nodes)));
      [| apply marks_refl | exact Hrun].
    intros s k s' _ Hs Hbody. cbv beta in Hbody. destruct (w !! k) as [a|]; [|done].
    destruct (decide _); [|by inversion Hbody; subst].
    eapply marks_trans; [exact Hs|]. by eapply connect_houses_marks. }
  assert (connected_at nodesA p) as HpA.
  { apply Hflags. apply (marks_connected _ _ _ Hm1).
    exists (set_connected 1 nd0). by rewrite list_lookup_alter_eq, Hnd0. }
  simpl. unfold py_alter, py_get. rewrite (proj1 Hsame), Hp. simpl.
  rewrite (alter_connected_id _ _ HpA). rewrite (proj1 Hsame), Hp.
  destruct HpA as (ndA & HndA & _). rewrite HndA. simpl.
  rewrite (proj2 Hsame p nd0 ndA Hnd0 HndA).
  rewrite (arcs_at_length wA w _ (proj1 Hsub)), Hks. simpl.
  assert (marks nodes (alter (set_connected 1) p nodes)) as Hm0 by apply marks_alter.
  clear Hks Hm1. revert Hrun Hm0. generalize (alter (set_connected 1) p nodes).
  induction ks as [|k ks IHks]; intros s Hrun Hm0; simpl; [done|].
  simpl in Hrun. apply bind_Done in Hrun as (s' & Hbody & Hrest).
  destruct (w !! k) as [a|] eqn:Ha; [|done].
  destruct (proj2 Hsub k a Ha) as (a' & Ha' & Hst & Hen & Hena). rewrite Ha'.
  assert (marks s s') as Hss'.
  { destruct (decide (a_enabled a = 1 /\ a_start a = index));
      [by eapply connect_houses_marks|inversion Hbody; apply marks_refl]. }
  assert (marks s' nodes1) as Hs'1.
  { eapply (for_each_invariant (marks s')); [| apply marks_refl | exact Hrest].
    intros t k0 t' _ Ht Hb. cbv beta in Hb. destruct (w !! k0) as [b|]; [|done].
    destruct (decide (a_enabled b = 1 /\ a_start b = index)); [|by inversion Hb; subst].
    eapply marks_trans; [exact Ht|]. by eapply connect_houses_marks. }
  destruct (decide (a_enabled a' = 1 /\ a_start a' = index)) as [[HeA HsA]|_].
  - destruct (decide (a_enabled a = 1 /\ a_start a = index)) as [_|Hn].
    2:{ destruct Hn. split; [by apply Hena|congruence]. }
    rewrite Hen. rewrite (IH s (a_end a) s' Hbody).
    + simpl. apply (IHks s' Hrest). by eapply marks_trans.
    + by eapply marks_same_arcs.
    + done.
    + intros j Hj. apply Hflags. by apply (marks_connected _ _ _ Hs'1).
  - simpl. apply (IHks s' Hrest). by eapply marks_trans.
Qed.

(** ** The pass over the stranded arcs *)

Lemma shrinks_refl w : shrinks w w.
Proof. split; [done|]. intros k a Hk. exists a. by split; [|left]. Qed.

Lemma shrinks_trans w1 w2 w3 : shrinks w1 w2 -> shrinks w2 w3 -> shrinks w1 w3.
Proof.
  intros [L1 H1] [L2 H2]. split; [congruence|].
  intros k a Hk. destruct (H1 k a Hk) as (a' & Hk' & Ha').
  destruct (H2 k a' Hk') as (a'' & Hk'' & Ha''). exists a''. split; [done|].
  destruct Ha' as [->| ->], Ha'' as [->| ->]; auto.
Qed.

Lemma shrinks_off w w' k : shrinks w w' -> off w k -> off w' k.
Proof.
  intros [L H] Hoff a' Hk'. destruct (w !! k) as [a|] eqn:Hk.
  - destruct (H k a Hk) as (b & Hb & Hab). rewrite Hk' in Hb. inversion Hb; subst b.
    destruct Hab as [->| ->]; [by apply Hoff|done].
  - apply lookup_ge_None in Hk. apply lookup_lt_Some in Hk'. lia.
Qed.

Lemma shrinks_sub_enabled w w' : shrinks w w' -> sub_enabled w' w.
Proof.
  intros [L H]. split; [done|]. intros k a Hk.
  destruct (H k a Hk) as (a' & Hk' & Ha'). exists a'. split; [done|].
  destruct Ha' as [->| ->]; simpl; repeat split; try done.
Qed.

Lemma shrinks_alter w k : shrinks w (alter (set_enabled 0) k w).
Proof.
  split; [by rewrite length_alter|].
  intros j a Hj. destruct (decide (j = k)) as [->|Hne].
  - exists (set_enabled 0 a). rewrite list_lookup_alter_eq, Hj. by split; [|right].
  - exists a. rewrite list_lookup_alter_ne by done. by split; [|left].
Qed.

Lemma disable_all_shrinks ks w :
  shrinks w (foldl (fun network k => alter (set_enabled 0) k network) w ks) /\
  forall k, k ∈ ks -> off (foldl (fun network k => alter (set_enabled 0) k network) w ks) k.
Proof.
  revert w. induction ks as [|k ks IH]; intros w; simpl.
  - split; [apply shrinks_refl|]. by intros k ?%elem_of_nil.
  - destruct (IH (alter (set_enabled 0) k w)) as [Hs Hoff]. split.
    + eapply shrinks_trans; [apply shrinks_alter|exact Hs].
    + intros j Hj. apply elem_of_cons in Hj as [->|Hj]; [|by apply Hoff].
      apply (shrinks_off _ _ _ Hs). intros a Ha.
      rewrite list_lookup_alter_eq in Ha. destruct (w !! k); inversion Ha; subst. done.
Qed.

Lemma disable_all_id ks w :
  (forall k, k ∈ ks -> off w k) ->
  foldl (fun network k => alter (set_enabled 0) k network) w ks = w.
Proof.
  induction ks as [|k ks IH]; intros Hoff; simpl; [done|].
  assert (alter (set_enabled 0) k w = w) as ->.
  { apply list_eq. intros j. destruct (decide (j = k)) as [->|Hne].
    - rewrite list_lookup_alter_eq. destruct (w !! k) as [a|] eqn:Ha; [|done]. simpl.
      rewrite set_enabled_id; [done|]. apply (Hoff k); [by left|done].
    - by rewrite list_lookup_alter_ne. }
  apply IH. intros j Hj. apply Hoff. by right.
Qed.

Lemma disable_stranded_step_shrinks nodes w j w' :
  disable_stranded_step nodes w j = Done w' -> shrinks w w'.
Proof.
  unfold disable_stranded_step. destruct (nodes !! j) as [nd|]; [|by intros [= <-]; apply shrinks_refl].
  destruct (decide _); [|by intros [= <-]; apply shrinks_refl].
  intros H. apply bind_Done in H as (ks & _ & H). inversion H; subst.
  apply disable_all_shrinks.
Qed.

Lemma disable_stranded_shrinks nodes w w1 :
  disable_stranded nodes w = Done w1 -> shrinks w w1.
Proof.
  intros H. eapply (for_each_invariant (shrinks w)); [|apply shrinks_refl|exact H].
  intros s j s' _ Hs Hstep. eapply shrinks_trans; [exact Hs|].
  by eapply disable_stranded_step_shrinks.
Qed.

Lemma disable_stranded_again nodes w w1 :
  disable_stranded nodes w = Done w1 -> disable_stranded nodes w1 = Done w1.
Proof.
  intros Hrun. unfold disable_stranded in *.
  apply (for_each_visits shrinks) in Hrun as [Hs Hall];
    [|apply shrinks_refl|apply shrinks_trans|apply disable_stranded_step_shrinks].
  apply for_each_fixed. intros j Hj.
  destruct (Hall j Hj) as (s1 & s2 & Hs1 & Hstep & Hs2).
  unfold disable_stranded_step in *. destruct (nodes !! j) as [nd|]; [|done].
  destruct (decide (n_connected nd = 0)); [|done].
  apply bind_Done in Hstep as (ks & Hks & Hstep). inversion Hstep; subst s2; clear Hstep.
  rewrite (arcs_at_length w1 s1).
  2:{ rewrite (proj1 Hs2). destruct (disable_all_shrinks ks s1) as [[L _] _]. exact L. }
  rewrite Hks. simpl. f_equal. apply disable_all_id.
  intros k Hk. apply (shrinks_off _ _ _ Hs2). by apply disable_all_shrinks.
Qed.

(** C8.  The connectivity resolver is idempotent: when a pass
    ([connect_houses] from node 0, then the disabling of every arc listed by
    a node with [connected == 0]) returns a state, a second pass on that
    state returns it unchanged: the same connected flags and the same
    enabled flags. *)
Theorem resolve_idempotent (depth : nat) (st st1 : state) :
  resolve depth st = Done st1 -> resolve depth st1 = Done st1.
Proof.
  unfold resolve. intros Hrun.
  apply bind_Done in Hrun as (nodes1 & Hc & Hrun).
  apply bind_Done in Hrun as (w1 & Hd & Hrun). inversion Hrun; subst st1; clear Hrun.
  simpl.
  rewrite (connect_houses_again depth st.1 st.2 0 nodes1 nodes1 w1 Hc).
  - simpl. by rewrite (disable_stranded_again _ _ _ Hd).
  - apply connect_houses_marks in Hc. split; [apply Hc|].
    intros j n nA Hj HjA. by eapply marks_arcs.
  - apply shrinks_sub_enabled. by eapply disable_stranded_shrinks.
  - done.
Qed.

Lemma resolve_idempotent_witness :
  exists st, resolve 3 (Village.nodes, Village.short_network) = Done st /\
             resolve 3 st = Done st.
Proof.
  destruct (resolve 3 (Village.nodes, Village.short_network)) as [st| |] eqn:Hrun;
    [|vm_compute in Hrun; discriminate..].
  exists st. split; [reflexivity|]. exact (resolve_idempotent 3 _ st Hrun).
Defined.

(** ** The report *)

Section Report.
Variable e : econ.

Lemma npv_loop_nodes fuel depth cg best nodes network st :
  npv_loop e fuel depth cg best nodes network = Done st -> st.1 = nodes.
Proof.
  revert best network. induction fuel as [|f IH]; intros best network Hrun; [discriminate|].
  simpl in Hrun. apply bind_Done in Hrun as ([[[b s] n] w] & Hround & Hrun).
  unfold npv_round in Hround. apply npv_scan_spec in Hround as (-> & -> & _).
  destruct s as [idx|]; [|by inversion Hrun].
  apply bind_Done in Hrun as (w' & _ & Hrun). by eapply IH.
Qed.

Lemma coverage_round_frame depth cg nodes network best sel nodes' network' :
  coverage_round e depth cg nodes network = Done (best, sel, nodes', network') ->
  nodes' = nodes /\ network' = network.
Proof.
  unfold coverage_round. intros Hrun.
  pose (P := fun acc : scan => acc.1.2 = nodes /\ acc.2 = network).
  enough (P (best, sel, nodes', network')) as HP by exact HP.
  eapply (for_each_invariant P); [| |exact Hrun]; [|done].
  intros [[[b s] n] w] i [[[b' s'] n'] w'] _ [Hn Hw] Hstep. simpl in Hn, Hw. subst n w.
  unfold coverage_scan_step in Hstep. destruct (network !! i) as [a|]; [|by inversion Hstep].
  apply bind_Done in Hstep as ([[v n2] w2] & Hc & Hstep).
  apply candidate_npv_frame in Hc as [-> ->].
  by destruct (_ && _); inversion Hstep.
Qed.

Lemma coverage_loop_nodes fuel depth cg total target nodes network st :
  coverage_loop e fuel depth cg total target nodes network = Done st -> st.1 = nodes.
Proof.
  revert network. induction fuel as [|f IH]; intros network Hrun; [discriminate|].
  simpl in Hrun. apply bind_Done in Hrun as ([[[b s] n] w] & Hround & Hrun).
  apply coverage_round_frame in Hround as [-> ->].
  apply bind_Done in Hrun as (w' & _ & Hrun).
  apply bind_Done in Hrun as (cov & _ & Hrun).
  destruct (Qle_bool cov target); [by inversion Hrun|]. by eapply IH.
Qed.

(** When the loop of the coverage mode ends, the coverage is at most the
    target. *)
Lemma coverage_loop_at_target fuel depth cg total target nodes network st :
  coverage_loop e fuel depth cg total target nodes network = Done st ->
  exists actual_coverage,
    coverage st.2 total = Done actual_coverage /\ (actual_coverage <= target)%Q.
Proof.
  revert network. induction fuel as [|f IH]; intros network Hrun; [discriminate|].
  simpl in Hrun. apply bind_Done in Hrun as ([[[b s] n] w] & Hround & Hrun).
  apply coverage_round_frame in Hround as [-> ->].
  apply bind_Done in Hrun as (w' & _ & Hrun).
  apply bind_Done in Hrun as (cov & Hcov & Hrun).
  destruct (Qle_bool cov target) eqn:Hle; [|by eapply IH].
  inversion Hrun; subst st. exists cov. split; [done|]. by apply Qle_bool_iff.
Qed.

Lemma optimise_nodes fuel depth target st st' :
  optimise e fuel depth target st = Done st' -> st'.1 = st.1.
Proof.
  unfold optimise. destruct (Qeq_bool target (-1)).
  - apply npv_loop_nodes.
  - apply coverage_loop_nodes.
Qed.

Lemma report_step_flagged (nodes : list node) (c : Z) (i g : Q) :
  foldl (report_step e) (c, i, g) nodes =
  (c + Z.of_nat (length (flagged nodes)),
   foldl (fun acc n => acc + node_income e n)%Q i (flagged nodes),
   foldl (fun acc n => acc + inject_Z (n_area n) * num_people_per_m2
                             * demand_per_person_kw_peak e)%Q g (flagged nodes)).
Proof.
  revert c i g. induction nodes as [|n nodes IH]; intros c i g; simpl.
  - by rewrite Z.add_0_r.
  - unfold flagged. rewrite filter_cons. fold (flagged nodes).
    destruct (decide (n_connected n = 1)) as [H1|H1].
    + simpl. rewrite IH. rewrite Nat2Z.inj_succ. do 2 f_equal. lia.
    + by rewrite IH.
Qed.
End Report.

Lemma flag_at_connected nodes j : flag_at nodes j <-> connected_at nodes j.
Proof.
  unfold flag_at, connected_at. destruct (nodes !! j) as [n|]; simpl; split.
  - intros [= H]. by exists n.
  - intros (m & [= <-] & ->). done.
  - done.
  - by intros (m & ? & _).
Qed.

Lemma flagged_positions (nodes : list node) :
  length (filter (flag_at nodes) (seq 0 (length nodes))) = length (flagged nodes).
Proof.
  induction nodes as [|n nodes IH] using rev_ind; [done|].
  rewrite length_app. simpl. rewrite Nat.add_1_r, seq_S. simpl.
  unfold flagged. rewrite !filter_app, !length_app.
  fold (flagged nodes). rewrite <- IH. f_equal.
  - f_equal. apply filter_ext_elem.
    intros j Hj%elem_of_seq. unfold flag_at. by rewrite lookup_app_l by lia.
  - assert (flag_at (nodes ++ [n]) (length nodes) <-> n_connected n = 1) as Hiff.
    { unfold flag_at. rewrite lookup_app_r by lia. rewrite Nat.sub_diag. simpl.
      split; [by intros [= ?]|by intros ->]. }
    rewrite !filter_cons, !filter_nil.
    destruct (decide (flag_at (nodes ++ [n]) (length nodes))),
      (decide (n_connected n = 1)); try done; tauto.
Qed.

Lemma py_pos_0 (len : nat) (p : nat) : py_pos len 0 = Some p -> p = 0%nat /\ (0 < len)%nat.
Proof. unfold py_pos. repeat case_decide; intros [= <-]; lia. Qed.

Lemma connect_houses_root depth nodes w nodes' :
  connect_houses depth nodes w 0 = Done nodes' ->
  (0 < length nodes)%nat /\ connected_at nodes' 0.
Proof.
  intros Hrun. assert (py_pos (length nodes) 0 = Some 0%nat /\ (0 < length nodes)%nat) as [Hp Hl].
  { destruct depth as [|d]; [discriminate|].
    apply connect_houses_unfold in Hrun as (p & _ & _ & Hp & _).
    destruct (py_pos_0 _ _ Hp) as [-> ?]. by split. }
  split; [done|]. eapply connect_houses_complete; [exact Hrun|]. by apply reaches_here.
Qed.

End ModelFacts.

(** * The network director *)

Module DirectorFacts.
Import Director.

Lemma same_ends_refl a : same_ends a a.
Proof. by left. Qed.

Lemma same_ends_trans a1 a2 a3 : same_ends a1 a2 -> same_ends a2 a3 -> same_ends a1 a3.
Proof.
  unfold same_ends. intros [[H1 H2]|[H1 H2]] [[H3 H4]|[H3 H4]];
    rewrite H3, H4, ?H1, ?H2; auto.
Qed.

Lemma same_ends_touches a a' p : same_ends a a' -> touches a' p <-> touches a p.
Proof. unfold touches. intros [[-> ->]|[-> ->]]; tauto. Qed.

Lemma steady_refl st : steady st st.
Proof.
  repeat split; try done.
  - intros j n Hj. by exists n.
  - intros i a Hi. exists a. repeat split; try done. apply same_ends_refl.
Qed.

Lemma steady_trans s1 s2 s3 : steady s1 s2 -> steady s2 s3 -> steady s1 s3.
Proof.
  intros (L1 & M1 & N1 & A1) (L2 & M2 & N2 & A2). repeat split; try congruence.
  - intros j n Hj. destruct (N1 j n Hj) as (n' & Hj' & Hi' & Hx').
    destruct (N2 j n' Hj') as (n'' & Hj'' & Hi'' & Hx''). exists n''.
    repeat split; congruence.
  - intros i a Hi. destruct (A1 i a Hi) as (a' & Hi' & Hd' & He').
    destruct (A2 i a' Hi') as (a'' & Hi'' & Hd'' & He''). exists a''.
    repeat split; [done| |by eapply same_ends_trans].
    intros Hd. rewrite (Hd' Hd) in *. by apply Hd''.
Qed.

Lemma steady_indexed st st' : steady st st' -> indexed st.1 -> indexed st'.1.
Proof.
  intros (L & _ & N & _) Hidx j n' Hj'.
  destruct (st.1 !! j) as [n|] eqn:Hj.
  - destruct (N j n Hj) as (m & Hm & Hi & _). rewrite Hj' in Hm. inversion Hm; subst m.
    rewrite Hi. by apply Hidx.
  - apply lookup_ge_None in Hj. apply lookup_lt_Some in Hj'. lia.
Qed.

Lemma undirected_insert (w : list arc) (i : nat) (a0 a' : arc) :
  w !! i = Some a0 -> a_directed a0 <> 1 -> a_directed a' = 1 ->
  S (undirected (<[i := a']> w)) = undirected w.
Proof.
  unfold undirected. revert i. induction w as [|b w IH]; intros i Hi H0 H'; [done|].
  destruct i as [|i]; simpl in *.
  - inversion Hi; subst b. rewrite !filter_cons.
    destruct (decide (a_directed a' <> 1)); [done|].
    destruct (decide (a_directed a0 <> 1)); [done|]. by destruct H0; destruct (decide (a_directed a0 = 1)).
  - rewrite !filter_cons. specialize (IH i Hi H0 H').
    destruct (decide (a_directed b <> 1)); simpl; lia.
Qed.

Lemma py_get_indexed (nodes : list node) (v : Z) (nd : node) :
  indexed nodes -> py_get nodes v = Done nd -> 0 <= v ->
  nodes !! Z.to_nat v = Some nd /\ n_index nd = v /\ (Z.to_nat v < length nodes)%nat.
Proof.
  unfold py_get, py_pos. intros Hidx Hget Hv.
  destruct (decide (0 <= v)); [|lia]. destruct (decide (v < Z.of_nat (length nodes))); [|done].
  destruct (nodes !! Z.to_nat v) as [n|] eqn:Hn; [|done]. inversion Hget; subst n.
  repeat split; [|lia]. rewrite (Hidx _ _ Hn). lia.
Qed.

Lemma py_get_nat (nodes : list node) (j : nat) (nd : node) :
  nodes !! j = Some nd -> py_get nodes (Z.of_nat j) = Done nd.
Proof.
  intros Hj. unfold py_get, py_pos. pose proof (lookup_lt_Some _ _ _ Hj).
  destruct (decide (0 <= Z.of_nat j)); [|lia].
  destruct (decide (Z.of_nat j < Z.of_nat (length nodes))); [|lia].
  by rewrite Nat2Z.id, Hj.
Qed.

Lemma same_ends_sym a a' : same_ends a a' -> same_ends a' a.
Proof. unfold same_ends. intros [[-> ->]|[-> ->]]; auto. Qed.

Lemma steady_lookup_node st st' j n :
  steady st st' -> st.1 !! j = Some n ->
  exists n', st'.1 !! j = Some n' /\ n_index n' = n_index n /\ xy n' = xy n.
Proof. intros (_ & _ & N & _). apply N. Qed.

Lemma steady_lookup_arc st st' i a' :
  steady st st' -> st'.2 !! i = Some a' ->
  exists a, st.2 !! i = Some a /\ (a_directed a = 1 -> a' = a) /\ same_ends a a'.
Proof.
  intros (_ & M & _ & A) Hi'. destruct (st.2 !! i) as [a|] eqn:Hi.
  - destruct (A i a Hi) as (b & Hb & Hd & He). rewrite Hi' in Hb. inversion Hb; subst b.
    by exists a.
  - apply lookup_ge_None in Hi. apply lookup_lt_Some in Hi'. lia.
Qed.

(** ** The runs that return *)

Section Returning.

Variable max_tot_length : Q.

Lemma claim_finish rec st nd i a :
  claim max_tot_length rec st nd i a = finish rec st (claim_action max_tot_length st nd i a).
Proof.
  unfold claim, claim_action. 
  change (at_end (set_directed 1 (set_start (n_index nd) a))) with (at_end a).
  destruct (list_find (at_end a) st.1) as [[j nj]|]; reflexivity.
Qed.

Lemma arc_step_action rec index st i :
  arc_step max_tot_length rec index st i = arc_action max_tot_length index st i ≫= finish rec st.
Proof.
  unfold arc_step, arc_action. destruct (st.2 !! i) as [a|]; [|done].
  destruct (py_get st.1 index) as [nd| |]; simpl; [|done..].
  repeat case_decide; try done; apply claim_finish.
Qed.

Lemma loop_of_for_each fuel :
  (forall st index st', direct_network max_tot_length fuel st index = Done st' ->
     Loop max_tot_length index st (seq 0 (length st.2)) st') ->
  forall index rest st st',
    for_each (arc_step max_tot_length (direct_network max_tot_length fuel) index) st rest
      = Done st' ->
    Loop max_tot_length index st rest st'.
Proof.
  intros IH index rest. induction rest as [|i rest IHr]; intros st st' Hrun; simpl in Hrun.
  - inversion Hrun; subst. constructor.
  - apply bind_Done in Hrun as (s1 & Hstep & Hrun).
    rewrite arc_step_action in Hstep. apply bind_Done in Hstep as (act & Hact & Hfin).
    destruct act as [|st1|st1 c]; simpl in Hfin.
    + inversion Hfin; subst. by eapply Loop_skip; [|apply IHr].
    + inversion Hfin; subst. by eapply Loop_leaf; [|apply IHr].
    + eapply Loop_child; [exact Hact|by apply IH|by apply IHr].
Qed.

Lemma loop_of_run fuel st index st' :
  direct_network max_tot_length fuel st index = Done st' ->
  Loop max_tot_length index st (seq 0 (length st.2)) st'.
Proof.
  revert st index st'. induction fuel as [|f IH]; intros st index st' Hrun; [discriminate|].
  simpl in Hrun. by eapply loop_of_for_each.
Qed.
Lemma claimed_arc_fields nd nj a :
  let a' := claimed_arc max_tot_length nd nj a in
  a_directed a' = 1 /\ a_start a' = n_index nd /\ a_end a' = n_index nj /\
  a_s a' = a_s a /\ a_e a' = a_e a /\ a_length a' = a_length a /\ a_index a' = a_index a.
Proof. unfold claimed_arc. simpl. destruct (Qlt_le_dec _ _); by repeat split. Qed.

(** What a claim is made of. *)
Lemma arc_action_claims index st i act :
  arc_action max_tot_length index st i = Done act -> act <> Skip ->
  exists a0 a nd,
    st.2 !! i = Some a0 /\ a_directed a0 <> 1 /\ py_get st.1 index = Done nd /\
    same_ends a0 a /\ a_s a = xy nd /\ a_length a = a_length a0 /\
    a_directed a = a_directed a0 /\
    act = claim_action max_tot_length st nd i a.
Proof.
  unfold arc_action. intros Hact Hne.
  destruct (st.2 !! i) as [a0|]; [|by inversion Hact; subst].
  apply bind_Done in Hact as (nd & Hnd & Hact).
  destruct (decide (at_start a0 nd)) as [[Hx Hy]|_].
  - destruct (decide (a_directed a0 = 1)); [by inversion Hact; subst|].
    inversion Hact; subst act. exists a0, a0, nd. repeat split; try done.
    + apply same_ends_refl.
    + unfold a_s, xy. congruence.
  - destruct (decide (at_end a0 nd)) as [[Hx Hy]|_]; [|by inversion Hact; subst].
    destruct (decide (a_directed a0 = 1)); [by inversion Hact; subst|].
    inversion Hact; subst act. exists a0, (flip_arc a0), nd. repeat split; try done.
    + by right.
    + unfold a_s, xy. simpl. congruence.
Qed.

Lemma arc_action_skips index st i a nd :
  arc_action max_tot_length index st i = Done Skip ->
  st.2 !! i = Some a -> py_get st.1 index = Done nd -> touches a (xy nd) ->
  a_directed a = 1.
Proof.
  unfold arc_action. intros Hact Ha Hnd Ht. rewrite Ha, Hnd in Hact. simpl in Hact.
  destruct (decide (at_start a nd)) as [_|Hs].
  - destruct (decide (a_directed a = 1)); [done|]. unfold claim_action in Hact.
    by destruct (list_find _ _) as [[? ?]|].
  - destruct (decide (at_end a nd)) as [_|He].
    + destruct (decide (a_directed a = 1)); [done|]. unfold claim_action in Hact.
      by destruct (list_find _ _) as [[? ?]|].
    + destruct Ht as [Ht|Ht]; [destruct Hs|destruct He]; unfold a_s, a_e, xy in Ht;
        inversion Ht; by split.
Qed.

Lemma claim_action_leaf st nd i a st1 :
  claim_action max_tot_length st nd i a = Leaf st1 ->
  (forall n, n ∈ st.1 -> xy n <> a_e a) /\
  st1 = (st.1, <[i := set_directed 1 (set_start (n_index nd) a)]> st.2).
Proof.
  unfold claim_action. destruct (list_find (at_end a) st.1) as [[j nj]|] eqn:Hf; [done|].
  intros [= <-]. split; [|done].
  intros n Hn Hxy. eapply list_find_None in Hf. rewrite Forall_forall in Hf.
  apply (Hf n Hn). unfold a_e, xy in Hxy. inversion Hxy. by split.
Qed.

Lemma claim_action_child st nd i a st1 c :
  claim_action max_tot_length st nd i a = Child st1 c ->
  exists j nj,
    st.1 !! j = Some nj /\ xy nj = a_e a /\ c = n_index nj /\
    st1 = (<[j := claimed_node nd nj a]> st.1,
           <[i := claimed_arc max_tot_length nd nj a]> st.2).
Proof.
  unfold claim_action. destruct (list_find (at_end a) st.1) as [[j nj]|] eqn:Hf; [|done].
  intros [= <- <-]. apply list_find_Some in Hf as (Hj & [Hx Hy] & _).
  exists j, nj. repeat split; try done. unfold xy, a_e. congruence.
Qed.

Lemma claim_action_skip st nd i a : claim_action max_tot_length st nd i a <> Skip.
Proof. unfold claim_action. by destruct (list_find _ _) as [[? ?]|]. Qed.
End Returning.

(** ** What a run keeps *)

Section Keeping.

Variable max_tot_length : Q.

Lemma insert_arc_steady (st : state) (i : nat) (a0 a' : arc) :
  st.2 !! i = Some a0 -> a_directed a0 <> 1 -> same_ends a0 a' ->
  steady st (st.1, <[i := a']> st.2).
Proof.
  intros Hi Hd He. repeat split; simpl; try done.
  - by rewrite length_insert.
  - intros j n Hj. by exists n.
  - intros k a Hk. destruct (decide (k = i)) as [->|Hne].
    + exists a'. rewrite list_lookup_insert_eq by (by eapply lookup_lt_Some).
      rewrite Hi in Hk. inversion Hk; subst a. by repeat split.
    + exists a. rewrite list_lookup_insert_ne by done. repeat split; try done.
      apply same_ends_refl.
Qed.

Lemma insert_node_steady (st : state) (j : nat) (nj nj' : node) :
  st.1 !! j = Some nj -> n_index nj' = n_index nj -> xy nj' = xy nj ->
  steady st (<[j := nj']> st.1, st.2).
Proof.
  intros Hj Hi Hx. repeat split; simpl; try done.
  - by rewrite length_insert.
  - intros k n Hk. destruct (decide (k = j)) as [->|Hne].
    + exists nj'. rewrite list_lookup_insert_eq by (by eapply lookup_lt_Some).
      rewrite Hj in Hk. inversion Hk; subst n. by repeat split.
    + exists n. by rewrite list_lookup_insert_ne by done.
  - intros i a Ha. exists a. repeat split; try done. apply same_ends_refl.
Qed.

(** A claim keeps the shape of the state and directs one more arc. *)
Lemma action_steady index st i act :
  arc_action max_tot_length index st i = Done act ->
  match act with
  | Skip => True
  | Leaf st1 => steady st st1 /\ S (undirected st1.2) = undirected st.2
  | Child st1 c =>
      steady st st1 /\ S (undirected st1.2) = undirected st.2 /\
      exists j nj, st.1 !! j = Some nj /\ c = n_index nj
  end.
Proof.
  intros Hact. destruct act as [|st1|st1 c]; [done| |].
  - apply arc_action_claims in Hact as (a0 & a & nd & Hi & Hd & Hnd & He & Hs & Hl & Hda & Hact);
      [|done].
    symmetry in Hact. apply claim_action_leaf in Hact as [_ ->]. split.
    + eapply insert_arc_steady; [done..|].
      destruct He as [[H1 H2]|[H1 H2]]; [left|right]; by split.
    + simpl. by eapply undirected_insert.
  - apply arc_action_claims in Hact as (a0 & a & nd & Hi & Hd & Hnd & He & Hs & Hl & Hda & Hact);
      [|done].
    symmetry in Hact. apply claim_action_child in Hact as (j & nj & Hj & Hxy & -> & ->).
    destruct (claimed_arc_fields max_tot_length nd nj a) as (Ha1 & _ & _ & Ha4 & Ha5 & _).
    split; [|split].
    + eapply steady_trans.
      * by apply (insert_node_steady st j nj (claimed_node nd nj a)).
      * apply (insert_arc_steady (<[j := claimed_node nd nj a]> st.1, st.2) i a0); try done.
        destruct He as [[H1 H2]|[H1 H2]]; [left|right]; split; congruence.
    + simpl. by eapply undirected_insert.
    + by exists j, nj.
Qed.

Lemma Loop_steady index st rest st' :
  Loop max_tot_length index st rest st' ->
  steady st st' /\ (undirected st'.2 <= undirected st.2)%nat.
Proof.
  induction 1 as [index st|index st i rest st' Hact _ IH
                 |index st i rest st1 st' Hact _ IH
                 |index st i rest st1 c st2 st' Hact _ IHc _ IH].
  - split; [apply steady_refl|done].
  - done.
  - apply action_steady in Hact as [Hs Hu]. destruct IH as [IHs IHu].
    split; [by eapply steady_trans|lia].
  - apply action_steady in Hact as (Hs & Hu & _).
    destruct IHc as [IHcs IHcu], IH as [IHs IHu].
    split; [|lia]. eapply steady_trans; [exact Hs|]. by eapply steady_trans.
Qed.

Lemma steady_py_get st st' index nd :
  steady st st' -> py_get st.1 index = Done nd ->
  exists nd', py_get st'.1 index = Done nd' /\ n_index nd' = n_index nd /\ xy nd' = xy nd.
Proof.
  intros (L & _ & N & _). unfold py_get. rewrite L.
  destruct (py_pos (length st.1) index) as [k|]; [|done].
  destruct (st.1 !! k) as [n|] eqn:Hk; [|done]. intros [= ->].
  destruct (N k nd Hk) as (n' & -> & Hi & Hx). by exists n'.
Qed.

Lemma arc_action_total index st i nd :
  py_get st.1 index = Done nd -> exists act, arc_action max_tot_length index st i = Done act.
Proof.
  intros Hnd. unfold arc_action. destruct (st.2 !! i) as [a|]; [|by eexists].
  rewrite Hnd. simpl. repeat case_decide; by eexists.
Qed.

(** [direct_network] returns as soon as the fuel exceeds the number of arcs
    that are not directed yet. *)
Lemma direct_network_returns fuel :
  forall st index nd,
    indexed st.1 -> py_get st.1 index = Done nd -> (undirected st.2 < fuel)%nat ->
    exists st', direct_network max_tot_length fuel st index = Done st'.
Proof.
  induction fuel as [|f IH]; intros st index nd Hidx Hnd Hfuel; [lia|].
  simpl.
  enough (forall rest s, steady st s -> (undirected s.2 <= undirected st.2)%nat ->
            exists st', for_each (arc_step max_tot_length
                                    (direct_network max_tot_length f) index) s rest
                        = Done st') as Hloop.
  { apply Hloop; [apply steady_refl|done]. }
  intros rest. induction rest as [|i rest IHr]; intros s Hs Hu; simpl; [by eexists|].
  rewrite arc_step_action.
  destruct (steady_py_get _ _ _ _ Hs Hnd) as (nd' & Hnd' & _).
  destruct (arc_action_total index s i nd' Hnd') as (act & Hact). rewrite Hact. simpl.
  pose proof (action_steady _ _ _ _ Hact) as Hst.
  destruct act as [|s1|s1 c]; simpl.
  - by apply IHr.
  - destruct Hst as [Hs1 Hu1]. apply IHr; [by eapply steady_trans|lia].
  - destruct Hst as (Hs1 & Hu1 & j & nj & Hj & ->).
    assert (steady st s1) as Hss1 by (by eapply steady_trans).
    pose proof (steady_indexed _ _ Hss1 Hidx) as Hidx1.
    destruct (proj1 (proj2 (proj2 Hs1)) j nj Hj) as (nj1 & Hj1 & Hij & _).
    destruct (IH s1 (n_index nj) nj1 Hidx1) as (s2 & Hrun); [| lia |].
    { rewrite <- Hij, (Hidx1 j nj1 Hj1). by apply py_get_nat. }
    rewrite Hrun. simpl. apply loop_of_run, Loop_steady in Hrun as [Hs2 Hu2].
    apply IHr; [|lia]. by eapply steady_trans.
Qed.

End Keeping.

(** ** Arcs out of reach *)

Section Reach.

Variable max_tot_length : Q.
Variable sqrt : Z -> Q.

Lemma steady_closed_under R st st' :
  steady st st' -> closed_under R st.2 -> closed_under R st'.2.
Proof.
  intros Hs Hc i a' Hi'. destruct (steady_lookup_arc _ _ _ _ Hs Hi') as (a & Hi & _ & He).
  specialize (Hc i a Hi). destruct He as [[-> ->]|[-> ->]]; tauto.
Qed.

(** Visiting a node of a closed set never touches an arc outside it. *)
Lemma Loop_frame (R : Z * Z -> Prop) index st rest st' :
  Loop max_tot_length index st rest st' ->
  forall pv nd,
    indexed st.1 -> closed_under R st.2 ->
    index = Z.of_nat pv -> st.1 !! pv = Some nd -> R (xy nd) ->
    forall i a, st.2 !! i = Some a -> ~ R (a_s a) -> st'.2 !! i = Some a.
Proof.
  induction 1 as [index st|index st i0 rest st' Hact _ IH
                 |index st i0 rest st1 st' Hact Hloop IH
                 |index st i0 rest st1 c st2 st' Hact Hc IHc Hloop IH];
    intros pv nd Hidx Hcl -> Hnd HR i a Hi HnR.
  - done.
  - by eapply IH.
  - pose proof (action_steady _ _ _ _ _ Hact) as [Hs _].
    apply arc_action_claims in Hact as (a0 & a1 & nd0 & Hi0 & Hd & Hnd0 & He & Hs1 & _ & _ & Hact);
      [|done].
    rewrite (py_get_nat _ _ _ Hnd) in Hnd0. inversion Hnd0; subst nd0.
    symmetry in Hact. apply claim_action_leaf in Hact as [_ ->].
    destruct (steady_lookup_node _ _ _ _ Hs Hnd) as (nd' & Hnd' & _ & Hxy').
    assert (i <> i0) as Hne.
    { intros ->. rewrite Hi in Hi0. inversion Hi0; subst a0.
      apply HnR. destruct He as [[H1 H2]|[H1 H2]].
      - by rewrite <- H1, Hs1.
      - apply (Hcl _ _ Hi). by rewrite <- H1, Hs1. }
    apply (IH pv nd' (steady_indexed _ _ Hs Hidx) (steady_closed_under R _ _ Hs Hcl)
              eq_refl Hnd'); [by rewrite Hxy'| |done].
    simpl. by rewrite list_lookup_insert_ne.
  - pose proof (action_steady _ _ _ _ _ Hact) as (Hs & _ & _).
    apply arc_action_claims in Hact as (a0 & a1 & nd0 & Hi0 & Hd & Hnd0 & He & Hs1 & _ & _ & Hact);
      [|done].
    rewrite (py_get_nat _ _ _ Hnd) in Hnd0. inversion Hnd0; subst nd0.
    symmetry in Hact. apply claim_action_child in Hact as (j & nj & Hj & Hxy & -> & ->).
    assert (R (a_s a0) /\ R (a_e a0)) as [HRs HRe].
    { pose proof (Hcl _ _ Hi0) as Hiff.
      destruct He as [[H1 H2]|[H1 H2]]; rewrite H1 in Hs1; rewrite Hs1 in *; tauto. }
    assert (i <> i0) as Hne.
    { intros ->. rewrite Hi in Hi0. by inversion Hi0; subst. }
    pose proof (steady_indexed _ _ Hs Hidx) as Hidx1.
    pose proof (steady_closed_under R _ _ Hs Hcl) as Hcl1.
    destruct (steady_lookup_node _ _ _ _ Hs Hj) as (nj1 & Hj1 & Hij1 & Hxy1).
    pose proof (Loop_steady _ _ _ _ _ Hc) as [Hs2 _].
    assert (st2.2 !! i = Some a) as Hi2.
    { apply (IHc j nj1 Hidx1 Hcl1 (Hidx j nj Hj) Hj1); [| |done].
      - rewrite Hxy1, Hxy. destruct He as [[H1 H2]|[H1 H2]]; by rewrite ?H1, ?H2.
      - simpl. by rewrite list_lookup_insert_ne. }
    destruct (steady_lookup_node _ _ _ _ (steady_trans _ _ _ Hs Hs2) Hnd)
      as (nd2 & Hnd2 & _ & Hxy2).
    pose proof (steady_trans _ _ _ Hs Hs2) as Hs02.
    apply (IH pv nd2 (steady_indexed _ _ Hs02 Hidx) (steady_closed_under R _ _ Hs02 Hcl)
              eq_refl Hnd2); [by rewrite Hxy2|done|done].
Qed.

Lemma init_nodes_lookup (points : list (Z * Z * Z)) (j : nat) (n : node) :
  init_nodes points !! j = Some n <-> exists p, points !! j = Some p /\ n = init_node j p.
Proof.
  unfold init_nodes. rewrite list_lookup_imap. destruct (points !! j) as [p|]; simpl.
  - split; [intros [= <-]; by exists p|]. by intros (q & [= <-] & ->).
  - split; [done|]. by intros (q & ? & _).
Qed.

Lemma init_network_lookup (segs : list (Z * Z * Z * Z)) (i : nat) (a : arc) :
  init_network sqrt segs !! i = Some a <-> exists s, segs !! i = Some s /\ a = init_arc sqrt i s.
Proof.
  unfold init_network. rewrite list_lookup_imap. destruct (segs !! i) as [p|]; simpl.
  - split; [intros [= <-]; by exists p|]. by intros (q & [= <-] & ->).
  - split; [done|]. by intros (q & ? & _).
Qed.

Lemma init_nodes_indexed (points : list (Z * Z * Z)) : indexed (init_nodes points).
Proof. intros j n (p & _ & ->)%init_nodes_lookup. done. Qed.

Lemma init_network_undirected (segs : list (Z * Z * Z * Z)) :
  (undirected (init_network sqrt segs) <= length segs)%nat.
Proof.
  unfold undirected. etransitivity; [apply length_filter|].
  unfold init_network. by rewrite length_imap.
Qed.

Lemma init_network_closed (segs : list (Z * Z * Z * Z)) (p : Z * Z) :
  closed_under (joined segs p) (init_network sqrt segs).
Proof.
  intros i a (s & Hs & ->)%init_network_lookup.
  change (a_s (init_arc sqrt i s)) with (seg_s s).
  change (a_e (init_arc sqrt i s)) with (seg_e s).
  apply list_elem_of_lookup_2 in Hs.
  split; intros Hj; (eapply rtc_r; [exact Hj|]); exists s; split; auto.
Qed.

(** C9, as the code has it.  [direct_network] reports nothing about an arc
    that no chain of segments joins to the generator: given more fuel than
    there are arcs it returns, and such an arc is in the returned network as
    it was built, not directed, its two node indices still -99, enabled. *)
Theorem unreachable_arc_left_undirected (fuel : nat) (p0 : Z * Z * Z)
    (points : list (Z * Z * Z)) (segs : list (Z * Z * Z * Z)) (i : nat)
    (seg : Z * Z * Z * Z) :
  (length segs < fuel)%nat ->
  segs !! i = Some seg ->
  ~ joined segs (point_xy p0) (seg_s seg) ->
  exists st',
    direct_network max_tot_length fuel (init_nodes (p0 :: points), init_network sqrt segs) 0
      = Done st' /\
    st'.2 !! i = Some (init_arc sqrt i seg) /\
    a_directed (init_arc sqrt i seg) = 0 /\
    a_start (init_arc sqrt i seg) = -99 /\ a_end (init_arc sqrt i seg) = -99.
Proof.
  intros Hfuel Hi Hnj.
  destruct (direct_network_returns max_tot_length fuel
              (init_nodes (p0 :: points), init_network sqrt segs) 0 (init_node 0 p0))
    as (st' & Hrun).
  - apply init_nodes_indexed.
  - reflexivity.
  - pose proof (init_network_undirected segs). simpl. lia.
  - exists st'. split; [done|]. split; [|done].
    apply loop_of_run in Hrun.
    apply (Loop_frame (joined segs (point_xy p0)) _ _ _ _ Hrun 0%nat (init_node 0 p0)).
    + apply init_nodes_indexed.
    + apply init_network_closed.
    + done.
    + done.
    + apply rtc_refl.
    + simpl. apply init_network_lookup. by exists seg.
    + done.
Qed.

End Reach.

Lemma unreachable_arc_left_undirected_witness :
  exists st',
    direct_network 1000 2 (init_nodes [(0, 0, 0); (9, 9, 50); (9, 5, 50)],
                           init_network Village.isqrt [(9, 9, 9, 5)]) 0
      = Done st' /\
    st'.2 !! 0%nat = Some (init_arc Village.isqrt 0 (9, 9, 9, 5)).
Proof.
  destruct (unreachable_arc_left_undirected 1000 Village.isqrt 2 (0, 0, 0)
              [(9, 9, 50); (9, 5, 50)] [(9, 9, 9, 5)] 0 (9, 9, 9, 5))
    as (st' & Hrun & Harc & _).
  - simpl. lia.
  - reflexivity.
  - intros Hj. apply rtc_inv in Hj as [Heq|(q & (s & Hs & Hl) & _)].
    + vm_compute in Heq. discriminate.
    + apply list_elem_of_singleton in Hs. subst s.
      destruct Hl as [[H1 H2]|[H1 H2]]; vm_compute in H1, H2; discriminate.
  - exists st'. split; [exact Hrun|exact Harc].
Defined.

(** C9 fails as stated: with a hundred nodes, [create_network] returns
    although one arc is joined to the generator by no chain of segments; the
    arc stays undirected and is referenced, twice, by the node 99 places
    from the end of the list. *)
Lemma unreachable_arc_silently_kept :
  exists network nodes a n,
    create_network 1000 Village.isqrt 100 Scattered.points Scattered.segments = Done (network, nodes) /\
    network !! 97%nat = Some a /\
    a_directed a = 0 /\ a_start a = -99 /\ a_end a = -99 /\ a_enabled a = 1 /\
    nodes !! 1%nat = Some n /\ n_arcs n = [0; 1; 97; 97].
Proof.
  do 4 eexists.
  split; [vm_compute; reflexivity|].
  split; [reflexivity|].
  repeat split; reflexivity.
Qed.

(** ** The claim of an arc *)

Lemma py_get_nat_inv (nodes : list node) (j : nat) (nd : node) :
  py_get nodes (Z.of_nat j) = Done nd -> nodes !! j = Some nd.
Proof.
  unfold py_get, py_pos. destruct (decide (0 <= Z.of_nat j)); [|lia].
  destruct (decide (Z.of_nat j < Z.of_nat (length nodes))); [|done].
  rewrite Nat2Z.id. by destruct (nodes !! j); intros [= ->].
Qed.

Lemma steady_directed_to st st' i c :
  steady st st' -> directed_to st.2 i c -> directed_to st'.2 i c.
Proof.
  intros (_ & _ & _ & A) (a & Hi & Hd & He).
  destruct (A i a Hi) as (a' & Hi' & Hsame & _). rewrite (Hsame Hd) in Hi'. by exists a.
Qed.

Lemma steady_visited st st' c : steady st st' -> visited st.2 c -> visited st'.2 c.
Proof.
  intros Hs [->|[i Hi]]; [by left|]. right. exists i. by eapply steady_directed_to.
Qed.

Lemma steady_twice st st' : steady st st' -> twice st.2 -> twice st'.2.
Proof.
  intros Hs [[i Hi]|(i & i' & c & Hne & Hi & Hi')].
  - left. exists i. by eapply steady_directed_to.
  - right. exists i, i', c. repeat split; [done|by eapply steady_directed_to..].
Qed.

Lemma steady_anchored st st' : steady st st' -> anchored st -> anchored st'.
Proof.
  intros Hs Ha i a' p Hi' Ht.
  destruct (steady_lookup_arc _ _ _ _ Hs Hi') as (a & Hi & _ & He).
  apply (same_ends_touches _ _ p He) in Ht.
  destruct (Ha i a p Hi Ht) as (j & n & Hj & Hxy).
  destruct (steady_lookup_node _ _ _ _ Hs Hj) as (n' & Hj' & _ & Hxy').
  exists j, n'. split; [done|congruence].
Qed.

Section Tracking.

Variable max_tot_length : Q.

(** The claim of an arc whose end is a node, spelled out. *)
Lemma child_step index st i st1 c pv :
  arc_action max_tot_length index st i = Done (Child st1 c) ->
  indexed st.1 -> index = Z.of_nat pv ->
  exists a0 a nd j nj,
    st.2 !! i = Some a0 /\ a_directed a0 <> 1 /\ st.1 !! pv = Some nd /\
    same_ends a0 a /\ a_s a = xy nd /\ st.1 !! j = Some nj /\ xy nj = a_e a /\
    c = Z.of_nat j /\
    st1 = (<[j := claimed_node nd nj a]> st.1,
           <[i := claimed_arc max_tot_length nd nj a]> st.2) /\
    n_index nd = Z.of_nat pv /\ n_index nj = Z.of_nat j.
Proof.
  intros Hact Hidx ->.
  apply arc_action_claims in Hact as (a0 & a & nd & Hi & Hd & Hnd & He & Hs & _ & _ & Hact);
    [|done].
  symmetry in Hact. apply claim_action_child in Hact as (j & nj & Hj & Hxy & -> & ->).
  apply py_get_nat_inv in Hnd.
  exists a0, a, nd, j, nj. repeat split; try done; by apply Hidx.
Qed.

Lemma leaf_step index st i st1 :
  arc_action max_tot_length index st i = Done (Leaf st1) -> anchored st -> False.
Proof.
  intros Hact Hanc.
  apply arc_action_claims in Hact as (a0 & a & nd & Hi & Hd & Hnd & He & Hs & _ & _ & Hact);
    [|done].
  symmetry in Hact. apply claim_action_leaf in Hact as [Hno _].
  destruct (Hanc i a0 (a_e a) Hi) as (j & n & Hj & Hxy).
  - apply (same_ends_touches _ _ _ (same_ends_sym _ _ He)). by right.
  - apply (Hno n); [by eapply list_elem_of_lookup_2|done].
Qed.

Lemma steady_located st st' a :
  steady st st' -> located st a -> located st' a.
Proof.
  intros Hs (p & c & np & nc & Hp & Hc & Hnp & Hxp & Hnc & Hxc).
  destruct (steady_lookup_node _ _ _ _ Hs Hnp) as (np' & Hnp' & _ & Hxp').
  destruct (steady_lookup_node _ _ _ _ Hs Hnc) as (nc' & Hnc' & _ & Hxc').
  exists p, c, np', nc'. repeat split; try done; congruence.
Qed.

Lemma claimed_node_fields nd nj a :
  n_marg (claimed_node nd nj a) = a_length a /\
  n_tot (claimed_node nd nj a) = (n_tot nd + a_length a)%Q /\
  xy (claimed_node nd nj a) = xy nj /\ n_index (claimed_node nd nj a) = n_index nj.
Proof. done. Qed.

(** The claim of an arc keeps the state tracked, and its end is visited. *)
Lemma child_tracked index st i st1 c pv :
  arc_action max_tot_length index st i = Done (Child st1 c) ->
  indexed st.1 -> index = Z.of_nat pv -> visited st.2 index -> tracked st ->
  tracked st1 /\ visited st1.2 c.
Proof.
  intros Hact Hidx Hpv Hvis Htr.
  pose proof (action_steady _ _ _ _ _ Hact) as (Hs & _ & _).
  destruct (child_step _ _ _ _ _ _ Hact Hidx Hpv)
    as (a0 & a & nd & j & nj & Hi & Hd & Hnd & He & Hsa & Hj & Hxj & -> & -> & Hind & Hinj).
  subst index.
  destruct (claimed_arc_fields max_tot_length nd nj a)
    as (Fd & Fs & Fe & Fas & Fae & Fl & _).
  set (a' := claimed_arc max_tot_length nd nj a) in *.
  set (nj' := claimed_node nd nj a) in *.
  pose proof (lookup_lt_Some _ _ _ Hi) as Hilt.
  pose proof (lookup_lt_Some _ _ _ Hj) as Hjlt.
  assert (directed_to (<[i := a']> st.2) i (Z.of_nat j)) as Hnew.
  { exists a'. rewrite list_lookup_insert_eq by done. repeat split; [done|]. by rewrite Fe. }
  assert (forall k e, directed_to st.2 k e -> k <> i) as Hold.
  { intros k e (b & Hb & Hdb & _) ->. rewrite Hi in Hb. by inversion Hb; subst. }
  assert (visited st.2 (Z.of_nat j) -> twice (<[i := a']> st.2)) as Htwice.
  { intros [H0|[k Hk]].
    - left. exists i. by rewrite <- H0.
    - right. exists k, i, (Z.of_nat j). split; [by eapply Hold|].
      split; [|done]. by apply (steady_directed_to _ _ _ _ Hs). }
  split; [|right; by exists i].
  intros k ak Hk Hdk. simpl in Hk. destruct (decide (k = i)) as [->|Hne].
  - rewrite list_lookup_insert_eq in Hk by done. inversion Hk; subst ak. clear Hk.
    rewrite Fs, Hind. split; [by apply (steady_visited _ _ _ Hs)|]. split.
    + destruct (steady_lookup_node _ _ _ _ Hs Hnd) as (np' & Hnp' & _ & Hxp').
      exists pv, j, np', nj'. split_and!.
      * by rewrite Fs.
      * by rewrite Fe.
      * exact Hnp'.
      * by rewrite Hxp', Fas.
      * simpl. by rewrite list_lookup_insert_eq.
      * by rewrite Fae.
    + destruct (decide (j = pv)) as [->|Hjp]; [right; by apply Htwice|].
      left. exists pv, j, nd, nj'. split_and!.
      * by rewrite Fs.
      * by rewrite Fe.
      * simpl. by rewrite list_lookup_insert_ne.
      * simpl. by rewrite list_lookup_insert_eq.
      * by rewrite Fl.
      * by rewrite Fl.
  - rewrite list_lookup_insert_ne in Hk by done.
    destruct (Htr k ak Hk Hdk) as (Hv & Hloc & Hm).
    split; [by apply (steady_visited _ _ _ Hs)|]. split; [by apply (steady_located _ _ _ Hs)|].
    destruct Hm as [(p & c & np & nc & Hp & Hc & Hnp & Hnc & Hmarg & Htot)|Ht];
      [|right; by apply (steady_twice _ _ Hs)].
    destruct (decide (c = j)) as [->|Hcj].
    { right. right. exists k, i, (Z.of_nat j). split; [done|]. split; [|done].
      exists ak. simpl. rewrite list_lookup_insert_ne by done. by repeat split. }
    destruct (decide (p = j)) as [->|Hpj].
    { right. apply Htwice. by rewrite <- Hp. }
    left. exists p, c, np, nc. split_and!; try done; simpl; by rewrite list_lookup_insert_ne.
Qed.

End Tracking.

(** ** Closing the nodes *)

Lemma steady_closed_at st st' c : steady st st' -> closed_at st c -> closed_at st' c.
Proof.
  intros Hs Hc n' i a' Hn' Ha' Ht.
  destruct (steady_lookup_arc _ _ _ _ Hs Ha') as (a & Ha & Hsame & He).
  destruct (st.1 !! c) as [n|] eqn:Hn.
  - destruct (steady_lookup_node _ _ _ _ Hs Hn) as (m & Hm & _ & Hxy).
    rewrite Hn' in Hm. inversion Hm; subst m.
    assert (a_directed a = 1) as Hd.
    { apply (Hc n i a Hn Ha). apply (same_ends_touches _ _ _ He). by rewrite <- Hxy. }
    by rewrite (Hsame Hd).
  - destruct Hs as (L & _). apply lookup_ge_None in Hn. apply lookup_lt_Some in Hn'. lia.
Qed.

Section Settling.

Variable max_tot_length : Q.

Lemma Loop_tracked index st rest st' :
  Loop max_tot_length index st rest st' ->
  forall pv, indexed st.1 -> anchored st -> index = Z.of_nat pv ->
    visited st.2 index -> tracked st -> tracked st'.
Proof.
  induction 1 as [index st|index st i rest st' Hact _ IH
                 |index st i rest st1 st' Hact _ IH
                 |index st i rest st1 c st2 st' Hact Hc IHc Hloop IH];
    intros pv Hidx Hanc Hpv Hvis Htr.
  - done.
  - by eapply IH.
  - by destruct (leaf_step _ _ _ _ _ Hact Hanc).
  - pose proof (action_steady _ _ _ _ _ Hact) as (Hs1 & _ & j & nj & Hj & Hcj).
    destruct (child_tracked _ _ _ _ _ _ _ Hact Hidx Hpv Hvis Htr) as [Htr1 Hvis1].
    pose proof (Loop_steady _ _ _ _ _ Hc) as [Hs2 _].
    pose proof (steady_trans _ _ _ Hs1 Hs2) as Hs02.
    assert (tracked st2) as Htr2.
    { apply (IHc j); try done.
      - by eapply steady_indexed.
      - by eapply steady_anchored.
      - rewrite Hcj. by apply Hidx. }
    apply (IH pv); try done.
    + by eapply steady_indexed.
    + by eapply steady_anchored.
    + by apply (steady_visited _ _ _ Hs02).
Qed.

Lemma Loop_settles index st rest st' :
  Loop max_tot_length index st rest st' ->
  forall pv P, indexed st.1 -> anchored st -> index = Z.of_nat pv ->
    settled (pv :: P) st ->
    settled (pv :: P) st' /\
    forall i a' n', i ∈ rest -> st'.2 !! i = Some a' -> st'.1 !! pv = Some n' ->
      touches a' (xy n') -> a_directed a' = 1.
Proof.
  induction 1 as [index st|index st i rest st' Hact Hloop IH
                 |index st i rest st1 st' Hact _ IH
                 |index st i rest st1 c st2 st' Hact Hc IHc Hloop IH];
    intros pv P Hidx Hanc Hpv Hset.
  - split; [done|]. by intros i a' n' ?%elem_of_nil.
  - destruct (IH pv P Hidx Hanc Hpv Hset) as [Hset' Hrest]. split; [done|].
    intros k a' n' Hk Ha' Hn' Ht. apply elem_of_cons in Hk as [->|Hk]; [|by eapply Hrest].
    pose proof (Loop_steady _ _ _ _ _ Hloop) as [Hs _].
    destruct (steady_lookup_arc _ _ _ _ Hs Ha') as (a & Ha & Hsame & He).
    destruct (st.1 !! pv) as [nd|] eqn:Hnd.
    + destruct (steady_lookup_node _ _ _ _ Hs Hnd) as (m & Hm & _ & Hxy).
      rewrite Hn' in Hm. inversion Hm; subst m.
      assert (a_directed a = 1) as Hd.
      { eapply (arc_action_skips _ _ _ _ _ nd Hact Ha).
        - subst index. by apply py_get_nat.
        - apply (same_ends_touches _ _ _ He). by rewrite <- Hxy. }
      by rewrite (Hsame Hd).
    + destruct Hs as (L & _). apply lookup_ge_None in Hnd. apply lookup_lt_Some in Hn'. lia.
  - by destruct (leaf_step _ _ _ _ _ Hact Hanc).
  - pose proof (action_steady _ _ _ _ _ Hact) as (Hs1 & _ & _).
    destruct (child_step _ _ _ _ _ _ _ Hact Hidx Hpv)
      as (a0 & a & nd & j & nj & Hi & Hd & Hnd & He & Hsa & Hj & Hxj & Hcj & Hst1 & Hind & Hinj).
    destruct (claimed_arc_fields max_tot_length nd nj a) as (Fd & Fs & Fe & _).
    pose proof (lookup_lt_Some _ _ _ Hi) as Hilt.
    pose proof (Loop_steady _ _ _ _ _ Hc) as [Hs2 _].
    pose proof (Loop_steady _ _ _ _ _ Hloop) as [Hs3 _].
    pose proof (steady_trans _ _ _ Hs1 Hs2) as Hs02.
    assert (settled (j :: pv :: P) st1) as Hset1.
    { intros k ak Hk Hdk. rewrite Hst1 in Hk. simpl in Hk.
      destruct (decide (k = i)) as [->|Hne].
      - rewrite list_lookup_insert_eq in Hk by done. inversion Hk; subst ak.
        exists j. split; [by rewrite Fe|]. left. by left.
      - rewrite list_lookup_insert_ne in Hk by done.
        destruct (Hset k ak Hk Hdk) as (e & He' & [Hin|Hcl]); exists e; (split; [done|]).
        + left. by right.
        + right. by apply (steady_closed_at _ _ _ Hs1). }
    destruct (IHc j (pv :: P)) as [Hset2 Hall2]; try done.
    { by eapply steady_indexed. }
    { by eapply steady_anchored. }
    assert (closed_at st2 j) as Hclj.
    { intros n k ak Hn Hk Ht. apply (Hall2 k ak n); try done.
      apply elem_of_seq. apply lookup_lt_Some in Hk. destruct Hs2 as (_ & M & _). lia. }
    assert (settled (pv :: P) st2) as Hset2'.
    { intros k ak Hk Hdk. destruct (Hset2 k ak Hk Hdk) as (e & He' & [Hin|Hcl]);
        exists e; (split; [done|]); [|by right].
      apply elem_of_cons in Hin as [->|Hin]; [by right|by left]. }
    destruct (IH pv P) as [Hset' Hrest]; try done.
    { by eapply steady_indexed. }
    { by eapply steady_anchored. }
    split; [done|].
    intros k a' n' Hk Ha' Hn' Ht. apply elem_of_cons in Hk as [->|Hk]; [|by eapply Hrest].
    assert (directed_to st1.2 i (Z.of_nat j)) as Hdir.
    { rewrite Hst1. simpl. exists (claimed_arc max_tot_length nd nj a).
      rewrite list_lookup_insert_eq by done. split_and!; [done|done|by rewrite Fe]. }
    apply (steady_directed_to _ _ _ _ (steady_trans _ _ _ Hs2 Hs3)) in Hdir
      as (b & Hb & Hdb & _).
    rewrite Ha' in Hb. by inversion Hb; subst.
Qed.

End Settling.

(** ** On a spanning tree *)

(** A list as long as a list without duplicates that it covers has no
    duplicates either. *)
Lemma NoDup_covering {A : Type} (l l' : list A) :
  NoDup l -> (length l' <= length l)%nat -> (forall x, x ∈ l -> x ∈ l') -> NoDup l'.
Proof.
  intros Hl Hlen Hincl. apply NoDup_ListNoDup.
  eapply List.NoDup_incl_NoDup; [apply NoDup_ListNoDup, Hl|exact Hlen|].
  intros x Hx. apply list_elem_of_In, Hincl, list_elem_of_In, Hx.
Qed.

Section Tree.

Variable max_tot_length : Q.
Variable sqrt : Z -> Q.
Variable points : list (Z * Z * Z).
Variable segs : list (Z * Z * Z * Z).
Hypothesis Htree : spanning_tree points segs.

Lemma init_anchored : anchored (init_nodes points, init_network sqrt segs).
Proof.
  destruct Htree as (_ & _ & Hseg & _).
  intros i a p (s & Hs & ->)%init_network_lookup Ht.
  apply list_elem_of_lookup_2 in Hs. destruct (Hseg s Hs) as [H1 H2].
  assert (p ∈ point_xy <$> points) as Hp by (by destruct Ht as [<-|<-]).
  apply list_elem_of_fmap in Hp as (q & -> & Hq).
  apply list_elem_of_lookup in Hq as [j Hj].
  exists j, (init_node j q). split; [|done]. apply init_nodes_lookup. by exists q.
Qed.

Lemma init_tracked : tracked (init_nodes points, init_network sqrt segs).
Proof. intros i a (s & _ & ->)%init_network_lookup Hd. discriminate. Qed.

Lemma init_settled : settled [0%nat] (init_nodes points, init_network sqrt segs).
Proof. intros i a (s & _ & ->)%init_network_lookup Hd. discriminate. Qed.

Variable st' : state.
Hypothesis Hrun : Loop max_tot_length 0 (init_nodes points, init_network sqrt segs) (seq 0 (length (init_nodes points, init_network sqrt segs).2)) st'.

Lemma final_steady : steady (init_nodes points, init_network sqrt segs) st'.
Proof. by apply Loop_steady in Hrun as [? _]. Qed.

Lemma final_node j n :
  st'.1 !! j = Some n ->
  exists p, points !! j = Some p /\ point_xy p = xy n /\ n_index n = Z.of_nat j.
Proof.
  intros Hn. pose proof final_steady as Hs.
  destruct ((init_nodes points, init_network sqrt segs).1 !! j) as [n0|] eqn:Hn0.
  - destruct (steady_lookup_node _ _ _ _ Hs Hn0) as (m & Hm & Hi & Hxy).
    rewrite Hn in Hm. inversion Hm; subst m.
    apply init_nodes_lookup in Hn0 as (p & Hp & ->). exists p. split; [done|].
    split; [by rewrite Hxy|by rewrite Hi].
  - destruct Hs as (L & _). apply lookup_ge_None in Hn0. apply lookup_lt_Some in Hn. lia.
Qed.

Lemma final_node_unique j j' n n' :
  st'.1 !! j = Some n -> st'.1 !! j' = Some n' -> xy n = xy n' -> j = j'.
Proof.
  intros (p & Hp & Hxy & _)%final_node (p' & Hp' & Hxy' & _)%final_node Heq.
  destruct Htree as (Hnd & _).
  apply (NoDup_lookup _ j j' (xy n) Hnd); rewrite list_lookup_fmap.
  - by rewrite Hp; simpl; rewrite Hxy.
  - by rewrite Hp'; simpl; rewrite Hxy', Heq.
Qed.

Lemma final_tracked : tracked st'.
Proof.
  apply (Loop_tracked _ _ _ _ _ Hrun 0%nat); try done.
  - apply init_nodes_indexed.
  - apply init_anchored.
  - by left.
  - apply init_tracked.
Qed.

Lemma final_settled :
  closed_at st' 0 /\
  forall i a, st'.2 !! i = Some a -> a_directed a = 1 ->
    exists c, a_end a = Z.of_nat c /\ closed_at st' c.
Proof.
  destruct (Loop_settles _ _ _ _ _ Hrun 0%nat []) as [Hset Hall]; try done.
  - apply init_nodes_indexed.
  - apply init_anchored.
  - apply init_settled.
  - assert (closed_at st' 0) as H0.
    { intros n i a Hn Hi Ht. apply (Hall i a n); try done.
      apply elem_of_seq. apply lookup_lt_Some in Hi.
      destruct final_steady as (_ & M & _). lia. }
    split; [done|]. intros i a Hi Hd.
    destruct (Hset i a Hi Hd) as (c & Hc & [Hin|Hcl]); exists c; (split; [done|]); [|done].
    apply list_elem_of_singleton in Hin. by subst c.
Qed.

Lemma visited_closed c : visited st'.2 (Z.of_nat c) -> closed_at st' c.
Proof.
  destruct final_settled as [H0 Hends].
  intros [Hc|(i & a & Hi & Hd & He)].
  - by replace c with 0%nat by lia.
  - destruct (Hends i a Hi Hd) as (c' & Hc' & Hcl). by replace c with c' by lia.
Qed.

(** The arc of the final network at the place of a segment. *)
Lemma final_arc i s :
  segs !! i = Some s ->
  exists a, st'.2 !! i = Some a /\
    ((a_s a = seg_s s /\ a_e a = seg_e s) \/ (a_s a = seg_e s /\ a_e a = seg_s s)).
Proof.
  intros Hs. destruct final_steady as (_ & _ & _ & A).
  destruct (A i (init_arc sqrt i s)) as (a & Ha & _ & He).
  { apply init_network_lookup. by exists s. }
  exists a. split; [done|]. exact He.
Qed.

Lemma every_point_visited p0 p :
  points !! 0%nat = Some p0 -> joined segs (point_xy p0) p ->
  exists j n, st'.1 !! j = Some n /\ xy n = p /\ visited st'.2 (Z.of_nat j).
Proof.
  intros Hp0 Hj. revert p Hj.
  apply (rtc_ind_r (fun p => exists j n,
           st'.1 !! j = Some n /\ xy n = p /\ visited st'.2 (Z.of_nat j)) (point_xy p0)).
  - destruct final_steady as (_ & _ & N & _).
    destruct (N 0%nat (init_node 0 p0)) as (n & Hn & _ & Hxy).
    { apply init_nodes_lookup. by exists p0. }
    exists 0%nat, n. split; [done|]. split; [by rewrite Hxy|by left].
  - intros q r Hq (s & Hs & Hl) (j & n & Hn & Hxy & Hv).
    apply list_elem_of_lookup in Hs as [i Hi].
    destruct (final_arc i s Hi) as (a & Ha & Hends).
    assert (touches a q /\ touches a r) as [Htq Htr].
    { unfold touches. destruct Hends as [[-> ->]|[-> ->]], Hl as [[-> ->]|[-> ->]]; auto. }
    assert (a_directed a = 1) as Hd.
    { apply (visited_closed j Hv n i a Hn Ha). by rewrite Hxy. }
    destruct (final_tracked i a Ha Hd)
      as (Hvs & (ps & pe & ns & ne & Hps & Hpe & Hns & Hxs & Hne & Hxe) & _).
    destruct Htr as [Hr|Hr].
    + exists ps, ns. split; [done|]. split; [congruence|]. by rewrite <- Hps.
    + exists pe, ne. split; [done|]. split; [congruence|]. right. exists i, a. by rewrite <- Hpe.
Qed.

Lemma every_node_visited j n : st'.1 !! j = Some n -> visited st'.2 (Z.of_nat j).
Proof.
  intros Hn. destruct (final_node j n Hn) as (p & Hp & Hxy & _).
  destruct Htree as (_ & _ & _ & p0 & Hp0 & Hjoin).
  destruct (every_point_visited p0 (point_xy p) Hp0) as (j' & n' & Hn' & Hxy' & Hv).
  { apply Hjoin. by eapply list_elem_of_lookup_2. }
  by rewrite (final_node_unique j j' n n' Hn Hn') by congruence.
Qed.

Lemma every_arc_directed i a : st'.2 !! i = Some a -> a_directed a = 1.
Proof.
  intros Ha.
  destruct (steady_anchored _ _ final_steady init_anchored i a (a_s a) Ha) as (j & n & Hn & Hxy);
    [by left|].
  apply (visited_closed j (every_node_visited j n Hn) n i a Hn Ha). left. by rewrite Hxy.
Qed.

(** No node is reached twice: node 0 and the ends of the arcs are as many
    as the nodes, and every node is among them. *)
Lemma ends_distinct : NoDup (0 :: (a_end <$> st'.2)).
Proof.
  destruct final_steady as (L & M & _). destruct Htree as (_ & Hlen & _).
  apply (NoDup_covering (Z.of_nat <$> seq 0 (length st'.1))).
  - apply NoDup_fmap_2; [apply Nat2Z.inj'|apply NoDup_seq].
  - simpl. rewrite !length_fmap, length_seq, L, M. simpl.
    unfold init_nodes, init_network. rewrite !length_imap. lia.
  - intros x (j & -> & Hj)%list_elem_of_fmap. apply elem_of_seq in Hj.
    destruct (lookup_lt_is_Some_2 st'.1 j) as [n Hn]; [lia|].
    destruct (every_node_visited j n Hn) as [H0|(i & a & Hi & _ & He)].
    + rewrite H0. by left.
    + right. apply list_elem_of_fmap. exists a. split; [done|by eapply list_elem_of_lookup_2].
Qed.

Lemma never_twice : ~ twice st'.2.
Proof.
  pose proof ends_distinct as Hnd. apply NoDup_cons in Hnd as [H0 Hnd].
  intros [(i & a & Hi & _ & He)|(i & i' & c & Hne & (a & Hi & _ & He) & (b & Hi' & _ & He'))].
  - apply H0. apply list_elem_of_fmap. exists a. split; [done|by eapply list_elem_of_lookup_2].
  - apply Hne. apply (NoDup_lookup _ i i' c Hnd); rewrite list_lookup_fmap.
    + by rewrite Hi; simpl; rewrite He.
    + by rewrite Hi'; simpl; rewrite He'.
Qed.

End Tree.


Lemma village_spanning_tree : spanning_tree Village.points Village.segments.
Proof.
  split_and!.
  - apply (bool_decide_unpack _). vm_compute. exact I.
  - reflexivity.
  - intros s Hs. apply list_elem_of_In in Hs. simpl in Hs.
    destruct Hs as [<-|[<-|[]]]; split; apply list_elem_of_In; simpl; auto.
  - exists (0, 0, 0). split; [reflexivity|].
    assert (linked Village.segments (0, 0) (3, 0)) as H01.
    { exists (3, 0, 0, 0). split; [by left|]. by right. }
    assert (linked Village.segments (3, 0) (3, 4)) as H12.
    { exists (3, 0, 3, 4). split; [right; by left|]. by left. }
    intros p Hp. apply list_elem_of_In in Hp. simpl in Hp.
    destruct Hp as [<-|[<-|[<-|[]]]].
    + apply rtc_refl.
    + by apply rtc_once.
    + eapply rtc_l; [exact H01|by apply rtc_once].
Qed.


(** ** The village, as [create_network] builds it *)

Lemma village_created :
  create_network 1000 Village.isqrt 3 Village.points Village.segments
    = Done (Village.network, Village.nodes).
Proof. vm_compute. reflexivity. Qed.

Lemma village_created_short :
  create_network 4 Village.isqrt 3 Village.points Village.segments
    = Done (Village.short_network, Village.nodes).
Proof. vm_compute. reflexivity. Qed.

End DirectorFacts.

(** * More on the director *)

Module DirectorMore.
Import Director Shape DirectorFacts.

(** ** What [direct_network] keeps *)

Lemma kept_node_refl n : kept_node n n.
Proof. by repeat split. Qed.

Lemma kept_arc_refl a : kept_arc a a.
Proof. repeat split; auto. apply same_ends_refl. Qed.

Lemma kept_node_trans n1 n2 n3 : kept_node n1 n2 -> kept_node n2 n3 -> kept_node n1 n3.
Proof. unfold kept_node. intuition congruence. Qed.

Lemma kept_arc_trans a1 a2 a3 : kept_arc a1 a2 -> kept_arc a2 a3 -> kept_arc a1 a3.
Proof.
  intros (I1 & L1 & E1 & En1 & D1) (I2 & L2 & E2 & En2 & D2).
  split_and!; [congruence|congruence|by eapply same_ends_trans| |].
  - destruct En1, En2; [left|right|right|right]; congruence.
  - destruct D1, D2; [left|right|right|right]; congruence.
Qed.

Lemma kept_refl st : kept st st.
Proof.
  split_and!; try done.
  - intros j n Hj. exists n. split; [done|apply kept_node_refl].
  - intros i a Hi. exists a. split; [done|apply kept_arc_refl].
Qed.

Lemma kept_trans s1 s2 s3 : kept s1 s2 -> kept s2 s3 -> kept s1 s3.
Proof.
  intros (L1 & M1 & N1 & A1) (L2 & M2 & N2 & A2). split_and!; try congruence.
  - intros j n Hj. destruct (N1 j n Hj) as (n' & Hj' & Hk').
    destruct (N2 j n' Hj') as (n'' & Hj'' & Hk''). exists n''.
    split; [done|by eapply kept_node_trans].
  - intros i a Hi. destruct (A1 i a Hi) as (a' & Hi' & Hk').
    destruct (A2 i a' Hi') as (a'' & Hi'' & Hk''). exists a''.
    split; [done|by eapply kept_arc_trans].
Qed.

Lemma kept_insert_arc (st : state) (i : nat) (a0 a' : arc) :
  st.2 !! i = Some a0 -> kept_arc a0 a' -> kept st (st.1, <[i := a']> st.2).
Proof.
  intros Hi Hk. split_and!; simpl; try done.
  - by rewrite length_insert.
  - intros j n Hj. exists n. split; [done|apply kept_node_refl].
  - intros k a Hk'. destruct (decide (k = i)) as [->|Hne].
    + exists a'. rewrite list_lookup_insert_eq by (by eapply lookup_lt_Some).
      rewrite Hi in Hk'. by inversion Hk'; subst.
    + exists a. rewrite list_lookup_insert_ne by done. split; [done|apply kept_arc_refl].
Qed.

Lemma kept_insert_node (st : state) (j : nat) (nj nj' : node) :
  st.1 !! j = Some nj -> kept_node nj nj' -> kept st (<[j := nj']> st.1, st.2).
Proof.
  intros Hj Hk. split_and!; simpl; try done.
  - by rewrite length_insert.
  - intros k n Hk'. destruct (decide (k = j)) as [->|Hne].
    + exists nj'. rewrite list_lookup_insert_eq by (by eapply lookup_lt_Some).
      rewrite Hj in Hk'. by inversion Hk'; subst.
    + exists n. rewrite list_lookup_insert_ne by done. split; [done|apply kept_node_refl].
  - intros i a Hi. exists a. split; [done|apply kept_arc_refl].
Qed.

Section Kept.

Variable max_tot_length : Q.

(** The arc that a claim writes is the arc read, as it is or flipped. *)
Lemma arc_action_orients index st i act :
  arc_action max_tot_length index st i = Done act -> act <> Skip ->
  exists a0 a nd,
    st.2 !! i = Some a0 /\ a_directed a0 <> 1 /\ py_get st.1 index = Done nd /\
    (a = a0 \/ a = flip_arc a0) /\
    act = claim_action max_tot_length st nd i a.
Proof.
  unfold arc_action. intros Hact Hne.
  destruct (st.2 !! i) as [a0|]; [|by inversion Hact; subst].
  apply bind_Done in Hact as (nd & Hnd & Hact).
  destruct (decide (at_start a0 nd)) as [_|_].
  - destruct (decide (a_directed a0 = 1)); [by inversion Hact; subst|].
    inversion Hact; subst act. exists a0, a0, nd. split_and!; auto.
  - destruct (decide (at_end a0 nd)) as [_|_]; [|by inversion Hact; subst].
    destruct (decide (a_directed a0 = 1)); [by inversion Hact; subst|].
    inversion Hact; subst act. exists a0, (flip_arc a0), nd. split_and!; auto.
Qed.

Lemma kept_arc_oriented (a0 a : arc) : a = a0 \/ a = flip_arc a0 -> kept_arc a0 a.
Proof.
  intros [->| ->]; [apply kept_arc_refl|].
  split_and!; simpl; auto. by right.
Qed.

Lemma action_kept index st i act :
  arc_action max_tot_length index st i = Done act ->
  match act with
  | Skip => True
  | Leaf st1 => kept st st1
  | Child st1 c => kept st st1
  end.
Proof.
  intros Hact. destruct act as [|st1|st1 c]; [done| |].
  - apply arc_action_orients in Hact as (a0 & a & nd & Hi & Hd & Hnd & Ho & Hact); [|done].
    symmetry in Hact. apply claim_action_leaf in Hact as [_ ->].
    apply (kept_insert_arc st i a0); [done|].
    apply (kept_arc_trans a0 a); [by apply kept_arc_oriented|].
    split_and!; simpl; auto. by left.
  - apply arc_action_orients in Hact as (a0 & a & nd & Hi & Hd & Hnd & Ho & Hact); [|done].
    symmetry in Hact. apply claim_action_child in Hact as (j & nj & Hj & Hxy & -> & ->).
    eapply kept_trans.
    + apply (kept_insert_node st j nj (claimed_node nd nj a)); [done|by repeat split].
    + apply (kept_insert_arc (<[j := claimed_node nd nj a]> st.1, st.2) i a0); [done|].
      apply (kept_arc_trans a0 a); [by apply kept_arc_oriented|].
      unfold claimed_arc. destruct (Qlt_le_dec _ _); split_and!; simpl; auto;
        by left.
Qed.

Lemma Loop_kept index st rest st' :
  Loop max_tot_length index st rest st' -> kept st st'.
Proof.
  induction 1 as [index st|index st i rest st' Hact _ IH
                 |index st i rest st1 st' Hact _ IH
                 |index st i rest st1 c st2 st' Hact _ IHc _ IH].
  - apply kept_refl.
  - done.
  - apply action_kept in Hact. by eapply kept_trans.
  - apply action_kept in Hact. eapply kept_trans; [exact Hact|]. by eapply kept_trans.
Qed.

Lemma direct_network_kept_helper (fuel : nat) (st : state) (index : Z) (st' : state) :
  direct_network max_tot_length fuel st index = Done st' -> kept st st'.
Proof. intros Hrun. apply loop_of_run in Hrun. by eapply Loop_kept. Qed.

(** X8.  Whenever [direct_network] returns, from any state and any node,
    both lists have kept their length; every node has kept its index, its
    place, its area, its connected flag and its arc list (only the two
    distances are written); every arc has kept its index and its length and
    its two end points up to a swap, an arc that was directed still is, and
    an enabled flag is either kept or cleared to 0. *)
Theorem direct_network_keeps (fuel : nat) (st : state) (index : Z) (st' : state) :
  direct_network max_tot_length fuel st index = Done st' -> kept st st'.
Proof. apply direct_network_kept_helper. Qed.

Variable sqrt : Z -> Q.

(** X9.  [direct_network] returns on every input that [create_network]
    can build, tree or not: with at least the generator among the points
    and more fuel than there are segments it ends, making at most one
    recursive call for each segment, whatever cycles, repeated segments or
    stray segments the list holds. *)
Theorem direct_network_always_returns (fuel : nat) (p0 : Z * Z * Z)
    (points : list (Z * Z * Z)) (segs : list (Z * Z * Z * Z)) :
  (length segs < fuel)%nat ->
  exists st',
    direct_network max_tot_length fuel (init_nodes (p0 :: points), init_network sqrt segs) 0
      = Done st' /\
    length st'.1 = S (length points) /\ length st'.2 = length segs.
Proof.
  intros Hfuel.
  destruct (direct_network_returns max_tot_length fuel
              (init_nodes (p0 :: points), init_network sqrt segs) 0 (init_node 0 p0))
    as (st' & Hrun).
  - apply init_nodes_indexed.
  - reflexivity.
  - pose proof (init_network_undirected sqrt segs). simpl. lia.
  - exists st'. split; [done|].
    apply loop_of_run, Loop_steady in Hrun as [(L & M & _) _]. simpl in L, M.
    rewrite L, M. unfold init_nodes, init_network. rewrite !length_imap. done.
Qed.

End Kept.

Lemma direct_network_keeps_witness :
  exists st',
    direct_network 1000 3 (init_nodes Village.points,
                           init_network Village.isqrt Village.segments) 0 = Done st' /\
    kept (init_nodes Village.points, init_network Village.isqrt Village.segments) st'.
Proof.
  destruct (direct_network 1000 3 (init_nodes Village.points,
                                   init_network Village.isqrt Village.segments) 0)
    as [st'| |] eqn:Hrun; [|vm_compute in Hrun; discriminate..].
  exists st'. split; [reflexivity|].
  exact (direct_network_keeps 1000 3 _ 0 st' Hrun).
Defined.

Lemma direct_network_always_returns_witness :
  exists st',
    direct_network 5 4 (init_nodes [(0, 0, 0); (3, 0, 10); (3, 4, 10)],
                        init_network Village.isqrt
                          [(0, 0, 3, 0); (3, 0, 3, 4); (3, 4, 0, 0)]) 0 = Done st'.
Proof.
  destruct (direct_network_always_returns 5 Village.isqrt 4 (0, 0, 0)
              [(3, 0, 10); (3, 4, 10)] [(0, 0, 3, 0); (3, 0, 3, 4); (3, 4, 0, 0)])
    as (st' & Hrun & _).
  - simpl. lia.
  - exists st'. exact Hrun.
Defined.

(** ** The reach and the generator *)

Section Checking.

Variable max_tot_length : Q.

Lemma child_orients index st i st1 c pv :
  arc_action max_tot_length index st i = Done (Child st1 c) ->
  indexed st.1 -> index = Z.of_nat pv ->
  exists a0 a nd j nj,
    st.2 !! i = Some a0 /\ a_directed a0 <> 1 /\ st.1 !! pv = Some nd /\
    (a = a0 \/ a = flip_arc a0) /\ st.1 !! j = Some nj /\ c = Z.of_nat j /\
    st1 = (<[j := claimed_node nd nj a]> st.1,
           <[i := claimed_arc max_tot_length nd nj a]> st.2).
Proof.
  intros Hact Hidx ->.
  apply arc_action_orients in Hact as (a0 & a & nd & Hi & Hd & Hnd & Ho & Hact); [|done].
  symmetry in Hact. apply claim_action_child in Hact as (j & nj & Hj & Hxy & -> & ->).
  apply py_get_nat_inv in Hnd.
  exists a0, a, nd, j, nj. split_and!; try done. by apply Hidx.
Qed.

Lemma child_checked index st i st1 c pv :
  arc_action max_tot_length index st i = Done (Child st1 c) ->
  indexed st.1 -> index = Z.of_nat pv -> checked max_tot_length st ->
  checked max_tot_length st1.
Proof.
  intros Hact Hidx Hpv (Hun & Hdir & Hnode).
  pose proof (action_steady _ _ _ _ _ Hact) as (Hs & _ & _).
  destruct (child_orients _ _ _ _ _ _ Hact Hidx Hpv)
    as (a0 & a & nd & j & nj & Hi & Hd & Hnd & Ho & Hj & -> & ->).
  pose proof (lookup_lt_Some _ _ _ Hi) as Hilt.
  pose proof (lookup_lt_Some _ _ _ Hj) as Hjlt.
  assert (a_enabled a = 1) as Hen.
  { rewrite <- (Hun i a0 Hi Hd). by destruct Ho as [->| ->]. }
  assert (a_directed (claimed_arc max_tot_length nd nj a) = 1 /\
          a_end (claimed_arc max_tot_length nd nj a) = Z.of_nat j /\
          a_enabled (claimed_arc max_tot_length nd nj a)
            = (if Qlt_le_dec max_tot_length (n_tot (claimed_node nd nj a)) then 0 else 1))
    as (Fd & Fe & Fen).
  { unfold claimed_arc, claimed_node. simpl.
    destruct (Qlt_le_dec _ _); simpl; split_and!; try done; by apply Hidx. }
  set (a' := claimed_arc max_tot_length nd nj a) in *.
  set (nj' := claimed_node nd nj a) in *.
  assert (directed_to (<[i := a']> st.2) i (Z.of_nat j)) as Hnew.
  { exists a'. by rewrite list_lookup_insert_eq. }
  split_and!; simpl.
  - intros k ak Hk Hdk. destruct (decide (k = i)) as [->|Hne].
    + rewrite list_lookup_insert_eq in Hk by done. inversion Hk; subst ak. done.
    + rewrite list_lookup_insert_ne in Hk by done. by eapply Hun.
  - intros k ak Hk Hdk. destruct (decide (k = i)) as [->|Hne].
    + rewrite list_lookup_insert_eq in Hk by done. inversion Hk; subst ak.
      left. exists j, nj'. split_and!; [done| |done]. simpl. by rewrite list_lookup_insert_eq.
    + rewrite list_lookup_insert_ne in Hk by done.
      destruct (Hdir k ak Hk Hdk) as [(c & nc & Hc & Hnc & Hec)|Ht];
        [|right; by apply (steady_twice _ _ Hs)].
      destruct (decide (c = j)) as [->|Hcj].
      * right. right. exists k, i, (Z.of_nat j). split; [done|]. split; [|done].
        exists ak. by rewrite list_lookup_insert_ne.
      * left. exists c, nc. split_and!; try done. simpl. by rewrite list_lookup_insert_ne.
  - intros k n Hk. destruct (decide (k = j)) as [->|Hne]; [right; by exists i|].
    rewrite list_lookup_insert_ne in Hk by done.
    destruct (Hnode k n Hk) as [H0|[i' Hi']]; [by left|].
    right. exists i'. by apply (steady_directed_to _ _ _ _ Hs).
Qed.

Lemma Loop_checked index st rest st' :
  Loop max_tot_length index st rest st' ->
  forall pv, indexed st.1 -> anchored st -> index = Z.of_nat pv ->
    checked max_tot_length st -> checked max_tot_length st'.
Proof.
  induction 1 as [index st|index st i rest st' Hact _ IH
                 |index st i rest st1 st' Hact _ IH
                 |index st i rest st1 c st2 st' Hact Hc IHc Hloop IH];
    intros pv Hidx Hanc Hpv Hch.
  - done.
  - by eapply IH.
  - by destruct (leaf_step _ _ _ _ _ Hact Hanc).
  - pose proof (action_steady _ _ _ _ _ Hact) as (Hs1 & _ & j & nj & Hj & Hcj).
    pose proof (child_checked _ _ _ _ _ _ Hact Hidx Hpv Hch) as Hch1.
    pose proof (Loop_steady _ _ _ _ _ Hc) as [Hs2 _].
    pose proof (steady_trans _ _ _ Hs1 Hs2) as Hs02.
    assert (checked max_tot_length st2) as Hch2.
    { apply (IHc j); try done.
      - by eapply steady_indexed.
      - by eapply steady_anchored.
      - rewrite Hcj. by apply Hidx. }
    apply (IH pv); try done.
    + by eapply steady_indexed.
    + by eapply steady_anchored.
Qed.

Variable sqrt : Z -> Q.

Lemma init_checked (points : list (Z * Z * Z)) (segs : list (Z * Z * Z * Z)) :
  checked max_tot_length (init_nodes points, init_network sqrt segs).
Proof.
  split_and!.
  - by intros i a (s & _ & ->)%init_network_lookup _.
  - intros i a (s & _ & ->)%init_network_lookup Hd. discriminate.
  - intros j n (p & _ & ->)%init_nodes_lookup. by left.
Qed.

Lemma tree_checked (fuel : nat) (points : list (Z * Z * Z)) (segs : list (Z * Z * Z * Z)) :
  spanning_tree points segs -> (length segs < fuel)%nat ->
  exists st',
    direct_network max_tot_length fuel (init_nodes points, init_network sqrt segs) 0 = Done st' /\
    checked max_tot_length st' /\ ~ twice st'.2 /\
    forall i a, st'.2 !! i = Some a -> a_directed a = 1.
Proof.
  intros Htree Hfuel.
  assert (exists p0, points !! 0%nat = Some p0) as [p0 Hp0].
  { destruct Htree as (_ & _ & _ & p0 & Hp0 & _). by exists p0. }
  destruct (direct_network_returns max_tot_length fuel
              (init_nodes points, init_network sqrt segs) 0 (init_node 0 p0))
    as (st' & Hrun).
  { apply init_nodes_indexed. }
  { apply (py_get_nat _ 0). apply init_nodes_lookup. by exists p0. }
  { pose proof (init_network_undirected sqrt segs). simpl. lia. }
  exists st'. split; [done|]. apply loop_of_run in Hrun. split_and!.
  - apply (Loop_checked _ _ _ _ Hrun 0%nat); try done.
    + apply init_nodes_indexed.
    + by apply init_anchored.
    + apply init_checked.
  - exact (never_twice _ _ _ _ Htree _ Hrun).
  - exact (every_arc_directed _ _ _ _ Htree _ Hrun).
Qed.

(** X10.  On a spanning tree rooted at node 0, the enabled flag that
    [direct_network] leaves on an arc is the reach test of the node at its
    directed end: the arc is disabled when that node's total distance from
    the generator exceeds [max_tot_length], and enabled otherwise. *)
Theorem reach_limit_on_tree (fuel : nat) (points : list (Z * Z * Z))
    (segs : list (Z * Z * Z * Z)) :
  spanning_tree points segs ->
  (length segs < fuel)%nat ->
  exists nodes network,
    direct_network max_tot_length fuel (init_nodes points, init_network sqrt segs) 0
      = Done (nodes, network) /\
    forall i a, network !! i = Some a ->
      exists c nc, a_end a = Z.of_nat c /\ nodes !! c = Some nc /\
        ((a_enabled a = 0 /\ (max_tot_length < n_tot nc)%Q) \/
         (a_enabled a = 1 /\ (n_tot nc <= max_tot_length)%Q)).
Proof.
  intros Htree Hfuel.
  destruct (tree_checked fuel points segs Htree Hfuel)
    as ([nodes network] & Hrun & (_ & Hdir & _) & Hnever & Hall).
  exists nodes, network. split; [done|]. intros i a Hi. simpl in *.
  destruct (Hdir i a Hi (Hall i a Hi)) as [(c & nc & Hc & Hnc & Hen)|Ht]; [|done].
  exists c, nc. split_and!; try done. simpl in Hnc.
  destruct (Qlt_le_dec max_tot_length (n_tot nc)); [by left|by right].
Qed.

(** X11.  On a spanning tree rooted at node 0, [direct_network] never
    writes the distances of the generator: node 0 is returned with the
    marginal and total distance 0 it was built with. *)
Theorem generator_distance_zero (fuel : nat) (points : list (Z * Z * Z))
    (segs : list (Z * Z * Z * Z)) :
  spanning_tree points segs ->
  (length segs < fuel)%nat ->
  exists nodes network n0,
    direct_network max_tot_length fuel (init_nodes points, init_network sqrt segs) 0
      = Done (nodes, network) /\
    nodes !! 0%nat = Some n0 /\ n_marg n0 = 0%Q /\ n_tot n0 = 0%Q.
Proof.
  intros Htree Hfuel.
  destruct (tree_checked fuel points segs Htree Hfuel)
    as ([nodes network] & Hrun & (_ & _ & Hnode) & Hnever & _).
  pose proof Hrun as Hs. apply loop_of_run, Loop_steady in Hs as [(L & _) _].
  destruct (lookup_lt_is_Some_2 nodes 0%nat) as [n0 Hn0].
  { simpl in L. rewrite L. unfold init_nodes. rewrite length_imap.
    destruct Htree as (_ & -> & _). lia. }
  exists nodes, network, n0. split; [done|]. split; [done|].
  destruct (Hnode 0%nat n0 Hn0) as [H0|[i Hi]]; [done|].
  destruct Hnever. left. by exists i.
Qed.

End Checking.

Lemma reach_limit_on_tree_witness :
  exists nodes network,
    direct_network 4 3 (init_nodes Village.points,
                        init_network Village.isqrt Village.segments) 0
      = Done (nodes, network) /\
    forall i a, network !! i = Some a ->
      exists c nc, a_end a = Z.of_nat c /\ nodes !! c = Some nc /\
        ((a_enabled a = 0 /\ (4 < n_tot nc)%Q) \/ (a_enabled a = 1 /\ (n_tot nc <= 4)%Q)).
Proof.
  apply (reach_limit_on_tree 4 Village.isqrt 3 Village.points Village.segments).
  - exact village_spanning_tree.
  - simpl. lia.
Defined.

Lemma generator_distance_zero_witness :
  exists nodes network n0,
    direct_network 4 3 (init_nodes Village.points,
                        init_network Village.isqrt Village.segments) 0
      = Done (nodes, network) /\
    nodes !! 0%nat = Some n0 /\ n_marg n0 = 0%Q /\ n_tot n0 = 0%Q.
Proof.
  apply (generator_distance_zero 4 Village.isqrt 3 Village.points Village.segments).
  - exact village_spanning_tree.
  - simpl. lia.
Defined.

(** ** The reference pass *)

Lemma with_arcs_nil n : with_arcs [] n = n.
Proof. destruct n. unfold with_arcs. simpl. by rewrite app_nil_r. Qed.

Lemma with_arcs_append v l n : with_arcs l (append_arc v n) = with_arcs (v :: l) n.
Proof. unfold with_arcs, append_arc. simpl. by rewrite <- app_assoc. Qed.

Lemma with_arcs_app l l' n : with_arcs l' (with_arcs l n) = with_arcs (l ++ l') n.
Proof. unfold with_arcs. simpl. by rewrite <- app_assoc. Qed.

Lemma py_pos_nat (len p : nat) : (p < len)%nat -> py_pos len (Z.of_nat p) = Some p.
Proof.
  intros Hp. unfold py_pos. destruct (decide (0 <= Z.of_nat p)); [|lia].
  destruct (decide (Z.of_nat p < Z.of_nat len)); [|lia]. by rewrite Nat2Z.id.
Qed.

Lemma py_pos_low (len : nat) (v : Z) : v < - Z.of_nat len -> py_pos len v = None.
Proof.
  intros Hv. unfold py_pos. destruct (decide (0 <= v)); [lia|].
  destruct (decide (- Z.of_nat len <= v)); [lia|done].
Qed.

(** One iteration of the reference pass. *)
Lemma reference_step (nodes : list node) (a : arc) (p c : nat) :
  py_pos (length nodes) (a_start a) = Some p ->
  py_pos (length nodes) (a_end a) = Some c ->
  (nodes1 ← py_alter (append_arc (a_index a)) nodes (a_start a);
   py_alter (append_arc (a_index a)) nodes1 (a_end a))
  = Done (alter (append_arc (a_index a)) c (alter (append_arc (a_index a)) p nodes)).
Proof.
  intros Hp Hc. unfold py_alter at 2. rewrite Hp. simpl.
  unfold py_alter. by rewrite length_alter, Hc.
Qed.

Lemma add_references_closed (network : list arc) (nodes : list node) :
  Forall (in_range (length nodes)) network ->
  add_references nodes network
    = Done (imap (fun j n => with_arcs (refs (length nodes) j network) n) nodes).
Proof.
  unfold add_references. revert nodes.
  induction network as [|a rest IH]; intros nodes Hall.
  - simpl. f_equal. apply list_eq. intros j. rewrite list_lookup_imap.
    destruct (nodes !! j) as [n|]; simpl; [|done]. by rewrite with_arcs_nil.
  - apply Forall_cons in Hall as [[[p Hp] [c Hc]] Hall].
    cbn [for_each]. rewrite (reference_step nodes a p c Hp Hc).
    change (Done ?x ≫= ?f) with (f x). cbv beta.
    rewrite IH by (by rewrite !length_alter). rewrite !length_alter.
    f_equal. apply list_eq. intros j. rewrite !list_lookup_imap.
    set (v := a_index a).
    assert (forall n, with_arcs (refs (length nodes) j rest)
                        ((if decide (c = j) then append_arc v else id)
                           ((if decide (p = j) then append_arc v else id) n))
                      = with_arcs (refs (length nodes) j (a :: rest)) n) as Hone.
    { intros n. unfold refs at 2. cbn [mbind list_bind]. fold (refs (length nodes) j rest).
      rewrite Hp, Hc. fold v.
      destruct (decide (c = j)) as [->|Hcj], (decide (p = j)) as [->|Hpj];
        repeat case_decide; try congruence;
        unfold id; rewrite ?with_arcs_append; cbn [app]; done. }
    destruct (decide (c = j)) as [->|Hcj], (decide (p = j)) as [->|Hpj];
      rewrite ?list_lookup_alter_eq, ?(list_lookup_alter_ne _ _ _ _ Hcj),
              ?list_lookup_alter_eq, ?(list_lookup_alter_ne _ _ _ _ Hpj);
      destruct (nodes !! j) as [n|]; simpl; try done; by rewrite <- Hone.
Qed.

Lemma reference_step_raises (nodes : list node) (a : arc) :
  ~ in_range (length nodes) a ->
  (nodes1 ← py_alter (append_arc (a_index a)) nodes (a_start a);
   py_alter (append_arc (a_index a)) nodes1 (a_end a))
  = Raise IndexError.
Proof.
  intros Hno. unfold py_alter at 2.
  destruct (py_pos (length nodes) (a_start a)) as [p|] eqn:Hp; [|done].
  simpl. unfold py_alter. rewrite length_alter.
  destruct (py_pos (length nodes) (a_end a)) as [c|] eqn:Hc; [|done].
  destruct Hno. split; [by rewrite Hp|by rewrite Hc].
Qed.

Lemma add_references_raises (network : list arc) (nodes : list node) :
  ~ Forall (in_range (length nodes)) network ->
  add_references nodes network = Raise IndexError.
Proof.
  unfold add_references. revert nodes.
  induction network as [|a rest IH]; intros nodes Hall; [by destruct Hall|].
  cbn [for_each].
  destruct (decide (in_range (length nodes) a)) as [[[p Hp] [c Hc]]|Hno].
  - rewrite (reference_step nodes a p c Hp Hc).
    change (Done ?x ≫= ?f) with (f x). cbv beta. apply IH. rewrite !length_alter.
    intros Hrest. apply Hall. apply Forall_cons. split; [|done].
    split; [by rewrite Hp|by rewrite Hc].
  - by rewrite (reference_step_raises nodes a Hno).
Qed.

Lemma elem_of_refs (len j : nat) (network : list arc) (v : Z) :
  v ∈ refs len j network <->
  exists a, a ∈ network /\ v = a_index a /\
    (py_pos len (a_start a) = Some j \/ py_pos len (a_end a) = Some j).
Proof.
  unfold refs. rewrite list_elem_of_bind. split.
  - intros (a & Hv & Ha). exists a. split; [done|].
    apply elem_of_app in Hv as [Hv|Hv]; case_decide; try (by apply elem_of_nil in Hv);
      apply list_elem_of_singleton in Hv; auto.
  - intros (a & Ha & -> & Hj). exists a. split; [|done]. apply elem_of_app.
    destruct Hj as [Hj|Hj]; [left|right]; rewrite decide_True by done;
      by apply list_elem_of_singleton.
Qed.

(** X12.  The reference pass of [create_network] returns exactly when
    both node indices of every arc are positions of the node list as
    Python reads them (negative ones from the end), and raises IndexError
    otherwise; when it returns, every node has got appended the indices of
    the arcs that start or end at it, in the order of the network, an arc
    that starts and ends at the same node twice, and nothing else of a
    node has changed. *)
Theorem add_references_result (nodes : list node) (network : list arc) :
  add_references nodes network
  = if decide (Forall (in_range (length nodes)) network)
    then Done (imap (fun j n => with_arcs (refs (length nodes) j network) n) nodes)
    else Raise IndexError.
Proof.
  case_decide; [by apply add_references_closed|by apply add_references_raises].
Qed.

(** [create_network] with at least two buildings, and with fewer. *)
Lemma create_network_bound (max_tot_length : Q) (sqrt : Z -> Q) (fuel : nat)
    (points : list (Z * Z * Z)) (segs : list (Z * Z * Z * Z)) :
  (3 <= length points)%nat ->
  create_network max_tot_length sqrt fuel points segs
  = (st ← direct_network max_tot_length fuel (init_nodes points, init_network sqrt segs) 0;
     nodes ← add_references st.1 st.2;
     mret (st.2, nodes)).
Proof. intros H. unfold create_network. by rewrite decide_True by lia. Qed.

Lemma create_network_unbound (max_tot_length : Q) (sqrt : Z -> Q) (fuel : nat)
    (points : list (Z * Z * Z)) (segs : list (Z * Z * Z * Z)) :
  (length points < 3)%nat ->
  create_network max_tot_length sqrt fuel points segs = Raise UnboundLocalError.
Proof. intros H. unfold create_network. by rewrite decide_False by lia. Qed.

Section Creating.

Variable max_tot_length : Q.
Variable sqrt : Z -> Q.

(** X13.  With fewer than 99 points, [create_network] raises as soon as
    one segment is joined to the generator by no chain of segments:
    IndexError with at least two buildings, where the arc keeps the node
    indices -99 it was built with and the reference pass looks up
    [nodes[-99]], and UnboundLocalError with fewer, where the segments were
    never computed. *)
Theorem stray_segment_raises (fuel : nat) (p0 : Z * Z * Z)
    (points : list (Z * Z * Z)) (segs : list (Z * Z * Z * Z)) (i : nat)
    (seg : Z * Z * Z * Z) :
  (length segs < fuel)%nat ->
  (S (length points) < 99)%nat ->
  segs !! i = Some seg ->
  ~ joined segs (point_xy p0) (seg_s seg) ->
  create_network max_tot_length sqrt fuel (p0 :: points) segs
  = Raise (if decide (2 <= length points)%nat then IndexError else UnboundLocalError).
Proof.
  intros Hfuel Hlen Hi Hnj.
  case_decide as Hmin; [|apply create_network_unbound; simpl; lia].
  rewrite create_network_bound by (simpl; lia).
  destruct (direct_network_returns max_tot_length fuel
              (init_nodes (p0 :: points), init_network sqrt segs) 0 (init_node 0 p0))
    as (st' & Hrun).
  { apply init_nodes_indexed. }
  { reflexivity. }
  { pose proof (init_network_undirected sqrt segs). simpl. lia. }
  rewrite Hrun. change (Done ?x ≫= ?f) with (f x). cbv beta.
  apply loop_of_run in Hrun.
  assert (st'.2 !! i = Some (init_arc sqrt i seg)) as Harc.
  { apply (Loop_frame max_tot_length (joined segs (point_xy p0)) _ _ _ _ Hrun 0%nat
             (init_node 0 p0)).
    - apply init_nodes_indexed.
    - apply init_network_closed.
    - done.
    - done.
    - apply rtc_refl.
    - simpl. apply init_network_lookup. by exists seg.
    - done. }
  apply Loop_steady in Hrun as [(L & _) _]. simpl in L.
  unfold init_nodes in L. rewrite length_imap in L. simpl in L.
  rewrite add_references_raises; [done|].
  intros Hall. rewrite Forall_forall in Hall.
  destruct (Hall _ (list_elem_of_lookup_2 _ _ _ Harc)) as [[p Hp] _].
  rewrite py_pos_low in Hp; [done|]. simpl. lia.
Qed.

(** On a spanning tree with at least two buildings [create_network]
    returns nodes and a network as [run_model] expects them. *)
Lemma tree_built (fuel : nat) (points : list (Z * Z * Z)) (segs : list (Z * Z * Z * Z)) :
  (3 <= length points)%nat ->
  spanning_tree points segs ->
  (length segs < fuel)%nat ->
  exists network nodes,
    create_network max_tot_length sqrt fuel points segs = Done (network, nodes) /\
    length nodes = length points /\ length network = length segs /\
    built nodes network.
Proof.
  intros Hmin Htree Hfuel.
  destruct (tree_checked max_tot_length sqrt fuel points segs Htree Hfuel)
    as (st' & Hrun & _ & _ & Hall).
  pose proof (direct_network_kept_helper max_tot_length fuel _ 0 st' Hrun) as (L & M & N & A).
  pose proof Hrun as Hloop. apply loop_of_run in Hloop.
  pose proof (final_tracked _ _ _ _ Htree _ Hloop) as Htr.
  simpl in L, M. unfold init_nodes in L. unfold init_network in M.
  rewrite length_imap in L. rewrite length_imap in M.
  assert (forall i a, st'.2 !! i = Some a ->
            a_index a = Z.of_nat i /\
            exists p c, a_start a = Z.of_nat p /\ a_end a = Z.of_nat c /\
              (p < length st'.1)%nat /\ (c < length st'.1)%nat) as Harcs.
  { intros i a Hi. split.
    - destruct (lookup_lt_is_Some_2 segs i) as [s Hs]; [apply lookup_lt_Some in Hi; lia|].
      destruct (A i (init_arc sqrt i s)) as (a' & Hi' & Hidx & _).
      { simpl. apply init_network_lookup. by exists s. }
      rewrite Hi in Hi'. inversion Hi'; subst a'. by rewrite Hidx.
    - destruct (Htr i a Hi (Hall i a Hi)) as (_ & (p & c & np & nc & Hp & Hc & Hnp & _ & Hnc & _) & _).
      exists p, c. split_and!; try done; by eapply lookup_lt_Some. }
  assert (Forall (in_range (length st'.1)) st'.2) as Hrange.
  { apply Forall_forall. intros a [i Hi]%list_elem_of_lookup.
    destruct (Harcs i a Hi) as (_ & p & c & Hp & Hc & Hpl & Hcl).
    unfold in_range. rewrite Hp, Hc, !py_pos_nat by done. split; by eexists. }
  assert (forall j n, st'.1 !! j = Some n -> n_connected n = 0 /\ n_arcs n = []) as Hfresh.
  { intros j n Hn.
    destruct (lookup_lt_is_Some_2 points j) as [q Hq]; [apply lookup_lt_Some in Hn; lia|].
    destruct (N j (init_node j q)) as (n' & Hn' & Hk).
    { simpl. apply init_nodes_lookup. by exists q. }
    rewrite Hn in Hn'. inversion Hn'; subst n'.
    by destruct Hk as (_ & _ & _ & _ & -> & ->). }
  exists st'.2, (imap (fun j n => with_arcs (refs (length st'.1) j st'.2) n) st'.1).
  unfold built. split_and!.
  - rewrite create_network_bound by done.
    rewrite Hrun. change (Done ?x ≫= ?f) with (f x). cbv beta.
    by rewrite add_references_closed.
  - by rewrite length_imap.
  - done.
  - intros nd [j Hj]%list_elem_of_lookup. rewrite list_lookup_imap in Hj.
    destruct (st'.1 !! j) as [n|] eqn:Hn; [|done]. simpl in Hj. inversion Hj; subst nd.
    simpl. by apply (Hfresh j n).
  - intros a [i Hi]%list_elem_of_lookup. rewrite length_imap.
    destruct (Harcs i a Hi) as (_ & p & c & Hp & Hc & Hpl & Hcl). by exists p, c.
  - intros j nd Hj v. rewrite list_lookup_imap in Hj.
    destruct (st'.1 !! j) as [n|] eqn:Hn; [|done]. simpl in Hj. inversion Hj; subst nd. clear Hj.
    assert (n_arcs n = []) as Hnil by (by apply (Hfresh j n)).
    simpl. rewrite Hnil. simpl. rewrite elem_of_refs. split.
    + intros (a & [i Hi]%list_elem_of_lookup & -> & Hends).
      destruct (Harcs i a Hi) as (Hidx & p & c & Hp & Hc & Hpl & Hcl).
      exists i, a. split_and!; try done.
      rewrite Hp, Hc in Hends. rewrite !py_pos_nat in Hends by done.
      destruct Hends as [[= <-]|[= <-]]; auto.
    + intros (i & a & -> & Hi & Hends).
      destruct (Harcs i a Hi) as (Hidx & p & c & Hp & Hc & Hpl & Hcl).
      exists a. split_and!; [by eapply list_elem_of_lookup_2|done|].
      rewrite Hp, Hc in *. rewrite !py_pos_nat by done.
      destruct Hends as [Hj|Hj]; apply Nat2Z.inj in Hj; subst; auto.
Qed.

(** X14.  On a spanning tree rooted at node 0 with at least two buildings
    (with fewer the segments are never computed), [create_network] returns,
    with as many nodes as points and as many arcs as segments, and in what
    it returns the arc list of a node holds exactly the positions of the
    arcs that start or end at that node. *)
Theorem create_network_lists_arcs (fuel : nat) (points : list (Z * Z * Z))
    (segs : list (Z * Z * Z * Z)) :
  (3 <= length points)%nat ->
  spanning_tree points segs ->
  (length segs < fuel)%nat ->
  exists network nodes,
    create_network max_tot_length sqrt fuel points segs = Done (network, nodes) /\
    length nodes = length points /\ length network = length segs /\
    forall j nd, nodes !! j = Some nd ->
      forall v, v ∈ n_arcs nd <->
        exists i a, v = Z.of_nat i /\ network !! i = Some a /\
          (a_start a = Z.of_nat j \/ a_end a = Z.of_nat j).
Proof.
  intros Hmin Htree Hfuel.
  destruct (tree_built fuel points segs Hmin Htree Hfuel)
    as (network & nodes & Hrun & Hln & Hlw & _ & _ & Hlists).
  by exists network, nodes.
Qed.

End Creating.

Lemma stray_segment_raises_witness :
  create_network 1000 Village.isqrt 2 [(0, 0, 0); (9, 9, 50); (9, 5, 50)] [(9, 9, 9, 5)]
    = Raise IndexError.
Proof.
  apply (stray_segment_raises 1000 Village.isqrt 2 (0, 0, 0)
           [(9, 9, 50); (9, 5, 50)] [(9, 9, 9, 5)] 0 (9, 9, 9, 5)).
  - simpl. lia.
  - simpl. lia.
  - reflexivity.
  - intros Hj. apply rtc_inv in Hj as [Heq|(q & (s & Hs & Hl) & _)].
    + vm_compute in Heq. discriminate.
    + apply list_elem_of_singleton in Hs. subst s.
      destruct Hl as [[H1 H2]|[H1 H2]]; vm_compute in H1, H2; discriminate.
Defined.

Lemma create_network_lists_arcs_witness :
  exists network nodes,
    create_network 4 Village.isqrt 3 Village.points Village.segments = Done (network, nodes) /\
    length nodes = length Village.points.
Proof.
  destruct (create_network_lists_arcs 4 Village.isqrt 3 Village.points Village.segments)
    as (network & nodes & Hrun & Hlen & _).
  - simpl. lia.
  - exact village_spanning_tree.
  - simpl. lia.
  - exists network, nodes. split; [exact Hrun|exact Hlen].
Defined.

End DirectorMore.

(** * More on [run_model] *)

Module ModelMore.
Import Model Spec Rel ModelFacts.

(** ** What [run_model] needs to return *)

Lemma cash_flows_years (e : econ) (capex opex income : Q) (flows : list Q) :
  cash_flows e capex opex income = Done flows -> 0 < years e.
Proof.
  unfold cash_flows, np_ones. destruct (decide (years e < 0)) as [|Hy]; [done|].
  simpl. unfold py_alter, py_pos. rewrite length_map, length_replicate.
  destruct (decide (0 <= 0)); [|done].
  destruct (decide (0 < Z.of_nat (Z.to_nat (years e)))); [lia|done].
Qed.

(** X1.  [run_model] returns only with a horizon of at least one year and
    at least one node: [years <= 0] makes [np.ones] or [flows[0]] raise, and
    an empty [nodes] makes [nodes[0]] raise. *)
Theorem run_model_needs_horizon (e : econ) (fuel depth : nat) (network : list arc)
    (nodes : list node) (target_coverage : Q) (r : results * list arc * list node) :
  run_model e fuel depth network nodes target_coverage = Done r ->
  0 < years e /\ nodes <> [].
Proof.
  unfold run_model. intros Hrun.
  apply bind_Done in Hrun as ([nodes1 pruned] & Hopt & Hrun).
  apply bind_Done in Hrun as (st2 & Hres & Hrun).
  apply bind_Done in Hrun as (f & Hrep & _).
  split.
  - unfold report_figures in Hrep. destruct (foldl _ _ _) as [[c i] g].
    apply bind_Done in Hrep as (v & Hv & _). unfold npv_of in Hv.
    apply bind_Done in Hv as (flows & Hflows & _). by eapply cash_flows_years.
  - pose proof (optimise_nodes _ _ _ _ _ _ Hopt) as Hn. simpl in Hn. subst nodes1.
    unfold resolve in Hres. apply bind_Done in Hres as (nodes2 & Hcon & _).
    apply connect_houses_root in Hcon as [Hlen _]. simpl in Hlen.
    intros ->. simpl in Hlen. lia.
Qed.

Lemma run_model_needs_horizon_witness :
  0 < years Village.fair /\ Village.nodes <> [].
Proof.
  destruct (run_model Village.fair 3 3 Village.network Village.nodes (-1))
    as [r| |] eqn:Hrun; [|vm_compute in Hrun; discriminate..].
  exact (run_model_needs_horizon Village.fair 3 3 Village.network Village.nodes (-1) r Hrun).
Defined.

(** X2.  In the coverage mode an empty network makes [run_model] raise
    [ZeroDivisionError]: the first round has nothing to scan and the
    coverage is then a division by [total_arcs = 0]. *)
Theorem coverage_mode_empty_network (e : econ) (fuel depth : nat) (nodes : list node)
    (target_coverage : Q) :
  Qeq_bool target_coverage (-1) = false ->
  run_model e (S fuel) depth [] nodes target_coverage = Raise ZeroDivisionError.
Proof.
  intros Hmode. unfold run_model, optimise. rewrite Hmode. reflexivity.
Qed.

Lemma coverage_mode_empty_network_witness :
  run_model Village.fair 1 0 [] Village.nodes (1 # 2) = Raise ZeroDivisionError.
Proof. apply (coverage_mode_empty_network Village.fair 0 0 Village.nodes (1 # 2)). reflexivity. Defined.

(** ** [run_model] writes flags only *)

Lemma disable_shrinks (w : list arc) (index : Z) (w' : list arc) :
  disable w index = Done w' -> shrinks w w'.
Proof.
  unfold disable, py_alter. destruct (py_pos _ _) as [k|]; [|done].
  intros [= <-]. apply shrinks_alter.
Qed.

Section Flags.

Variable e : econ.

Lemma npv_loop_shrinks fuel depth cg best nodes network st :
  npv_loop e fuel depth cg best nodes network = Done st -> shrinks network st.2.
Proof.
  revert best network. induction fuel as [|f IH]; intros best network Hrun; [discriminate|].
  simpl in Hrun. apply bind_Done in Hrun as ([[[b s] n] w] & Hround & Hrun).
  unfold npv_round in Hround. apply npv_scan_spec in Hround as (-> & -> & _).
  destruct s as [idx|]; [|inversion Hrun; apply shrinks_refl].
  apply bind_Done in Hrun as (w' & Hdis & Hrun).
  eapply shrinks_trans; [by eapply disable_shrinks|by eapply IH].
Qed.

Lemma coverage_loop_shrinks fuel depth cg total target nodes network st :
  coverage_loop e fuel depth cg total target nodes network = Done st ->
  shrinks network st.2.
Proof.
  revert network. induction fuel as [|f IH]; intros network Hrun; [discriminate|].
  simpl in Hrun. apply bind_Done in Hrun as ([[[b s] n] w] & Hround & Hrun).
  apply coverage_round_frame in Hround as [-> ->].
  apply bind_Done in Hrun as (w' & Hdis & Hrun).
  assert (shrinks network w') as Hs.
  { destruct s as [idx|]; [by eapply disable_shrinks|inversion Hdis; apply shrinks_refl]. }
  apply bind_Done in Hrun as (cov & _ & Hrun).
  destruct (Qle_bool cov target); [by inversion Hrun|].
  eapply shrinks_trans; [exact Hs|by eapply IH].
Qed.

Lemma optimise_shrinks fuel depth target st st' :
  optimise e fuel depth target st = Done st' -> shrinks st.2 st'.2.
Proof.
  unfold optimise. destruct (Qeq_bool target (-1)).
  - apply npv_loop_shrinks.
  - apply coverage_loop_shrinks.
Qed.

End Flags.

(** X3.  [run_model] writes two flags and nothing else: every node it
    returns is the node it was given, or that node with [connected] set to
    1, and every arc it returns is the arc it was given, or that arc with
    [enabled] set to 0.  No arc is enabled again, no connected flag is
    cleared, and no distance, length, index or arc list changes. *)
Theorem run_model_writes_flags_only (e : econ) (fuel depth : nat) (network : list arc)
    (nodes : list node) (target_coverage : Q)
    (res : results) (network' : list arc) (nodes' : list node) :
  run_model e fuel depth network nodes target_coverage = Done (res, network', nodes') ->
  marks nodes nodes' /\ shrinks network network'.
Proof.
  unfold run_model. intros Hrun.
  apply bind_Done in Hrun as ([nodes1 pruned] & Hopt & Hrun).
  apply bind_Done in Hrun as (st2 & Hres & Hrun).
  apply bind_Done in Hrun as (f & _ & Hrun).
  apply bind_Done in Hrun as (res0 & _ & Hrun).
  inversion Hrun; subst res network' nodes'; clear Hrun.
  pose proof (optimise_nodes _ _ _ _ _ _ Hopt) as Hn.
  pose proof (optimise_shrinks _ _ _ _ _ _ Hopt) as Hs. simpl in Hn, Hs. subst nodes1.
  unfold resolve in Hres. simpl in Hres.
  apply bind_Done in Hres as (nodes2 & Hcon & Hres).
  apply bind_Done in Hres as (w2 & Hstr & Hres). inversion Hres; subst st2. simpl. split.
  - by eapply connect_houses_marks.
  - eapply shrinks_trans; [exact Hs|by eapply disable_stranded_shrinks].
Qed.

Lemma run_model_writes_flags_only_witness :
  exists res network' nodes',
    run_model Village.fair 3 3 Village.network Village.nodes (-1)
      = Done (res, network', nodes') /\
    marks Village.nodes nodes' /\ shrinks Village.network network'.
Proof.
  destruct (run_model Village.fair 3 3 Village.network Village.nodes (-1))
    as [[[res network'] nodes']| |] eqn:Hrun; [|vm_compute in Hrun; discriminate..].
  exists res, network', nodes'. split; [reflexivity|].
  exact (run_model_writes_flags_only Village.fair 3 3 Village.network Village.nodes (-1)
           res network' nodes' Hrun).
Defined.

(** ** What the resolver leaves *)

Lemma disable_stranded_off nodes w w1 j nd k :
  disable_stranded nodes w = Done w1 ->
  nodes !! j = Some nd -> n_connected nd = 0 ->
  (exists i, i ∈ n_arcs nd /\ py_pos (length w) i = Some k) ->
  off w1 k.
Proof.
  intros Hrun Hj Hc (i & Hi & Hk). unfold disable_stranded in Hrun.
  apply (for_each_visits shrinks) in Hrun as [Hs Hall];
    [|apply shrinks_refl|apply shrinks_trans|apply disable_stranded_step_shrinks].
  destruct (Hall j) as (s1 & s2 & Hs1 & Hstep & Hs2).
  { apply elem_of_seq. apply lookup_lt_Some in Hj. lia. }
  unfold disable_stranded_step in Hstep. rewrite Hj in Hstep.
  destruct (decide (n_connected nd = 0)); [|done].
  apply bind_Done in Hstep as (ks & Hks & Hstep). inversion Hstep; subst s2; clear Hstep.
  apply (shrinks_off _ _ _ Hs2). apply disable_all_shrinks.
  apply (arcs_at_elem _ _ _ k Hks). exists i. split; [done|]. by rewrite (proj1 Hs1).
Qed.

(** X4.  After the connectivity resolver no node left with [connected == 0]
    lists an enabled arc: every index in its arc list is a valid index of
    the network and the arc there has [enabled == 0]. *)
Theorem resolve_strands_nothing (depth : nat) (st st' : state) (j : nat) (nd : node) (i : Z) :
  resolve depth st = Done st' ->
  st'.1 !! j = Some nd -> n_connected nd = 0 -> i ∈ n_arcs nd ->
  exists a, py_get st'.2 i = Done a /\ a_enabled a = 0.
Proof.
  unfold resolve. intros Hrun Hj Hc Hi.
  apply bind_Done in Hrun as (nodes1 & _ & Hrun).
  apply bind_Done in Hrun as (w1 & Hstr & Hrun). inversion Hrun; subst st'; clear Hrun.
  simpl in *.
  pose proof (disable_stranded_shrinks _ _ _ Hstr) as [Hlen _].
  assert (exists k, py_pos (length st.2) i = Some k) as [k Hk].
  { unfold disable_stranded in Hstr.
    apply (for_each_visits shrinks) in Hstr as [_ Hall];
      [|apply shrinks_refl|apply shrinks_trans|apply disable_stranded_step_shrinks].
    destruct (Hall j) as (s1 & s2 & Hs1 & Hstep & _).
    { apply elem_of_seq. apply lookup_lt_Some in Hj. lia. }
    unfold disable_stranded_step in Hstep. rewrite Hj in Hstep.
    destruct (decide (n_connected nd = 0)); [|done].
    apply bind_Done in Hstep as (ks & Hks & _). rewrite <- (proj1 Hs1).
    clear -Hks Hi. revert ks Hks. induction (n_arcs nd) as [|i0 l IH]; intros ks Hks.
    - by apply elem_of_nil in Hi.
    - simpl in Hks. destruct (py_pos (length s1) i0) as [k0|] eqn:Hk0; [|done].
      apply bind_Done in Hks as (ks0 & Hks0 & _).
      apply elem_of_cons in Hi as [->|Hi]; [by exists k0|by eapply IH]. }
  pose proof (py_pos_lt _ _ _ Hk) as Hlt.
  destruct (lookup_lt_is_Some_2 w1 k) as [a Ha]; [lia|].
  exists a. split.
  - unfold py_get. by rewrite Hlen, Hk, Ha.
  - eapply (disable_stranded_off _ _ _ j nd k Hstr Hj Hc); [|done]. by exists i.
Qed.

Lemma resolve_strands_nothing_witness :
  exists st' a, resolve 3 (Village.nodes, Village.short_network) = Done st' /\
                py_get st'.2 1 = Done a /\ a_enabled a = 0.
Proof.
  destruct (resolve 3 (Village.nodes, Village.short_network)) as [st'| |] eqn:Hrun;
    [|vm_compute in Hrun; discriminate..].
  destruct (resolve_strands_nothing 3 (Village.nodes, Village.short_network) st' 2
              (mk_node 2 3 4 50 4 7 0 [1]) 1 Hrun) as (a & Ha & He).
  - vm_compute in Hrun. inversion Hrun. reflexivity.
  - reflexivity.
  - by apply list_elem_of_singleton.
  - by exists st', a.
Defined.

(** X5.  [connect_houses] sets the connected flag of exactly the nodes it
    reaches from its starting node through the enabled arcs that the nodes
    list and that start at the node listing them; it changes nothing else,
    and a flag that was 1 stays 1. *)
Theorem connect_houses_marks_reached (depth : nat) (nodes : list node) (network : list arc)
    (index : Z) (nodes' : list node) :
  connect_houses depth nodes network index = Done nodes' ->
  marks nodes nodes' /\
  forall j, connected_at nodes' j <-> connected_at nodes j \/ reaches nodes network index j.
Proof.
  intros Hrun. pose proof (connect_houses_marks _ _ _ _ _ Hrun) as Hm.
  split; [done|]. intros j. split.
  - by apply (connect_houses_sound _ _ _ _ _ Hrun).
  - intros [Hc|Hr]; [by apply (marks_connected _ _ _ Hm)|].
    by apply (connect_houses_complete _ _ _ _ _ Hrun).
Qed.

Lemma connect_houses_marks_reached_witness :
  exists nodes', connect_houses 3 Village.nodes Village.network 0 = Done nodes' /\
                 marks Village.nodes nodes'.
Proof.
  destruct (connect_houses 3 Village.nodes Village.network 0) as [nodes'| |] eqn:Hrun;
    [|vm_compute in Hrun; discriminate..].
  exists nodes'. split; [reflexivity|].
  exact (proj1 (connect_houses_marks_reached 3 Village.nodes Village.network 0 nodes' Hrun)).
Defined.

(** ** The coverage that the coverage mode ends with *)

Lemma count_enabled_alter (w : list arc) (k : nat) :
  (count_enabled (alter (set_enabled 0) k w) <= count_enabled w
   <= S (count_enabled (alter (set_enabled 0) k w)))%nat.
Proof.
  unfold count_enabled. revert k. induction w as [|a w IH]; intros k; [simpl; lia|].
  assert (forall l : list arc, length (filter (fun a => a_enabled a = 1) (a :: l))
            = ((if decide (a_enabled a = 1%Z) then 1 else 0)
               + length (filter (fun a => a_enabled a = 1%Z) l))%nat) as Hcons.
  { intros l. rewrite filter_cons. by destruct (decide (a_enabled a = 1)). }
  destruct k as [|k].
  - change (alter (set_enabled 0) 0%nat (a :: w)) with (set_enabled 0 a :: w).
    rewrite filter_cons, Hcons.
    destruct (decide (a_enabled (set_enabled 0 a) = 1)) as [H|_]; [done|].
    destruct (decide (a_enabled a = 1)); lia.
  - change (alter (set_enabled 0) (S k) (a :: w)) with (a :: alter (set_enabled 0) k w).
    rewrite !Hcons. specialize (IH k). lia.
Qed.

Lemma disable_count (w : list arc) (index : Z) (w' : list arc) :
  disable w index = Done w' -> (count_enabled w <= S (count_enabled w'))%nat.
Proof.
  unfold disable, py_alter. destruct (py_pos _ _) as [k|]; [|done].
  intros [= <-]. apply count_enabled_alter.
Qed.

Lemma coverage_Done (w : list arc) (total : nat) (c : Q) :
  coverage w total = Done c ->
  (0 < total)%nat /\
  c = (inject_Z (Z.of_nat (count_enabled w)) / inject_Z (Z.of_nat total))%Q.
Proof.
  unfold coverage. destruct (decide (total = 0%nat)); [done|]. intros [= <-]. split; [lia|done].
Qed.

Lemma coverage_step (w w' : list arc) (total : nat) (c c' : Q) :
  coverage w total = Done c -> coverage w' total = Done c' ->
  (count_enabled w <= S (count_enabled w'))%nat ->
  (c <= c' + 1 / inject_Z (Z.of_nat total))%Q.
Proof.
  intros [Ht ->]%coverage_Done [_ ->]%coverage_Done Hle.
  assert (0 < inject_Z (Z.of_nat total))%Q as Hpos.
  { rewrite <- (Zlt_Qlt 0). lia. }
  assert (inject_Z (Z.of_nat (count_enabled w))
          <= inject_Z (Z.of_nat (count_enabled w')) + 1)%Q as Hn.
  { change 1%Q with (inject_Z 1). rewrite <- inject_Z_plus. rewrite <- Zle_Qle. lia. }
  assert (inject_Z (Z.of_nat (count_enabled w')) / inject_Z (Z.of_nat total)
          + 1 / inject_Z (Z.of_nat total)
          == (inject_Z (Z.of_nat (count_enabled w')) + 1) / inject_Z (Z.of_nat total))%Q
    as Heq.
  { field. intros H0. rewrite H0 in Hpos. by apply Qlt_irrefl in Hpos. }
  rewrite Heq.
  unfold Qdiv. apply Qmult_le_compat_r; [done|].
  apply Qinv_le_0_compat. by apply Qlt_le_weak.
Qed.

Section Coverage.

Variable e : econ.

Lemma coverage_loop_bounds fuel depth cg total target nodes network st c0 :
  coverage_loop e fuel depth cg total target nodes network = Done st ->
  coverage network total = Done c0 -> (target < c0)%Q ->
  exists c, coverage st.2 total = Done c /\ (c <= target)%Q /\
            (target < c + 1 / inject_Z (Z.of_nat total))%Q.
Proof.
  revert network c0. induction fuel as [|f IH]; intros network c0 Hrun Hc0 Hlt; [discriminate|].
  simpl in Hrun. apply bind_Done in Hrun as ([[[b s] n] w] & Hround & Hrun).
  apply coverage_round_frame in Hround as [-> ->].
  apply bind_Done in Hrun as (w' & Hdis & Hrun).
  apply bind_Done in Hrun as (cov & Hcov & Hrun).
  assert (count_enabled network <= S (count_enabled w'))%nat as Hcount.
  { destruct s as [idx|]; [by eapply disable_count|inversion Hdis; lia]. }
  pose proof (coverage_step _ _ _ _ _ Hc0 Hcov Hcount) as Hstep.
  destruct (Qle_bool cov target) eqn:Hle.
  - inversion Hrun; subst st. exists cov. split; [done|]. split; [by apply Qle_bool_iff|].
    eapply Qlt_le_trans; [exact Hlt|exact Hstep].
  - apply (IH w' cov Hrun Hcov). apply Qnot_le_lt. intros H. apply Qle_bool_iff in H. congruence.
Qed.

End Coverage.

(** X6.  When the pruning loop of the coverage mode ends, the fraction of
    arcs still enabled is at most the target; and when that fraction was
    above the target before the loop, it ends less than one arc below the
    target, since a round disables at most one arc. *)
Theorem coverage_mode_stops_at_target (e : econ) (fuel depth : nat) (target_coverage : Q)
    (st st' : state) :
  Qeq_bool target_coverage (-1) = false ->
  optimise e fuel depth target_coverage st = Done st' ->
  exists c,
    coverage st'.2 (length st.2) = Done c /\ (c <= target_coverage)%Q /\
    forall c0, coverage st.2 (length st.2) = Done c0 -> (target_coverage < c0)%Q ->
      (target_coverage < c + 1 / inject_Z (Z.of_nat (length st.2)))%Q.
Proof.
  unfold optimise. intros -> Hrun.
  destruct (coverage_loop_at_target _ _ _ _ _ _ _ _ _ Hrun) as (c & Hc & Hle).
  exists c. split; [done|]. split; [done|].
  intros c0 Hc0 Hlt.
  destruct (coverage_loop_bounds _ _ _ _ _ _ _ _ _ c0 Hrun Hc0 Hlt) as (c' & Hc' & _ & Hb).
  rewrite Hc in Hc'. by inversion Hc'; subst.
Qed.

Lemma coverage_mode_stops_at_target_witness :
  exists st' c,
    optimise Village.fair 3 3 (1 # 2) (Village.nodes, Village.network) = Done st' /\
    coverage st'.2 2 = Done c /\ (c <= 1 # 2)%Q.
Proof.
  destruct (optimise Village.fair 3 3 (1 # 2) (Village.nodes, Village.network))
    as [st'| |] eqn:Hrun; [|vm_compute in Hrun; discriminate..].
  destruct (coverage_mode_stops_at_target Village.fair 3 3 (1 # 2)
              (Village.nodes, Village.network) st' eq_refl Hrun) as (c & Hc & Hle & _).
  exists st', c. split; [reflexivity|]. split; [exact Hc|exact Hle].
Defined.



(** ** The rounds of the mode that maximises the NPV *)

Lemma count_enabled_drop (w : list arc) (k : nat) (a : arc) :
  w !! k = Some a -> a_enabled a = 1 ->
  count_enabled w = S (count_enabled (alter (set_enabled 0) k w)).
Proof.
  unfold count_enabled. revert k. induction w as [|b w IH]; intros k Hk Ha; [done|].
  destruct k as [|k].
  - simpl in Hk. inversion Hk; subst b.
    change (alter (set_enabled 0) 0%nat (a :: w)) with (set_enabled 0 a :: w).
    rewrite !filter_cons. rewrite decide_True by done.
    rewrite decide_False by (simpl; lia). done.
  - change (alter (set_enabled 0) (S k) (b :: w)) with (b :: alter (set_enabled 0) k w).
    rewrite !filter_cons. specialize (IH k Hk Ha).
    destruct (decide (a_enabled b = 1)); simpl; lia.
Qed.

Lemma disable_at (w : list arc) (k : nat) :
  (k < length w)%nat -> disable w (Z.of_nat k) = Done (alter (set_enabled 0) k w).
Proof.
  intros Hk. unfold disable, py_alter, py_pos.
  destruct (decide (0 <= Z.of_nat k)); [|lia].
  destruct (decide (Z.of_nat k < Z.of_nat (length w))); [|lia]. by rewrite Nat2Z.id.
Qed.

Lemma alter_disabled_id (w : list arc) (k : nat) (a : arc) :
  w !! k = Some a -> a_enabled a = 0 -> alter (set_enabled 0) k w = w.
Proof.
  intros Hk Ha. apply list_eq. intros j. destruct (decide (j = k)) as [->|Hne].
  - rewrite list_lookup_alter_eq, Hk. simpl. by rewrite set_enabled_id.
  - by rewrite list_lookup_alter_ne.
Qed.

Section Rounds.

Variable e : econ.
Variables (depth : nat) (cg : Q) (nodes : list node).

(** A scan that no candidate can beat selects nothing. *)
Lemma npv_scan_settled (network : list arc) (best : npfloat) (xs : list nat) :
  (forall i a, network !! i = Some a ->
     exists v, candidate_npv e depth cg nodes network (a_index a) = Done (v, nodes, network)
               /\ fgt v best = false) ->
  for_each (npv_scan_step e depth cg) (best, None, nodes, network) xs
    = Done (best, None, nodes, network).
Proof.
  intros Hall. induction xs as [|x xs IH]; [done|].
  cbn [for_each]. unfold npv_scan_step at 2.
  destruct (network !! x) as [a|] eqn:Hx; [|exact IH].
  destruct (Hall x a Hx) as (v & -> & Hle).
  change (Done ?y ≫= ?f) with (f y). cbv beta iota.
  rewrite Hle. exact IH.
Qed.

Lemma npv_loop_settled (network : list arc) (best : npfloat) (f : nat) :
  (forall i a, network !! i = Some a ->
     exists v, candidate_npv e depth cg nodes network (a_index a) = Done (v, nodes, network)
               /\ fgt v best = false) ->
  npv_loop e (S f) depth cg best nodes network = Done (nodes, network).
Proof.
  intros Hall. cbn [npv_loop]. unfold npv_round. by rewrite npv_scan_settled.
Qed.

Lemma npv_loop_rounds (n : nat) :
  forall (network : list arc) (best : npfloat) (f f' : nat),
    (forall i a, network !! i = Some a ->
       a_index a = Z.of_nat i /\ (a_enabled a = 0 \/ a_enabled a = 1)) ->
    (count_enabled network <= n)%nat -> (n + 2 <= f)%nat -> (n + 2 <= f')%nat ->
    npv_loop e f depth cg best nodes network = npv_loop e f' depth cg best nodes network.
Proof.
  induction n as [|n IH]; intros network best f f' Hw Hn Hf Hf';
    (destruct f as [|f]; [lia|]); (destruct f' as [|f']; [lia|]);
    cbn [npv_loop];
    (destruct (npv_round e depth cg best nodes network) as [[[[b s] n1] w1]| |] eqn:Hr;
       [|reflexivity..]);
    change (Done ?y ≫= ?g) with (g y); cbv beta iota;
    unfold npv_round in Hr; apply npv_scan_spec in Hr as (-> & -> & _ & Hall & Hsel);
    (destruct Hsel as [[-> ->]|(i & a & Hi & Ha & -> & _ & _)]; [reflexivity|]);
    destruct (Hw i a Ha) as [Hidx Hflag]; rewrite Hidx;
    rewrite (disable_at network i) by (by eapply lookup_lt_Some);
    change (Done ?y ≫= ?g) with (g y); cbv beta.
  - destruct Hflag as [H0|H1].
    + rewrite (alter_disabled_id network i a Ha H0).
      destruct f as [|f]; [lia|]. destruct f' as [|f']; [lia|].
      rewrite !npv_loop_settled; [done| |].
      all: intros k c Hk; apply (Hall k c); [|done];
        apply elem_of_seq; apply lookup_lt_Some in Hk; lia.
    + pose proof (count_enabled_drop network i a Ha H1). lia.
  - destruct Hflag as [H0|H1].
    + rewrite (alter_disabled_id network i a Ha H0).
      destruct f as [|f]; [lia|]. destruct f' as [|f']; [lia|].
      rewrite !npv_loop_settled; [done| |].
      all: intros k c Hk; apply (Hall k c); [|done];
        apply elem_of_seq; apply lookup_lt_Some in Hk; lia.
    + apply IH; [| |lia|lia].
      * intros k c Hk. destruct (decide (k = i)) as [->|Hne].
        -- rewrite list_lookup_alter_eq, Ha in Hk. inversion Hk; subst c. simpl. auto.
        -- rewrite list_lookup_alter_ne in Hk by done. by apply Hw.
      * pose proof (count_enabled_drop network i a Ha H1). lia.
Qed.

End Rounds.



End ModelMore.

(** * From the tree to the report *)

Module Pipeline.
Import Director Shape DirectorFacts DirectorMore.
Import Model Spec Rel ModelFacts ModelMore.

(** ** A rank that grows along the arcs *)

Lemma visited_dec (w : list arc) (c : Z) : visited w c \/ ~ visited w c.
Proof.
  destruct (decide (c = 0)) as [->|Hc]; [left; by left|].
  destruct (decide (Exists (fun a => a_directed a = 1 /\ a_end a = c) w)) as [He|He].
  - left. right. apply Exists_exists in He as (a & [i Hi]%list_elem_of_lookup & Hd & Hend).
    exists i, a. by split_and!.
  - right. intros [H0|(i & a & Hi & Hd & Hend)]; [done|].
    apply He, Exists_exists. exists a. split; [by eapply list_elem_of_lookup_2|done].
Qed.

Lemma undirected_le (w : list arc) : (undirected w <= length w)%nat.
Proof. unfold undirected. apply length_filter. Qed.

Section Ranking.

Variable max_tot_length : Q.

Lemma child_ranked index st i st1 c pv :
  arc_action max_tot_length index st i = Done (Child st1 c) ->
  indexed st.1 -> index = Z.of_nat pv -> visited st.2 index -> tracked st ->
  twice st.2 \/ (exists rank, ranked st rank) ->
  twice st1.2 \/ (exists rank, ranked st1 rank).
Proof.
  intros Hact Hidx Hpv Hvis Htr Hr.
  pose proof (action_steady _ _ _ _ _ Hact) as (Hs & Hu & _).
  destruct Hr as [Ht|[rank [R0 Rarcs]]]; [left; by apply (steady_twice _ _ Hs)|].
  destruct (child_step _ _ _ _ _ _ _ Hact Hidx Hpv)
    as (a0 & a & nd & j & nj & Hi & Hd & Hnd & He & Hsa & Hj & Hxj & -> & -> & Hind & Hinj).
  subst index.
  destruct (claimed_arc_fields max_tot_length nd nj a)
    as (Fd & Fs & Fe & _).
  set (a' := claimed_arc max_tot_length nd nj a) in *.
  set (nj' := claimed_node nd nj a) in *.
  pose proof (lookup_lt_Some _ _ _ Hi) as Hilt.
  simpl in Hu.
  assert (directed_to (<[i := a']> st.2) i (Z.of_nat j)) as Hnew.
  { exists a'. rewrite list_lookup_insert_eq by done. repeat split; [done|]. by rewrite Fe. }
  assert (forall k e, directed_to st.2 k e -> k <> i) as Hold.
  { intros k e (b & Hb & Hdb & _) ->. rewrite Hi in Hb. by inversion Hb; subst. }
  assert (visited st.2 (Z.of_nat j) -> twice (<[i := a']> st.2)) as Htwice.
  { intros [H0|[k Hk]].
    - left. exists i. by rewrite <- H0.
    - right. exists k, i, (Z.of_nat j). split; [by eapply Hold|].
      split; [|done]. by apply (steady_directed_to _ _ _ _ Hs). }
  destruct (visited_dec st.2 (Z.of_nat j)) as [Hvj|Hnv]; [left; by apply Htwice|].
  right. simpl.
  pose proof (undirected_le st.2) as Hle.
  set (top := (length st.2 - undirected (<[i := a']> st.2))%nat).
  exists (fun x => if decide (x = j) then top else rank x).
  assert (j <> 0%nat) as Hj0 by (intros ->; apply Hnv; by left).
  assert (pv <> j) as Hpj by (by intros ->).
  assert (rank pv < top)%nat as Hpv.
  { destruct Hvis as [H0|(k & b & Hk & Hdb & Hend)].
    - replace pv with 0%nat by lia. rewrite R0. unfold top. lia.
    - destruct (Htr k b Hk Hdb) as (_ & (p' & c' & _ & _ & Hp' & _) & _).
      destruct (Rarcs k b p' pv Hk Hdb Hp' Hend) as [_ Hb]. unfold top. lia. }
  split; simpl.
  - by rewrite decide_False.
  - intros k ak p c Hk Hdk Hp Hc. rewrite length_insert.
    destruct (decide (k = i)) as [->|Hne].
    + rewrite list_lookup_insert_eq in Hk by done. inversion Hk; subst ak. clear Hk.
      rewrite Fs, Hind in Hp. rewrite Fe, Hinj in Hc.
      apply Nat2Z.inj in Hp, Hc. subst p c.
      rewrite decide_False by done. rewrite decide_True by done.
      split; [done|]. unfold top. lia.
    + rewrite list_lookup_insert_ne in Hk by done.
      assert (c <> j) as Hcj.
      { intros ->. apply Hnv. right. exists k, ak. by split_and!. }
      assert (p <> j) as Hpj'.
      { intros ->. apply Hnv. rewrite <- Hp. by destruct (Htr k ak Hk Hdk) as (Hv & _). }
      rewrite !decide_False by done.
      destruct (Rarcs k ak p c Hk Hdk Hp Hc) as [H1 H2]. split; [done|]. lia.
Qed.

Lemma Loop_ranked index st rest st' :
  Loop max_tot_length index st rest st' ->
  forall pv, indexed st.1 -> anchored st -> index = Z.of_nat pv ->
    visited st.2 index -> tracked st ->
    twice st.2 \/ (exists rank, ranked st rank) ->
    twice st'.2 \/ (exists rank, ranked st' rank).
Proof.
  induction 1 as [index st|index st i rest st' Hact _ IH
                 |index st i rest st1 st' Hact _ IH
                 |index st i rest st1 c st2 st' Hact Hc IHc Hloop IH];
    intros pv Hidx Hanc Hpv Hvis Htr Hr.
  - done.
  - by eapply IH.
  - by destruct (leaf_step _ _ _ _ _ Hact Hanc).
  - pose proof (action_steady _ _ _ _ _ Hact) as (Hs1 & _ & j & nj & Hj & Hcj).
    destruct (child_tracked _ _ _ _ _ _ _ Hact Hidx Hpv Hvis Htr) as [Htr1 Hvis1].
    pose proof (child_ranked _ _ _ _ _ _ Hact Hidx Hpv Hvis Htr Hr) as Hr1.
    pose proof (Loop_steady _ _ _ _ _ Hc) as [Hs2 _].
    pose proof (steady_trans _ _ _ Hs1 Hs2) as Hs02.
    pose proof (steady_indexed _ _ Hs1 Hidx) as Hidx1.
    pose proof (steady_anchored _ _ Hs1 Hanc) as Hanc1.
    assert (c = Z.of_nat j) as Hcj' by (rewrite Hcj; by apply Hidx).
    assert (tracked st2) as Htr2 by (by apply (Loop_tracked _ _ _ _ _ Hc j)).
    assert (twice st2.2 \/ (exists rank, ranked st2 rank)) as Hr2 by (by apply (IHc j)).
    apply (IH pv); try done.
    + by eapply steady_indexed.
    + by eapply steady_anchored.
    + by apply (steady_visited _ _ _ Hs02).
Qed.

Variable sqrt : Z -> Q.

Lemma init_ranked (points : list (Z * Z * Z)) (segs : list (Z * Z * Z * Z)) :
  ranked (init_nodes points, init_network sqrt segs) (fun _ => 0%nat).
Proof.
  split; [done|]. intros i a p c (s & _ & ->)%init_network_lookup Hd. discriminate.
Qed.

(** What [create_network] returns on a spanning tree. *)
Lemma tree_created (fuel : nat) (points : list (Z * Z * Z)) (segs : list (Z * Z * Z * Z)) :
  (3 <= length points)%nat -> spanning_tree points segs -> (length segs < fuel)%nat ->
  exists network nodes rank,
    create_network max_tot_length sqrt fuel points segs = Done (network, nodes) /\
    length nodes = length points /\ length network = length segs /\
    listed nodes network /\ rooted rank nodes network.
Proof.
  intros Hmin Htree Hfuel.
  destruct (tree_checked max_tot_length sqrt fuel points segs Htree Hfuel)
    as (st' & Hrun & _ & Hnever & Hall).
  pose proof (direct_network_kept_helper max_tot_length fuel _ 0 st' Hrun) as (L & M & N & A).
  pose proof Hrun as Hloop. apply loop_of_run in Hloop.
  pose proof (final_tracked _ _ _ _ Htree _ Hloop) as Htr.
  assert (exists rank, ranked st' rank) as [rank [R0 Rarcs]].
  { destruct (Loop_ranked _ _ _ _ Hloop 0%nat) as [Ht|Hr]; try done.
    - apply init_nodes_indexed.
    - by apply init_anchored.
    - by left.
    - by apply init_tracked.
    - right. eexists. apply init_ranked. }
  simpl in L, M. unfold init_nodes in L. unfold init_network in M.
  rewrite length_imap in L. rewrite length_imap in M.
  assert (forall i a, st'.2 !! i = Some a ->
            a_index a = Z.of_nat i /\ (a_enabled a = 0 \/ a_enabled a = 1) /\
            exists p c, a_start a = Z.of_nat p /\ a_end a = Z.of_nat c /\
              (p < length st'.1)%nat /\ (c < length st'.1)%nat /\
              (rank p < rank c <= length st'.2)%nat) as Harcs.
  { intros i a Hi.
    destruct (lookup_lt_is_Some_2 segs i) as [s Hs]; [apply lookup_lt_Some in Hi; lia|].
    destruct (A i (init_arc sqrt i s)) as (a' & Hi' & Hidx & _ & _ & Hen & _).
    { simpl. apply init_network_lookup. by exists s. }
    rewrite Hi in Hi'. inversion Hi'; subst a'. split_and!.
    - by rewrite Hidx.
    - destruct Hen as [->| ->]; auto.
    - destruct (Htr i a Hi (Hall i a Hi))
        as (_ & (p & c & np & nc & Hp & Hc & Hnp & _ & Hnc & _) & _).
      destruct (Rarcs i a p c Hi (Hall i a Hi) Hp Hc) as [H1 H2].
      exists p, c. split_and!; try done; try (by eapply lookup_lt_Some). lia. }
  assert (Forall (in_range (length st'.1)) st'.2) as Hrange.
  { apply Forall_forall. intros a [i Hi]%list_elem_of_lookup.
    destruct (Harcs i a Hi) as (_ & _ & p & c & Hp & Hc & Hpl & Hcl & _).
    unfold in_range. rewrite Hp, Hc, !py_pos_nat by done. split; by eexists. }
  exists st'.2, (imap (fun j n => with_arcs (refs (length st'.1) j st'.2) n) st'.1), rank.
  split_and!.
  - rewrite create_network_bound by done.
    rewrite Hrun. change (Done ?x ≫= ?f) with (f x). cbv beta.
    by rewrite add_references_closed.
  - by rewrite length_imap.
  - done.
  - intros j nd v Hj Hv. rewrite list_lookup_imap in Hj.
    destruct (st'.1 !! j) as [n|] eqn:Hn; [|done]. simpl in Hj. inversion Hj; subst nd. clear Hj.
    assert (n_arcs n = []) as Hnil.
    { destruct (lookup_lt_is_Some_2 points j) as [q Hq]; [apply lookup_lt_Some in Hn; lia|].
      destruct (N j (init_node j q)) as (n' & Hn' & Hk).
      { simpl. apply init_nodes_lookup. by exists q. }
      rewrite Hn in Hn'. inversion Hn'; subst n'. by destruct Hk as (_ & _ & _ & _ & _ & ->). }
    simpl in Hv. rewrite Hnil in Hv. simpl in Hv.
    apply elem_of_refs in Hv as (a & [i Hi]%list_elem_of_lookup & -> & _).
    destruct (Harcs i a Hi) as (Hidx & _). exists i. split; [done|by eapply lookup_lt_Some].
  - intros i a Hi. rewrite length_imap. by apply Harcs.
Qed.

End Ranking.

(** ** The evaluation of a candidate returns *)

Lemma arcs_at_returns (network : list arc) (l : list Z) :
  (forall v, v ∈ l -> exists i, v = Z.of_nat i /\ (i < length network)%nat) ->
  exists ks, arcs_at network l = Done ks /\ forall k, k ∈ ks -> (k < length network)%nat.
Proof.
  intros Hl.
  assert (exists ks, arcs_at network l = Done ks) as [ks Hks].
  { induction l as [|v l IH]; [by eexists|]. simpl.
    destruct (Hl v) as (i & -> & Hi); [by left|]. rewrite py_pos_nat by done.
    destruct IH as [ks ->]; [intros w Hw; apply Hl; by right|]. by eexists. }
  exists ks. split; [done|]. intros k Hk.
  apply (arcs_at_elem _ _ _ _ Hks) in Hk as (i & _ & Hp). by eapply py_pos_lt.
Qed.

Lemma rooted_disable rank nodes network i :
  rooted rank nodes network -> rooted rank nodes (alter (set_enabled 0) i network).
Proof.
  intros Hr k a Hk. rewrite length_alter. destruct (decide (k = i)) as [->|Hne].
  - rewrite list_lookup_alter_eq in Hk.
    destruct (network !! i) as [b|] eqn:Hb; [|done]. simpl in Hk. inversion Hk; subst a.
    destruct (Hr i b Hb) as (Hidx & _ & Hends). split_and!; [done|by left|done].
  - rewrite list_lookup_alter_ne in Hk by done. by apply Hr.
Qed.

Lemma listed_length nodes w w' : length w' = length w -> listed nodes w -> listed nodes w'.
Proof. intros Hl H j nd v Hj Hv. rewrite Hl. by eapply H. Qed.

Lemma listed_marks nodes nodes' w : marks nodes nodes' -> listed nodes w -> listed nodes' w.
Proof.
  intros Hm H j nd' v Hj Hv.
  destruct (marks_lookup_inv _ _ _ _ Hm Hj) as (nd & Hnd & Heq).
  apply (H j nd v Hnd). by destruct Heq as [->| ->].
Qed.

Section Evaluating.

Variable e : econ.
Variable rank : nat -> nat.
Variable nodes : list node.
Hypothesis Hyears : 0 < years e.
Hypothesis Hroot : (0 < length nodes)%nat.

Lemma calculate_profit_returns (network : list arc) :
  listed nodes network -> rooted rank nodes network ->
  forall d p dis cost inc,
    (p < length nodes)%nat -> (length network - rank p < d)%nat ->
    exists c i, calculate_profit e d nodes network (Z.of_nat p) dis cost inc
                = Done (c, i, nodes, network).
Proof.
  intros Hl Hr. induction d as [|d IH]; intros p dis cost inc Hp Hd; [lia|].
  destruct (lookup_lt_is_Some_2 nodes p Hp) as [nd Hnd].
  cbn [calculate_profit]. rewrite (py_get_nat nodes p nd Hnd).
  change (Done ?x ≫= ?f) with (f x). cbv beta.
  destruct (arcs_at_returns network (n_arcs nd)) as (ks & -> & Hks).
  { intros v Hv. by apply (Hl p nd v). }
  change (Done ?x ≫= ?f) with (f x). cbv beta.
  generalize (cost + (cost_wire e * n_marg nd + cost_connection e))%Q.
  generalize (inc + node_income e nd)%Q.
  induction ks as [|k ks IHks]; intros i0 c0; [by eexists; eexists|].
  cbn [for_each].
  destruct (lookup_lt_is_Some_2 network k) as [a Ha]; [apply Hks; by left|].
  rewrite Ha.
  destruct (Hr k a Ha) as (_ & _ & p' & c' & Hp' & Hc' & Hpl & Hcl & Hrk).
  destruct (decide (a_enabled a = 1 /\ a_index a <> dis /\ a_start a = Z.of_nat p))
    as [(_ & _ & Hst)|_].
  - rewrite Hp' in Hst. apply Nat2Z.inj in Hst. subst p'. rewrite Hc'.
    destruct (IH c' dis c0 i0 Hcl) as (c1 & i1 & ->); [lia|].
    change (Done ?x ≫= ?f) with (f x). cbv beta.
    apply IHks. intros k' Hk'. apply Hks. by right.
  - change (Done ?x ≫= ?f) with (f x). cbv beta.
    apply IHks. intros k' Hk'. apply Hks. by right.
Qed.

Lemma candidate_npv_returns (network : list arc) (d : nat) (cg : Q) (dis : Z) :
  listed nodes network -> rooted rank nodes network -> (length network < d)%nat ->
  exists v, candidate_npv e d cg nodes network dis = Done (v, nodes, network).
Proof.
  intros Hl Hr Hd. unfold candidate_npv.
  destruct (calculate_profit_returns network Hl Hr d 0%nat dis 0%Q 0%Q) as (c & i & Hc);
    [done|lia|].
  change (Z.of_nat 0) with 0 in Hc. rewrite Hc.
  change (Done ?x ≫= ?f) with (f x). cbv beta iota.
  destruct (npv_of_Done e (cg + c) i Hyears) as (v & -> & _). by exists v.
Qed.

Lemma npv_round_returns (network : list arc) (d : nat) (cg : Q) (best : npfloat) :
  listed nodes network -> rooted rank nodes network -> (length network < d)%nat ->
  exists b s, npv_round e d cg best nodes network = Done (b, s, nodes, network).
Proof.
  intros Hl Hr Hd. unfold npv_round. generalize (@None Z). revert best.
  induction (seq 0 (length network)) as [|x xs IH]; intros best sel; [by eexists; eexists|].
  cbn [for_each]. unfold npv_scan_step at 2.
  destruct (network !! x) as [a|]; [|apply IH].
  destruct (candidate_npv_returns network d cg (a_index a) Hl Hr Hd) as (v & ->).
  change (Done ?y ≫= ?f) with (f y). cbv beta iota.
  destruct (fgt v best); apply IH.
Qed.

End Evaluating.

(** ** [run_model] returns *)

Lemma count_enabled_le (w : list arc) : (count_enabled w <= length w)%nat.
Proof. unfold count_enabled. apply length_filter. Qed.

Lemma disable_all_length (ks : list nat) (w : list arc) :
  length (foldl (fun network k => alter (set_enabled 0) k network) w ks) = length w.
Proof.
  revert w. induction ks as [|k ks IH]; intros w; [done|].
  simpl. by rewrite IH, length_alter.
Qed.

Lemma disable_stranded_returns (nodes : list node) (w : list arc) :
  listed nodes w -> exists w', disable_stranded nodes w = Done w'.
Proof.
  intros Hl. unfold disable_stranded.
  enough (forall xs w1, length w1 = length w ->
            exists w', for_each (disable_stranded_step nodes) w1 xs = Done w') as H.
  { by apply H. }
  induction xs as [|j xs IH]; intros w1 Hlen; [by eexists|].
  cbn [for_each]. unfold disable_stranded_step at 2.
  destruct (nodes !! j) as [nd|] eqn:Hj; [|by apply IH].
  destruct (decide (n_connected nd = 0)); [|by apply IH].
  destruct (arcs_at_returns w1 (n_arcs nd)) as (ks & -> & _).
  { intros v Hv. rewrite Hlen. by apply (Hl j nd v). }
  change (Done ?x ≫= ?f) with (f x). cbv beta.
  change (Done ?x ≫= ?f) with (f x). cbv beta.
  apply IH. by rewrite disable_all_length.
Qed.

Section Running.

Variable e : econ.
Variable rank : nat -> nat.
Variable nodes : list node.
Hypothesis Hyears : 0 < years e.
Hypothesis Hroot : (0 < length nodes)%nat.

Lemma npv_loop_returns (depth : nat) (cg : Q) (n : nat) :
  forall (network : list arc) (best : npfloat) (f : nat),
    listed nodes network -> rooted rank nodes network -> (length network < depth)%nat ->
    (count_enabled network <= n)%nat -> (n + 2 <= f)%nat ->
    exists w, npv_loop e f depth cg best nodes network = Done (nodes, w) /\
      rooted rank nodes w /\ length w = length network.
Proof.
  induction n as [|n IH]; intros network best f Hl Hr Hd Hn Hf;
    (destruct f as [|f]; [lia|]); cbn [npv_loop];
    destruct (npv_round_returns e rank nodes Hyears Hroot network depth cg best Hl Hr Hd)
      as (b & s & Hround);
    rewrite Hround; change (Done ?y ≫= ?g) with (g y); cbv beta iota;
    unfold npv_round in Hround;
    apply npv_scan_spec in Hround as (_ & _ & _ & Hall & Hsel);
    (destruct Hsel as [[-> ->]|(i & a & Hi & Ha & -> & _ & _)]; [by exists network|]);
    destruct (Hr i a Ha) as (Hidx & Hflag & _); rewrite Hidx;
    rewrite (disable_at network i) by (by eapply lookup_lt_Some);
    change (Done ?y ≫= ?g) with (g y); cbv beta.
  - destruct Hflag as [H0|H1].
    + rewrite (alter_disabled_id network i a Ha H0).
      destruct f as [|f]; [lia|]. rewrite npv_loop_settled; [by exists network|].
      intros k c Hk; apply (Hall k c); [|done].
      apply elem_of_seq; apply lookup_lt_Some in Hk; lia.
    + pose proof (count_enabled_drop network i a Ha H1). lia.
  - destruct Hflag as [H0|H1].
    + rewrite (alter_disabled_id network i a Ha H0).
      destruct f as [|f]; [lia|]. rewrite npv_loop_settled; [by exists network|].
      intros k c Hk; apply (Hall k c); [|done].
      apply elem_of_seq; apply lookup_lt_Some in Hk; lia.
    + destruct (IH (alter (set_enabled 0) i network) b f) as (w & Hw & Hrw & Hlw).
      * apply (listed_length nodes network); [by rewrite length_alter|done].
      * by apply rooted_disable.
      * by rewrite length_alter.
      * pose proof (count_enabled_drop network i a Ha H1). lia.
      * lia.
      * exists w. split; [done|]. split; [done|]. by rewrite Hlw, length_alter.
Qed.

Lemma connect_houses_returns (network : list arc) :
  listed nodes network -> rooted rank nodes network ->
  forall d nodes1 p,
    marks nodes nodes1 -> (p < length nodes)%nat -> (length network - rank p < d)%nat ->
    exists nodes2, connect_houses d nodes1 network (Z.of_nat p) = Done nodes2.
Proof.
  intros Hl Hr. induction d as [|d IH]; intros nodes1 p Hm Hp Hd; [lia|].
  pose proof (proj1 Hm) as Hlen.
  destruct (lookup_lt_is_Some_2 nodes1 p) as [nd1 Hnd1]; [lia|].
  cbn [connect_houses]. unfold py_alter. rewrite py_pos_nat by lia.
  change (Done ?x ≫= ?f) with (f x). cbv beta.
  rewrite (py_get_nat _ p (set_connected 1 nd1))
    by (by rewrite list_lookup_alter_eq, Hnd1).
  change (Done ?x ≫= ?f) with (f x). cbv beta.
  change (n_arcs (set_connected 1 nd1)) with (n_arcs nd1).
  destruct (arcs_at_returns network (n_arcs nd1)) as (ks & -> & Hks).
  { intros v Hv. by apply (listed_marks _ _ _ Hm Hl p nd1 v). }
  change (Done ?x ≫= ?f) with (f x). cbv beta.
  assert (marks nodes (alter (set_connected 1) p nodes1)) as Hm1.
  { eapply marks_trans; [exact Hm|apply marks_alter]. }
  revert Hm1. generalize (alter (set_connected 1) p nodes1).
  induction ks as [|k ks IHks]; intros nx Hmx; [by eexists|].
  cbn [for_each].
  destruct (lookup_lt_is_Some_2 network k) as [a Ha]; [apply Hks; by left|].
  rewrite Ha.
  destruct (Hr k a Ha) as (_ & _ & p' & c' & Hp' & Hc' & Hpl & Hcl & Hrk).
  destruct (decide (a_enabled a = 1 /\ a_start a = Z.of_nat p)) as [(_ & Hst)|_].
  - rewrite Hp' in Hst. apply Nat2Z.inj in Hst. subst p'. rewrite Hc'.
    destruct (IH nx c' Hmx Hcl) as (n2 & Hn2); [lia|].
    rewrite Hn2. change (Done ?x ≫= ?f) with (f x). cbv beta.
    apply IHks; [intros k' Hk'; apply Hks; by right|].
    eapply marks_trans; [exact Hmx|by eapply connect_houses_marks].
  - change (Done ?x ≫= ?f) with (f x). cbv beta.
    apply IHks; [intros k' Hk'; apply Hks; by right|done].
Qed.

Lemma report_figures_returns (st : state) : exists f, report_figures e st = Done f.
Proof.
  unfold report_figures. destruct (foldl _ _ _) as [[c i] g].
  match goal with |- context [npv_of e ?capex ?inc] =>
    destruct (npv_of_Done e capex inc Hyears) as (v & -> & _) end.
  by eexists.
Qed.

(** With a discount rate other than -1 the NPV is finite, and [int(npv)]
    returns. *)
Lemma report_returns (st : state) :
  ~ (1 + discount_rate e == 0)%Q ->
  exists f res, report_figures e st = Done f /\ report f = Done res.
Proof.
  intros Hrate. unfold report_figures. destruct (foldl _ _ _) as [[c i] g].
  match goal with |- context [npv_of e ?capex ?inc] =>
    destruct (npv_of_regular e capex inc Hyears Hrate) as (v & ->) end.
  by eexists; eexists.
Qed.

Lemma npv_mode_returns (fuel depth : nat) (network : list arc) :
  ~ (1 + discount_rate e == 0)%Q ->
  listed nodes network -> rooted rank nodes network ->
  (length network + 2 <= fuel)%nat -> (length network < depth)%nat ->
  exists res network' nodes',
    run_model e fuel depth network nodes (-1) = Done (res, network', nodes').
Proof.
  intros Hrate Hl Hr Hfuel Hdepth. unfold run_model, optimise.
  change (Qeq_bool (-1) (-1)) with true. cbv iota. simpl fst. simpl snd.
  destruct (npv_loop_returns depth (initial_cost_gen e nodes) (length network) network
              (Finite (-9999999)) fuel Hl Hr Hdepth (count_enabled_le network) Hfuel)
    as (w & -> & Hrw & Hlw).
  change (Done ?x ≫= ?f) with (f x). cbv beta.
  unfold resolve. simpl fst. simpl snd.
  assert (listed nodes w) as Hlw' by (by apply (listed_length nodes network)).
  destruct (connect_houses_returns w Hlw' Hrw depth nodes 0%nat (marks_refl nodes) Hroot)
    as (nodes2 & Hcon); [lia|].
  change (Z.of_nat 0) with 0 in Hcon. rewrite Hcon.
  change (Done ?x ≫= ?f) with (f x). cbv beta.
  destruct (disable_stranded_returns nodes2 w) as (w' & ->).
  { apply (listed_marks nodes); [by eapply connect_houses_marks|done]. }
  change (Done ?x ≫= ?f) with (f x). cbv beta.
  change (mret ?x ≫= ?f) with (f x). cbv beta.
  destruct (report_returns (nodes2, w') Hrate) as (fg & res & -> & Hres).
  change (Done ?x ≫= ?f) with (f x). cbv beta. rewrite Hres.
  by eexists; eexists; eexists.
Qed.

End Running.



End Pipeline.

(** * What the report counts as connected *)

Module Connected.
Import Director Shape DirectorFacts DirectorMore.
Import Model Spec Rel ModelFacts ModelMore.

(** ** Reachability through enabled arcs *)

Lemma shrinks_lookup_inv (w w' : list arc) (k : nat) (a' : arc) :
  shrinks w w' -> w' !! k = Some a' ->
  exists a, w !! k = Some a /\ (a' = a \/ a' = set_enabled 0 a).
Proof.
  intros [Hlen Hs] Hk.
  destruct (lookup_lt_is_Some_2 w k) as [a Ha]; [apply lookup_lt_Some in Hk; lia|].
  destruct (Hs k a Ha) as (b & Hb & Hab). rewrite Hk in Hb. inversion Hb; subst b.
  by exists a.
Qed.

(** Disabling arcs makes nothing reachable. *)
Lemma reachable_shrinks (w w' : list arc) (z : Z) :
  shrinks w w' -> reachable w' z -> reachable w z.
Proof.
  intros Hs Hr. induction Hr as [|a' Ha' He _ IH]; [apply reachable_root|].
  apply list_elem_of_lookup in Ha' as [k Hk].
  destruct (shrinks_lookup_inv _ _ _ _ Hs Hk) as (a & Ha & [->| ->]); [|discriminate].
  apply reachable_arc; [by eapply list_elem_of_lookup_2|done..].
Qed.

Lemma built_shrinks (nodes : list node) (w w' : list arc) :
  shrinks w w' -> built nodes w -> built nodes w'.
Proof.
  intros Hs (Hfresh & Hends & Hlists). split_and!; [done| |].
  - intros a' [k Hk]%list_elem_of_lookup.
    destruct (shrinks_lookup_inv _ _ _ _ Hs Hk) as (a & Ha & Haa).
    destruct (Hends a) as (p & c & Hp & Hc & Hpl & Hcl); [by eapply list_elem_of_lookup_2|].
    exists p, c. by destruct Haa as [->| ->].
  - intros j nd Hj v. rewrite (Hlists j nd Hj v). split.
    + intros (i & a & -> & Hi & Hends').
      destruct (proj2 Hs i a Hi) as (a' & Hi' & Haa).
      exists i, a'. split_and!; [done|done|]. by destruct Haa as [->| ->].
    + intros (i & a' & -> & Hi' & Hends').
      destruct (shrinks_lookup_inv _ _ _ _ Hs Hi') as (a & Hi & Haa).
      exists i, a. split_and!; [done|done|]. by destruct Haa as [->| ->].
Qed.

Section Reached.

Variable nodes : list node.
Variable w : list arc.
Hypothesis Hroot : (0 < length nodes)%nat.
Hypothesis Hbuilt : built nodes w.

Lemma reachable_position (z : Z) :
  reachable w z -> exists p, z = Z.of_nat p /\ (p < length nodes)%nat.
Proof.
  intros Hr. destruct Hr as [|a Ha _ _]; [by exists 0%nat|].
  destruct (proj1 (proj2 Hbuilt) a Ha) as (p & c & _ & Hc & _ & Hcl). by exists c.
Qed.

(** What [connect_houses] meets from a reachable node is reachable. *)
Lemma reaches_reachable (index : Z) (j : nat) :
  reaches nodes w index j -> reachable w index -> reachable w (Z.of_nat j).
Proof.
  induction 1 as [index j Hj|index p nd i k a j Hp Hnd Hi Hk Ha He Hs _ IH]; intros Hr.
  - destruct (reachable_position _ Hr) as (p & -> & Hp).
    rewrite py_pos_nat in Hj by done. by inversion Hj; subst.
  - apply IH. subst index. apply reachable_arc; [by eapply list_elem_of_lookup_2|done..].
Qed.

Lemma reaches_arc (index : Z) (p c k : nat) (a : arc) :
  reaches nodes w index p ->
  (exists p0, index = Z.of_nat p0) ->
  w !! k = Some a -> a_enabled a = 1 ->
  a_start a = Z.of_nat p -> a_end a = Z.of_nat c -> (c < length nodes)%nat ->
  reaches nodes w index c.
Proof.
  intros Hr H0 Hk He Hs Hend Hc.
  induction Hr as [index j Hj|index p' nd i k' a' j Hp Hnd Hi Hk' Ha' He' Hs' _ IH].
  - destruct H0 as (p0 & ->).
    pose proof (py_pos_lt _ _ _ Hj) as Hlt.
    assert (j = p0) as ->.
    { unfold py_pos in Hj. repeat case_decide; try lia; inversion Hj; lia. }
    destruct (lookup_lt_is_Some_2 nodes p0 Hlt) as [nd Hnd].
    apply (reaches_step nodes w (Z.of_nat p0) p0 nd (Z.of_nat k) k a c); try done.
    + apply (proj2 (proj2 Hbuilt) p0 nd Hnd). exists k, a. split_and!; [done|done|by left].
    + apply py_pos_nat. by eapply lookup_lt_Some.
    + rewrite Hend. apply reaches_here. by apply py_pos_nat.
  - eapply reaches_step; try done. apply IH; [|done].
    destruct (proj1 (proj2 Hbuilt) a') as (_ & c' & _ & Hc' & _);
      [by eapply list_elem_of_lookup_2|].
    by exists c'.
Qed.

Lemma reachable_reaches (z : Z) :
  reachable w z -> forall p, z = Z.of_nat p -> reaches nodes w 0 p.
Proof.
  induction 1 as [|a Ha He Hr IH]; intros p Hp.
  - assert (p = 0%nat) as -> by lia. apply reaches_here. by apply (py_pos_nat _ 0).
  - apply list_elem_of_lookup in Ha as [k Hk].
    destruct (proj1 (proj2 Hbuilt) a) as (ps & c & Hs & Hc & Hpl & Hcl);
      [by eapply list_elem_of_lookup_2|].
    assert (c = p) as -> by lia.
    apply (reaches_arc 0 ps p k a); try done; [by apply IH|by exists 0%nat].
Qed.

(** On nodes and a network as [create_network] builds them, what
    [connect_houses] meets from node 0 is what is reachable. *)
Lemma reaches_iff_reachable (j : nat) :
  reaches nodes w 0 j <-> reachable w (Z.of_nat j).
Proof.
  split.
  - intros Hr. apply (reaches_reachable 0); [done|apply reachable_root].
  - intros Hr. by apply (reachable_reaches (Z.of_nat j)).
Qed.

End Reached.

(** ** The pass over the stranded arcs *)

Lemma disable_all_lookup_ne (ks : list nat) (w : list arc) (k : nat) :
  k ∉ ks ->
  foldl (fun network k => alter (set_enabled 0) k network) w ks !! k = w !! k.
Proof.
  revert w. induction ks as [|k0 ks IH]; intros w Hk; [done|].
  simpl. rewrite IH by (intros ?; apply Hk; by right).
  apply list_lookup_alter_ne. intros ->. apply Hk. by left.
Qed.

(** The pass leaves alone an arc that no node with [connected == 0] lists. *)
Lemma disable_stranded_keeps (nodes : list node) (w w1 : list arc) (k : nat) (a : arc) :
  disable_stranded nodes w = Done w1 ->
  w !! k = Some a ->
  (forall j nd v, nodes !! j = Some nd -> n_connected nd = 0 -> v ∈ n_arcs nd ->
     py_pos (length w) v <> Some k) ->
  w1 !! k = Some a.
Proof.
  intros Hrun Hk Hfree. unfold disable_stranded in Hrun.
  pose (P := fun s : list arc => length s = length w /\ s !! k = Some a).
  enough (P w1) as [_ H] by exact H.
  eapply (for_each_invariant P); [| |exact Hrun]; [|by split].
  intros s j s' _ [Hlen Hs] Hstep. unfold disable_stranded_step in Hstep.
  destruct (nodes !! j) as [nd|] eqn:Hj; [|by inversion Hstep; subst].
  destruct (decide (n_connected nd = 0)) as [H0|]; [|by inversion Hstep; subst].
  apply bind_Done in Hstep as (ks & Hks & Hstep). inversion Hstep; subst s'; clear Hstep.
  split.
  - destruct (disable_all_shrinks ks s) as [[L _] _]. by rewrite L.
  - rewrite disable_all_lookup_ne; [done|].
    intros Hin. apply (arcs_at_elem _ _ _ k Hks) in Hin as (v & Hv & Hpos).
    rewrite Hlen in Hpos. by apply (Hfree j nd v).
Qed.

(** ** The figures of the report *)

Lemma run_model_figures (e : econ) (fuel depth : nat) (network : list arc)
    (nodes : list node) (target_coverage : Q)
    (res : results) (network' : list arc) (nodes' : list node) :
  run_model e fuel depth network nodes target_coverage = Done (res, network', nodes') ->
  exists pruned,
    optimise e fuel depth target_coverage (nodes, network) = Done (nodes, pruned) /\
    connect_houses depth nodes pruned 0 = Done nodes' /\
    disable_stranded nodes' pruned = Done network' /\
    r_connected res = Z.of_nat (length (flagged nodes')) - 1 /\
    r_income res
      = py_int (foldl (fun acc n => acc + node_income e n)%Q 0%Q (flagged nodes') * 12) /\
    r_gen_size res
      = py_int (foldl (fun acc n => acc + inject_Z (n_area n) * num_people_per_m2
                                          * demand_per_person_kw_peak e)%Q 0%Q
                      (flagged nodes')).
Proof.
  unfold run_model. intros Hrun.
  apply bind_Done in Hrun as ([nodes1 pruned] & Hopt & Hrun).
  apply bind_Done in Hrun as (st2 & Hres & Hrun).
  apply bind_Done in Hrun as (f & Hrep & Hrun).
  apply bind_Done in Hrun as (res0 & Hres0 & Hrun).
  inversion Hrun; subst res network' nodes'; clear Hrun.
  pose proof (optimise_nodes _ _ _ _ _ _ Hopt) as Hn. simpl in Hn. subst nodes1.
  unfold resolve in Hres. simpl in Hres.
  apply bind_Done in Hres as (nodes2 & Hcon & Hres).
  apply bind_Done in Hres as (w2 & Hstr & Hres). inversion Hres; subst st2; clear Hres.
  simpl.
  unfold report_figures in Hrep. simpl in Hrep.
  rewrite report_step_flagged in Hrep.
  apply bind_Done in Hrep as (v & _ & Hrep). inversion Hrep; subst f; clear Hrep.
  unfold report in Hres0. simpl in Hres0.
  apply bind_Done in Hres0 as (x & _ & Hres0). inversion Hres0; subst res0; clear Hres0.
  simpl. exists pruned. split_and!; try done; lia.
Qed.

(** C10.  On nodes and a network as [create_network] builds them, whenever
    [run_model] reaches its report: node 0, the generator, is marked
    connected; a node is marked connected exactly when it is reachable from
    node 0 through enabled arcs, of the network that the optimiser left as
    of the network returned, which agree on what is reachable; the figure
    [connected], the number of nodes marked connected minus one, is never
    negative and is the number of nodes other than node 0 that are
    reachable from node 0 through enabled arcs; and the income and the
    generator size are summed over the nodes marked connected only. *)
Theorem run_model_reports_connected (e : econ) (fuel depth : nat) (network : list arc)
    (nodes : list node) (target_coverage : Q)
    (res : results) (network' : list arc) (nodes' : list node) :
  built nodes network ->
  run_model e fuel depth network nodes target_coverage = Done (res, network', nodes') ->
  connected_at nodes' 0 /\
  (forall j, connected_at nodes' j <-> reachable network' (Z.of_nat j)) /\
  (exists pruned,
     optimise e fuel depth target_coverage (nodes, network) = Done (nodes, pruned) /\
     forall z, reachable pruned z <-> reachable network' z) /\
  r_connected res = Z.of_nat (length (flagged nodes')) - 1 /\
  0 <= r_connected res /\
  (exists l : list nat,
     NoDup l /\
     (forall j, j ∈ l <-> j <> 0%nat /\ reachable network' (Z.of_nat j)) /\
     r_connected res = Z.of_nat (length l)) /\
  r_income res
    = py_int (foldl (fun acc n => acc + node_income e n)%Q 0%Q (flagged nodes') * 12) /\
  r_gen_size res
    = py_int (foldl (fun acc n => acc + inject_Z (n_area n) * num_people_per_m2
                                        * demand_per_person_kw_peak e)%Q 0%Q
                    (flagged nodes')).
Proof.
  intros Hbuilt Hrun.
  destruct (run_model_figures _ _ _ _ _ _ _ _ _ Hrun)
    as (pruned & Hopt & Hcon & Hstr & Hcount & Hinc & Hgen).
  pose proof (optimise_shrinks _ _ _ _ _ _ Hopt) as Hs. simpl in Hs.
  pose proof (built_shrinks _ _ _ Hs Hbuilt) as Hbp.
  pose proof (disable_stranded_shrinks _ _ _ Hstr) as Hs2.
  destruct (connect_houses_root _ _ _ _ Hcon) as [Hlen Hroot].
  pose proof (connect_houses_marks _ _ _ _ _ Hcon) as Hm.
  assert (forall j, connected_at nodes' j <-> reachable pruned (Z.of_nat j)) as Hconn.
  { intros j. rewrite <- (reaches_iff_reachable nodes pruned Hlen Hbp). split.
    - intros Hj.
      destruct (connect_houses_sound _ _ _ _ _ Hcon j Hj) as [(n & Hn & Hc)|Hr]; [|done].
      rewrite (proj1 Hbuilt n) in Hc; [done|by eapply list_elem_of_lookup_2].
    - by apply (connect_houses_complete _ _ _ _ _ Hcon). }
  assert (forall z, reachable pruned z <-> reachable network' z) as Hsame.
  { intros z. split; [|by apply reachable_shrinks].
    induction 1 as [|a Ha He Hr IH]; [apply reachable_root|].
    apply list_elem_of_lookup in Ha as [k Hk].
    apply reachable_arc; [|done|done].
    apply (list_elem_of_lookup_2 _ k).
    apply (disable_stranded_keeps nodes' pruned network' k a Hstr Hk).
    intros j nd v Hj H0 Hv Hpos.
    destruct (marks_lookup_inv _ _ _ _ Hm Hj) as (nd0 & Hnd0 & Hnn).
    assert (n_arcs nd = n_arcs nd0) as Harcs by (by destruct Hnn as [->| ->]).
    rewrite Harcs in Hv.
    apply (proj2 (proj2 Hbp) j nd0 Hnd0) in Hv as (i & b & -> & Hi & Hends).
    rewrite py_pos_nat in Hpos by (by eapply lookup_lt_Some).
    inversion Hpos; subst i. rewrite Hk in Hi. inversion Hi; subst b.
    assert (reachable pruned (Z.of_nat j)) as Hrj.
    { destruct Hends as [<-|<-]; [done|by apply reachable_arc; [eapply list_elem_of_lookup_2|..]]. }
    apply Hconn in Hrj as (nd' & Hnd' & Hc). rewrite Hj in Hnd'. inversion Hnd'; subst nd'.
    lia. }
  assert (length (filter (flag_at nodes') (seq 1 (length nodes' - 1))) + 1
          = length (flagged nodes'))%nat as Hfl.
  { rewrite <- flagged_positions.
    replace (length nodes') with (S (length nodes' - 1)) at 2 by (rewrite (proj1 Hm); lia).
    simpl. rewrite filter_cons.
    destruct (decide (flag_at nodes' 0)) as [_|Hn]; [simpl; lia|].
    destruct Hn. by apply flag_at_connected. }
  split_and!; try done.
  - intros j. by rewrite Hconn, Hsame.
  - by exists pruned.
  - lia.
  - exists (filter (flag_at nodes') (seq 1 (length nodes' - 1))).
    split; [apply NoDup_filter, NoDup_seq|]. split; [|lia].
    intros j. rewrite list_elem_of_filter, elem_of_seq, flag_at_connected.
    rewrite <- Hsame, <- Hconn. split.
    + intros [Hj Hr]. split; [lia|done].
    + intros [Hj Hc]. split; [done|].
      destruct Hc as (n & Hn%lookup_lt_Some & _). lia.
Qed.

Lemma village_built : built Village.nodes Village.network.
Proof.
  split_and!.
  - intros nd Hnd. apply list_elem_of_In in Hnd.
    simpl in Hnd. destruct Hnd as [<-|[<-|[<-|[]]]]; reflexivity.
  - intros a Ha. apply list_elem_of_In in Ha.
    simpl in Ha. destruct Ha as [<-|[<-|[]]]; simpl.
    + exists 0%nat, 1%nat. split_and!; (reflexivity || lia).
    + exists 1%nat, 2%nat. split_and!; (reflexivity || lia).
  - intros j nd Hj v.
    destruct j as [|[|[|j]]]; simpl in Hj; [| | |done]; inversion Hj; subst nd; simpl.
    + split.
      * intros ->%list_elem_of_singleton. exists 0%nat. eexists. split_and!; [reflexivity|reflexivity|].
        by left.
      * intros (i & a & -> & Hi & Hends). destruct i as [|[|i]]; simpl in Hi; [| |done];
          inversion Hi; subst a; simpl in Hends; [by left|lia].
    + split.
      * intros Hv. apply elem_of_cons in Hv as [->|Hv].
        -- exists 0%nat. eexists. split_and!; [reflexivity|reflexivity|]. by right.
        -- apply list_elem_of_singleton in Hv as ->.
           exists 1%nat. eexists. split_and!; [reflexivity|reflexivity|]. by left.
      * intros (i & a & -> & Hi & Hends). destruct i as [|[|i]]; simpl in Hi; [| |done];
          inversion Hi; subst a; simpl in Hends; [by left|right; by left].
    + split.
      * intros ->%list_elem_of_singleton. exists 1%nat. eexists. split_and!; [reflexivity|reflexivity|].
        by right.
      * intros (i & a & -> & Hi & Hends). destruct i as [|[|i]]; simpl in Hi; [| |done];
          inversion Hi; subst a; simpl in Hends; [lia|by left].
Qed.

Lemma run_model_reports_connected_witness :
  exists res network' nodes',
    run_model Village.fair 3 3 Village.network Village.nodes (-1)
      = Done (res, network', nodes') /\
    connected_at nodes' 0 /\ 0 <= r_connected res.
Proof.
  destruct (run_model Village.fair 3 3 Village.network Village.nodes (-1))
    as [[[res network'] nodes']| |] eqn:Hrun; [|vm_compute in Hrun; discriminate..].
  destruct (run_model_reports_connected Village.fair 3 3 Village.network Village.nodes
              (-1) res network' nodes' village_built Hrun) as (H0 & _ & _ & _ & Hpos & _).
  exists res, network', nodes'. split; [reflexivity|]. split; [exact H0|exact Hpos].
Defined.

End Connected.

(** * The arcs of the director, once more *)

Module Geometry.
Import Director Shape DirectorFacts DirectorMore Pipeline.

(** ** The arcs between their nodes *)

Section Joining.

Variable max_tot_length : Q.
Variable sqrt : Z -> Q.

(** X18.  On a spanning tree rooted at node 0, [direct_network] directs
    every arc, from the node at its first end point to a different node,
    the one at its second end point, and the marginal distance of that
    second node is the length of the arc. *)
Theorem arcs_join_their_nodes (fuel : nat) (points : list (Z * Z * Z))
    (segs : list (Z * Z * Z * Z)) :
  spanning_tree points segs ->
  (length segs < fuel)%nat ->
  exists nodes network,
    direct_network max_tot_length fuel (init_nodes points, init_network sqrt segs) 0
      = Done (nodes, network) /\
    forall i a, network !! i = Some a ->
      a_directed a = 1 /\
      exists p c np nc,
        a_start a = Z.of_nat p /\ a_end a = Z.of_nat c /\ p <> c /\
        nodes !! p = Some np /\ nodes !! c = Some nc /\
        (n_x np, n_y np) = (a_xs a, a_ys a) /\ (n_x nc, n_y nc) = (a_xe a, a_ye a) /\
        n_marg nc = a_length a.
Proof.
  intros Htree Hfuel.
  destruct (tree_checked max_tot_length sqrt fuel points segs Htree Hfuel)
    as ([nodes network] & Hrun & _ & Hnever & Hall).
  exists nodes, network. split; [done|]. intros i a Hi.
  pose proof Hrun as Hloop. apply loop_of_run in Hloop.
  pose proof (final_tracked _ _ _ _ Htree _ Hloop) as Htr.
  assert (exists rank, ranked (nodes, network) rank) as [rank [_ Rarcs]].
  { destruct (Loop_ranked _ _ _ _ _ Hloop 0%nat) as [Ht|Hr]; try done.
    - apply init_nodes_indexed.
    - by apply init_anchored.
    - by left.
    - by apply init_tracked.
    - right. eexists. apply init_ranked. }
  pose proof (Hall i a Hi) as Hd. split; [done|].
  destruct (Htr i a Hi Hd) as (_ & (p & c & np & nc & Hp & Hc & Hnp & Hxp & Hnc & Hxc) & Hm).
  destruct Hm as [(p' & c' & np' & nc' & Hp' & Hc' & Hnp' & Hnc' & Hmarg & _)|Ht]; [|done].
  assert (c' = c) as -> by lia. simpl in Hnc, Hnc'. rewrite Hnc in Hnc'.
  inversion Hnc'; subst nc'.
  destruct (Rarcs i a p c Hi Hd Hp Hc) as [Hlt _].
  exists p, c, np, nc. split_and!; try done. intros ->. lia.
Qed.

(** X19.  Whatever the segments, every arc of the network that
    [direct_network] returns still carries its position as index, and its
    length is the Euclidean distance between its two end points as they are
    now, swapped or not. *)
Theorem lengths_are_euclidean (fuel : nat) (points : list (Z * Z * Z))
    (segs : list (Z * Z * Z * Z)) (st' : state) :
  direct_network max_tot_length fuel (init_nodes points, init_network sqrt segs) 0 = Done st' ->
  forall i a, st'.2 !! i = Some a ->
    a_index a = Z.of_nat i /\
    a_length a = sqrt ((a_xe a - a_xs a) ^ 2 + (a_ye a - a_ys a) ^ 2).
Proof.
  intros Hrun i a Hi.
  pose proof (direct_network_kept_helper max_tot_length fuel _ 0 st' Hrun) as (_ & M & _ & A).
  simpl in M. unfold init_network in M. rewrite length_imap in M.
  destruct (lookup_lt_is_Some_2 segs i) as [s Hs]; [apply lookup_lt_Some in Hi; lia|].
  destruct (A i (init_arc sqrt i s)) as (a' & Hi' & Hidx & Hlen & Hends & _).
  { simpl. apply init_network_lookup. by exists s. }
  rewrite Hi in Hi'. inversion Hi'; subst a'. split; [by rewrite Hidx|].
  rewrite Hlen. unfold init_arc, set_length. simpl. f_equal.
  unfold same_ends, a_s, a_e in Hends. simpl in Hends.
  destruct Hends as [[H1 H2]|[H1 H2]]; inversion H1; inversion H2; ring.
Qed.

End Joining.

Lemma arcs_join_their_nodes_witness :
  exists nodes network,
    direct_network 1000 3 (init_nodes Village.points,
                           init_network Village.isqrt Village.segments) 0
      = Done (nodes, network) /\
    forall i a, network !! i = Some a -> a_directed a = 1.
Proof.
  destruct (arcs_join_their_nodes 1000 Village.isqrt 3 Village.points Village.segments)
    as (nodes & network & Hrun & Hall).
  - exact village_spanning_tree.
  - simpl. lia.
  - exists nodes, network. split; [exact Hrun|]. intros i a Hi. by destruct (Hall i a Hi).
Defined.

Lemma lengths_are_euclidean_witness :
  exists st',
    direct_network 1000 3 (init_nodes Village.points,
                           init_network Village.isqrt Village.segments) 0 = Done st' /\
    forall i a, st'.2 !! i = Some a -> a_index a = Z.of_nat i.
Proof.
  destruct (direct_network 1000 3 (init_nodes Village.points,
                                   init_network Village.isqrt Village.segments) 0)
    as [st'| |] eqn:Hrun; [|vm_compute in Hrun; discriminate..].
  exists st'. split; [reflexivity|]. intros i a Hi.
  by destruct (lengths_are_euclidean 1000 Village.isqrt 3 Village.points Village.segments
                 st' Hrun i a Hi).
Defined.

End Geometry.

(** * Where the optimiser stops *)

Module Optimum.
Import Model Spec Rel ModelFacts ModelMore.

(** ** Where the mode that maximises the NPV stops *)

Section Same.

Variable e : econ.
Variable nodes : list node.
Variables (w w' : list arc) (dis dis' : Z).
Hypothesis Hlen : length w' = length w.
Hypothesis Hsame : forall k a, w !! k = Some a ->
  exists a', w' !! k = Some a' /\ a_start a' = a_start a /\ a_end a' = a_end a /\
    ((a_enabled a = 1 /\ a_index a <> dis) <-> (a_enabled a' = 1 /\ a_index a' <> dis')).

(** Two networks with the same arcs in use give the same sums. *)
Lemma calculate_profit_same (d : nat) :
  forall p c i c' i',
    calculate_profit e d nodes w p dis c i = Done (c', i', nodes, w) ->
    calculate_profit e d nodes w' p dis' c i = Done (c', i', nodes, w').
Proof.
  induction d as [|d IH]; intros p c i c' i' Hrun; [discriminate|].
  cbn [calculate_profit] in Hrun |- *.
  apply bind_Done in Hrun as (nd & Hnd & Hrun). rewrite Hnd.
  apply bind_Done in Hrun as (ks & Hks & Hrun).
  change (Done ?x ≫= ?f) with (f x). cbv beta.
  rewrite (arcs_at_length w' w _ Hlen), Hks.
  change (Done ?x ≫= ?f) with (f x). cbv beta.
  revert Hrun.
  generalize (c + (cost_wire e * n_marg nd + cost_connection e))%Q.
  generalize (i + node_income e nd)%Q.
  clear Hks. induction ks as [|k ks IHks]; intros i0 c0 Hrun.
  - simpl in Hrun |- *. by inversion Hrun.
  - cbn [for_each] in Hrun |- *.
    apply bind_Done in Hrun as ([[[c1 i1] n1] w1] & Hstep & Hrun).
    destruct (w !! k) as [a|] eqn:Ha; [|done].
    destruct (Hsame k a Ha) as (a' & -> & Hs & He & Hiff).
    destruct (decide (a_enabled a = 1 /\ a_index a <> dis /\ a_start a = p))
      as [(H1 & H2 & H3)|Hno].
    + destruct (calculate_profit_reads_only _ _ _ _ _ _ _ _ _ _ _ _ Hstep) as [-> ->].
      rewrite decide_True by (rewrite Hs; split_and!; [apply Hiff|apply Hiff|]; auto).
      rewrite He. rewrite (IH _ _ _ _ _ Hstep).
      change (Done ?x ≫= ?f) with (f x). cbv beta. by apply IHks.
    + inversion Hstep; subst c1 i1 n1 w1.
      rewrite decide_False by (rewrite Hs; intros (H1 & H2 & H3); apply Hno;
                               split_and!; [apply Hiff|apply Hiff|]; auto).
      change (Done ?x ≫= ?f) with (f x). cbv beta. by apply IHks.
Qed.

Lemma candidate_npv_same (d : nat) (cg : Q) (v : npfloat) :
  candidate_npv e d cg nodes w dis = Done (v, nodes, w) ->
  candidate_npv e d cg nodes w' dis' = Done (v, nodes, w').
Proof.
  unfold candidate_npv. intros Hrun.
  apply bind_Done in Hrun as ([[[c i] n1] w1] & Hp & Hrun).
  destruct (calculate_profit_reads_only _ _ _ _ _ _ _ _ _ _ _ _ Hp) as [-> ->].
  rewrite (calculate_profit_same _ _ _ _ _ _ Hp).
  change (Done ?x ≫= ?f) with (f x). cbv beta iota.
  apply bind_Done in Hrun as (x & Hx & Hrun). rewrite Hx.
  change (Done ?y ≫= ?f) with (f y). cbv beta.
  by inversion Hrun.
Qed.

End Same.

Section Stop.

Variable e : econ.
Variables (depth : nat) (cg : Q) (nodes : list node).

(** [best] is the initial bound, or the value of the network as it is. *)
Lemma npv_loop_optimum (fuel : nat) :
  forall (network : list arc) (best : npfloat) (st : state),
    (forall i a, network !! i = Some a -> a_index a = Z.of_nat i) ->
    best = Finite (-9999999) \/
      (fgt best (Finite (-9999999)) = true /\
       candidate_npv e depth cg nodes network (-1) = Done (best, nodes, network)) ->
    npv_loop e fuel depth cg best nodes network = Done st ->
    st.1 = nodes /\
    exists best',
      (best' = Finite (-9999999) \/
       (fgt best' (Finite (-9999999)) = true /\
        candidate_npv e depth cg nodes st.2 (-1) = Done (best', nodes, st.2))) /\
      forall a, a ∈ st.2 ->
        exists v, candidate_npv e depth cg nodes st.2 (a_index a) = Done (v, nodes, st.2) /\
                  fgt v best' = false.
Proof.
  induction fuel as [|f IH]; intros network best st Hidx Hinv Hrun; [discriminate|].
  cbn [npv_loop] in Hrun.
  apply bind_Done in Hrun as ([[[b s] n1] w1] & Hround & Hrun).
  unfold npv_round in Hround.
  apply npv_scan_spec in Hround as (-> & -> & Hle & Hall & Hsel).
  destruct Hsel as [[-> ->]|(i & a & Hi & Ha & -> & Hcand & Hlt)].
  - inversion Hrun; subst st. simpl. split; [done|]. exists best. split; [done|].
    intros a [k Hk]%list_elem_of_lookup. apply (Hall k a); [|done].
    apply elem_of_seq. apply lookup_lt_Some in Hk. lia.
  - rewrite (Hidx i a Ha) in Hrun.
    rewrite (disable_at network i) in Hrun by (by eapply lookup_lt_Some).
    change (Done ?y ≫= ?g) with (g y) in Hrun. cbv beta in Hrun.
    apply (IH _ _ _) in Hrun; [done| |].
    + intros k c Hk. destruct (decide (k = i)) as [->|Hne].
      * rewrite list_lookup_alter_eq, Ha in Hk. inversion Hk; subst c. simpl. by apply Hidx.
      * rewrite list_lookup_alter_ne in Hk by done. by apply Hidx.
    + right. split.
      * destruct Hinv as [->|[H0 _]]; [done|]. by apply fgt_trans with best.
      * apply (candidate_npv_same e nodes network (alter (set_enabled 0) i network)
                 (a_index a) (-1)); [by rewrite length_alter| |done].
        intros k c Hk. destruct (decide (k = i)) as [->|Hne].
        -- rewrite Ha in Hk. inversion Hk; subst c.
           exists (set_enabled 0 a). rewrite list_lookup_alter_eq, Ha.
           split_and!; try done. simpl. split; [by intros [_ ?]|by intros [? _]].
        -- exists c. rewrite list_lookup_alter_ne by done. split_and!; try done.
           rewrite (Hidx k c Hk), (Hidx i a Ha). split; intros [H1 _]; (split; [done|lia]).
Qed.

End Stop.

(** X17.  Where the mode that maximises the NPV stops, on a network whose
    arcs carry their position as index: the removal of any single arc of
    the final network is evaluated, and none is worth more than the best
    NPV, which is the value of the final network itself (evaluated as a
    candidate, with the generator cost computed beforehand) as soon as
    one candidate has exceeded the initial -9999999. *)
Theorem npv_mode_local_optimum (e : econ) (fuel depth : nat) (nodes : list node)
    (network : list arc) (st : state) :
  (forall i a, network !! i = Some a -> a_index a = Z.of_nat i) ->
  optimise e fuel depth (-1) (nodes, network) = Done st ->
  st.1 = nodes /\
  exists best,
    (best = Finite (-9999999) \/
     (fgt best (Finite (-9999999)) = true /\
      candidate_npv e depth (initial_cost_gen e nodes) nodes st.2 (-1)
        = Done (best, nodes, st.2))) /\
    forall a, a ∈ st.2 ->
      exists v, candidate_npv e depth (initial_cost_gen e nodes) nodes st.2 (a_index a)
                  = Done (v, nodes, st.2) /\
                fgt v best = false.
Proof.
  intros Hidx. unfold optimise. change (Qeq_bool (-1) (-1)) with true. cbv iota.
  simpl fst. simpl snd. apply npv_loop_optimum; [done|by left].
Qed.

Lemma npv_mode_local_optimum_witness :
  exists st, optimise Village.fair 4 3 (-1) (Village.nodes, Village.network) = Done st /\
             st.1 = Village.nodes.
Proof.
  destruct (optimise Village.fair 4 3 (-1) (Village.nodes, Village.network))
    as [st| |] eqn:Hrun; [|vm_compute in Hrun; discriminate..].
  exists st. split; [reflexivity|].
  apply (npv_mode_local_optimum Village.fair 4 3 Village.nodes Village.network st).
  - intros i a Hi. destruct i as [|[|i]]; simpl in Hi; [| |done];
      inversion Hi; subst a; reflexivity.
  - exact Hrun.
Defined.

(** ** The first round of the coverage mode *)

Lemma count_enabled_shrinks (w w' : list arc) :
  shrinks w w' -> (count_enabled w' <= count_enabled w)%nat.
Proof.
  unfold count_enabled. revert w'. induction w as [|a w IH]; intros w' [Hlen Hs].
  - destruct w'; [done|discriminate].
  - destruct w' as [|a' w']; [discriminate|].
    assert (shrinks w w') as Hrest.
    { split; [simpl in Hlen; lia|]. intros k b Hk. apply (Hs (S k) b Hk). }
    specialize (IH w' Hrest).
    destruct (Hs 0%nat a eq_refl) as (b & Hb & Hab). simpl in Hb. inversion Hb; subst b.
    rewrite !filter_cons.
    destruct Hab as [->| ->].
    + destruct (decide (a_enabled a = 1)); simpl; lia.
    + rewrite decide_False by (simpl; lia).
      destruct (decide (a_enabled a = 1)); simpl; lia.
Qed.

Section First.

Variable e : econ.
Variables (depth : nat) (cg : Q) (nodes : list node) (network : list arc).

Lemma coverage_scan_selects (xs : list nat) :
  forall best sel b s n w,
    for_each (coverage_scan_step e depth cg) (best, sel, nodes, network) xs
      = Done (b, s, n, w) ->
    (b = best \/ fgt b best = true) /\
    ((s = sel /\ b = best) \/
     exists i a, network !! i = Some a /\ a_enabled a = 1 /\ s = Some (a_index a)) /\
    forall i a v, i ∈ xs -> network !! i = Some a -> a_enabled a = 1 ->
      candidate_npv e depth cg nodes network (a_index a) = Done (v, nodes, network) ->
      fgt v b = false.
Proof.
  induction xs as [|x xs IH]; intros best sel b s n w Hrun.
  - inversion Hrun; subst. split_and!; [by left|by left|].
    intros i a v Hi. by apply elem_of_nil in Hi.
  - cbn [for_each] in Hrun. apply bind_Done in Hrun as ([[[b1 s1] n1] w1] & Hstep & Hrun).
    unfold coverage_scan_step in Hstep.
    destruct (network !! x) as [a|] eqn:Hx.
    + apply bind_Done in Hstep as ([[v n2] w2] & Hc & Hstep).
      destruct (candidate_npv_frame _ _ _ _ _ _ _ _ _ Hc) as [-> ->].
      destruct (fgt v best) eqn:Hgt; simpl in Hstep.
      * destruct (bool_decide (a_enabled a = 1)) eqn:Hen; inversion Hstep; subst; clear Hstep;
          destruct (IH _ _ _ _ _ _ Hrun) as (Hle & Hsel & Hall).
        -- apply bool_decide_eq_true in Hen.
           split_and!.
           ++ right. destruct Hle as [->|Hle]; [done|]. by apply fgt_trans with b1.
           ++ right. destruct Hsel as [[-> _]|Hsel]; [by exists x, a|done].
           ++ intros i a' v Hi Ha' Hen' Hc'. apply elem_of_cons in Hi as [->|Hi];
                [|by eapply Hall].
              rewrite Hx in Ha'. inversion Ha'; subst a'. rewrite Hc in Hc'.
              inversion Hc'; subst v.
              destruct Hle as [->|Hle]; [apply fgt_irrefl|by apply fgt_asym].
        -- apply bool_decide_eq_false in Hen.
           split_and!; [done|done|].
           intros i a' v' Hi Ha' Hen' Hc'. apply elem_of_cons in Hi as [->|Hi];
             [|by eapply Hall].
           rewrite Hx in Ha'. by inversion Ha'; subst a'.
      * inversion Hstep; subst; clear Hstep.
        destruct (IH _ _ _ _ _ _ Hrun) as (Hle & Hsel & Hall).
        split_and!; [done|done|].
        intros i a' v' Hi Ha' Hen' Hc'. apply elem_of_cons in Hi as [->|Hi];
          [|by eapply Hall].
        rewrite Hx in Ha'. inversion Ha'; subst a'. rewrite Hc in Hc'.
        inversion Hc'; subst v'.
        destruct Hle as [->|Hle]; [done|]. by apply fgt_false_trans with b1.
    + inversion Hstep; subst; clear Hstep.
      destruct (IH _ _ _ _ _ _ Hrun) as (Hle & Hsel & Hall).
      split_and!; [done|done|].
      intros i a' v' Hi Ha' Hen' Hc'. apply elem_of_cons in Hi as [->|Hi];
        [congruence|by eapply Hall].
Qed.

End First.

(** X20.  The coverage mode prunes before it looks at the coverage: on a
    network whose arcs carry their position as index, whenever [run_model]'s
    pruning loop returns in this mode and some enabled arc has a candidate
    NPV above -9999999, fewer arcs are enabled at the end than at the start,
    even if the coverage was at or below the target from the start. *)
Theorem coverage_mode_prunes_first (e : econ) (fuel depth : nat) (target_coverage : Q)
    (nodes : list node) (network : list arc) (st' : state)
    (i : nat) (a : arc) (v : npfloat) :
  Qeq_bool target_coverage (-1) = false ->
  (forall k b, network !! k = Some b -> a_index b = Z.of_nat k) ->
  network !! i = Some a -> a_enabled a = 1 ->
  candidate_npv e depth (initial_cost_gen e nodes) nodes network (a_index a)
    = Done (v, nodes, network) ->
  fgt v (Finite (-9999999)) = true ->
  optimise e fuel depth target_coverage (nodes, network) = Done st' ->
  (count_enabled st'.2 < count_enabled network)%nat.
Proof.
  intros Hmode Hidx Hi Hen Hc Hv. unfold optimise. rewrite Hmode. simpl fst. simpl snd.
  intros Hrun. destruct fuel as [|f]; [discriminate|]. cbn [coverage_loop] in Hrun.
  apply bind_Done in Hrun as ([[[b s] n] w] & Hround & Hrun).
  pose proof (coverage_round_frame _ _ _ _ _ _ _ _ _ Hround) as [-> ->].
  unfold coverage_round in Hround.
  apply coverage_scan_selects in Hround as (_ & Hsel & Hall).
  assert (fgt v b = false) as Hvb.
  { apply (Hall i a v); try done. apply elem_of_seq. apply lookup_lt_Some in Hi. lia. }
  destruct Hsel as [[_ ->]|(i' & a' & Hi' & Hen' & ->)].
  { congruence. }
  rewrite (Hidx i' a' Hi') in Hrun.
  rewrite (disable_at network i') in Hrun by (by eapply lookup_lt_Some).
  change (Done ?y ≫= ?g) with (g y) in Hrun. cbv beta in Hrun.
  pose proof (count_enabled_drop network i' a' Hi' Hen') as Hdrop.
  apply bind_Done in Hrun as (cov & _ & Hrun).
  destruct (Qle_bool cov target_coverage).
  - inversion Hrun; subst st'. simpl. lia.
  - apply coverage_loop_shrinks, count_enabled_shrinks in Hrun. lia.
Qed.

Lemma coverage_mode_prunes_first_witness :
  exists st',
    optimise Village.fair 1 3 1 (Village.nodes, Village.network) = Done st' /\
    (count_enabled st'.2 < count_enabled Village.network)%nat.
Proof.
  destruct (optimise Village.fair 1 3 1 (Village.nodes, Village.network))
    as [st'| |] eqn:Hrun; [|vm_compute in Hrun; discriminate..].
  exists st'. split; [reflexivity|].
  destruct (candidate_npv Village.fair 3 (initial_cost_gen Village.fair Village.nodes)
              Village.nodes Village.network 1) as [[[v n] w]| |] eqn:Hc;
    [|vm_compute in Hc; discriminate..].
  assert (n = Village.nodes /\ w = Village.network) as [-> ->].
  { by apply candidate_npv_frame in Hc. }
  apply (coverage_mode_prunes_first Village.fair 1 3 1 Village.nodes Village.network st'
           1%nat (mk_arc 1 3 0 3 4 1 2 1 4 1) v).
  - reflexivity.
  - intros k b Hk. destruct k as [|[|k]]; simpl in Hk; [| |done];
      inversion Hk; subst b; reflexivity.
  - reflexivity.
  - reflexivity.
  - exact Hc.
  - vm_compute in Hc. inversion Hc. reflexivity.
  - exact Hrun.
Defined.

End Optimum.
